(** * RaftKeeper: snapshot serialization and the commit-ordering processor

    A shallow embedding of [src/Service/SnapshotCommon.cpp] and of
    [src/Service/SvsKeeperCommitProcessor.h] (the [run3] worker loop), with
    the properties of the specification stated and proved over it.

    Conventions: a [w]-bit machine integer is a [Z] whose wrap-around is
    written out; a byte string is a [list byte]; a null [ptr<T>] is [None];
    a [std::unordered_map] is an association list kept in iteration order;
    an exception or an undefined operation is an explicit result. *)

From Stdlib Require Import String.
From Stdlib Require Import ZArith List Bool Lia Sorted.
From Stdlib Require Import Strings.Byte.
Import ListNotations.
Local Open Scope Z_scope.

(** ** Byte I/O primitives *)

Module IO.

Definition byte_to_Z (b : byte) : Z := Z.of_N (Byte.to_N b).

Definition byte_of_Z (z : Z) : byte :=
  match Byte.of_N (Z.to_N (z mod 256)) with
  | Some b => b
  | None => x00
  end.

(** Modelled from the spec: [writeIntBinary] (Common/IO/WriteHelpers.h, not
    part of the source files) writes a fixed-width integer little-endian.
    [le_bytes n v] is the [n]-byte little-endian image of [v]; a negative [v]
    comes out in two's complement. *)
Fixpoint le_bytes (n : nat) (v : Z) : list byte :=
  match n with
  | O => []
  | S n' => byte_of_Z v :: le_bytes n' (Z.shiftr v 8)
  end.

(** The unsigned value of a little-endian byte string. *)
Fixpoint le_value (bs : list byte) : Z :=
  match bs with
  | [] => 0
  | b :: rest => byte_to_Z b + 256 * le_value rest
  end.

(** Modelled from the spec: the ZooKeeper binary convention of
    [Coordination::write] (ZooKeeper/ZooKeeperIO.h, not part of the source
    files) writes integers big-endian. *)
Definition be_bytes (n : nat) (v : Z) : list byte := rev (le_bytes n v).

Definition writeIntBinary (width : nat) (v : Z) (out : list byte) : list byte :=
  out ++ le_bytes width v.

(** [static_cast<int32_t>]: reduction into the signed 32-bit range. *)
Definition to_int32 (v : Z) : Z :=
  let u := v mod 2 ^ 32 in if u <? 2 ^ 31 then u else u - 2 ^ 32.

Definition in_int32 (v : Z) : Prop := - 2 ^ 31 <= v < 2 ^ 31.

(** Modelled from the spec: [ReadBuffer::readStrict] ([read_strict(n)]
    fails when fewer than [n] bytes remain). The result is the bytes read and
    the remaining input. *)
Definition readStrict (n : nat) (input : list byte) : option (list byte * list byte) :=
  if (n <=? length input)%nat then Some (firstn n input, skipn n input) else None.

(** [readIntBinary] into an [int32_t]. *)
Definition readInt32 (input : list byte) : option (Z * list byte) :=
  match readStrict 4 input with
  | Some (bs, rest) => Some (to_int32 (le_value bs), rest)
  | None => None
  end.

End IO.

(** ** CRC32 and the running checksum *)

Module Checksum.
Import IO.

Definition crc32_shift (c : Z) : Z :=
  if Z.testbit c 0 then Z.lxor (Z.shiftr c 1) 0xEDB88320 else Z.shiftr c 1.

Definition crc32_byte (c : Z) (b : byte) : Z :=
  Nat.iter 8 crc32_shift (Z.lxor c (byte_to_Z b)).

(** Modelled from the spec: [RK::getCRC32] (Service/KeeperUtils.h, not part
    of the source files) is the CRC32 of the IEEE 802.3 polynomial
    0xEDB88320, with initial value 0xFFFFFFFF and final XOR 0xFFFFFFFF. *)
Definition getCRC32 (data : list byte) : Z :=
  Z.lxor (fold_left crc32_byte data 0xFFFFFFFF) 0xFFFFFFFF.

(** [updateCheckSum]: the union of a [UInt64 data] and a [UInt32 crc[2]]; on
    a little-endian machine [crc[0]] is the low half of [data] and [crc[1]]
    its high half, and the CRC runs over the eight bytes of [data]. *)
Definition updateCheckSum (checksum data_crc : Z) : Z :=
  let crc0 := checksum mod 2 ^ 32 in
  let crc1 := data_crc mod 2 ^ 32 in
  let data := Z.lor crc0 (Z.shiftl crc1 32) in
  getCRC32 (le_bytes 8 data).

End Checksum.

(** ** Snapshot files: batch body codec, batch framing, domain serializers *)

Module Snapshot.
Import IO Checksum.

(** Modelled from the spec: [SnapshotVersion] (Service/SnapshotCommon.h, not
    part of the source files) is persisted as an unsigned 8-bit integer; the
    spec's scenario gives V3 the byte 0x03. *)
Inductive SnapshotVersion := V0 | V1 | V2 | V3 | VersionNone.

Definition version_byte (version : SnapshotVersion) : Z :=
  match version with
  | V0 => 0
  | V1 => 1
  | V2 => 2
  | V3 => 3
  | VersionNone => 255
  end.

(** The magic tags, as [isFileHeader] and [isFileTail] spell them. *)
Definition MAGIC_SNAPSHOT_HEAD : list byte := list_byte_of_string "SnapHead".
Definition MAGIC_SNAPSHOT_TAIL : list byte := list_byte_of_string "SnapTail".

Definition isFileHeader (magic : Z) : bool := magic =? le_value MAGIC_SNAPSHOT_HEAD.
Definition isFileTail (magic : Z) : bool := magic =? le_value MAGIC_SNAPSHOT_TAIL.

(** [SnapshotBatchBody]: the [type] tag is kept as the integer of its
    enumerator, which is what [serialize] writes and [parse] reads back. *)
Record SnapshotBatchBody := mkBody {
  type : Z;
  elements : list (list byte)
}.

Definition add (element : list byte) (b : SnapshotBatchBody) : SnapshotBatchBody :=
  mkBody (type b) (elements b ++ [element]).

Definition writeString (s : list byte) (buf : list byte) : list byte := buf ++ s.

(** [SnapshotBatchBody::serialize]. *)
Definition serialize_element (buf : list byte) (element : list byte) : list byte :=
  writeString element
    (writeIntBinary 4 (to_int32 (Z.of_nat (length element))) buf).

Definition serialize (batch_body : SnapshotBatchBody) : list byte :=
  let buf := writeIntBinary 4 (to_int32 (type batch_body)) [] in
  let buf := writeIntBinary 4 (to_int32 (Z.of_nat (length (elements batch_body)))) buf in
  fold_left serialize_element (elements batch_body) buf.

(** What [SnapshotBatchBody::parse] throws: the read helpers' exception when
    the input ends early, and the standard library's length error when a
    negative [int32_t] reaches [reserve] or [resize] as a huge [size_t]. *)
Inductive ParseError := CANNOT_READ_ALL_DATA | LENGTH_ERROR.

(** The loop [for (int i = 0; i < element_count; i++)] of [parse], with
    [n] the iterations left. *)
Fixpoint parse_elements (n : nat) (input : list byte) (acc : list (list byte))
  : ParseError + list (list byte) :=
  match n with
  | O => inr acc
  | S n' =>
      match readInt32 input with
      | None => inl CANNOT_READ_ALL_DATA
      | Some (element_size, input) =>
          if element_size <? 0 then inl LENGTH_ERROR
          else
            match readStrict (Z.to_nat element_size) input with
            | None => inl CANNOT_READ_ALL_DATA
            | Some (element, input) => parse_elements n' input (acc ++ [element])
            end
      end
  end.

(** [SnapshotBatchBody::parse]. *)
Definition parse (data : list byte) : ParseError + SnapshotBatchBody :=
  match readInt32 data with
  | None => inl CANNOT_READ_ALL_DATA
  | Some (ty, input) =>
      match readInt32 input with
      | None => inl CANNOT_READ_ALL_DATA
      | Some (element_count, input) =>
          if element_count <? 0 then inl LENGTH_ERROR
          else
            match parse_elements (Z.to_nat element_count) input [] with
            | inl e => inl e
            | inr els => inr (mkBody ty els)
            end
      end
  end.

(** Modelled from the spec: [SnapshotBatchHeader] (Service/SnapshotCommon.h,
    not part of the source files) is two little-endian 64-bit unsigned
    integers, [data_length] then [data_crc], 16 bytes in all. *)
Definition HEADER_SIZE : Z := 16.

(** [openFileAndWriteHeader]: the file is identified with the bytes written
    to it, so the path plays no part. *)
Definition openFileAndWriteHeader (version : SnapshotVersion) : list byte :=
  writeIntBinary 1 (version_byte version) ([] ++ MAGIC_SNAPSHOT_HEAD).

(** [writeTailAndClose]. *)
Definition writeTailAndClose (out : list byte) (checksum : Z) : list byte :=
  writeIntBinary 4 checksum (out ++ MAGIC_SNAPSHOT_TAIL).

(** Modelled from the spec: [Coordination::write] (ZooKeeper/ZooKeeperIO.h,
    not part of the source files): big-endian integers, strings prefixed by
    their 32-bit length, vectors prefixed by their 32-bit count. *)
Module Coordination.

Definition write_int32 (x : Z) (buf : list byte) : list byte := buf ++ be_bytes 4 x.
Definition write_int64 (x : Z) (buf : list byte) : list byte := buf ++ be_bytes 8 x.
Definition write_string (s : list byte) (buf : list byte) : list byte :=
  write_int32 (Z.of_nat (length s)) buf ++ s.

Record ACL := mkACL {
  permissions : Z;
  scheme : list byte;
  id : list byte
}.

Definition write_ACL (acl : ACL) (buf : list byte) : list byte :=
  write_string (id acl) (write_string (scheme acl) (write_int32 (permissions acl) buf)).

Definition write_ACLs (acls : list ACL) (buf : list byte) : list byte :=
  fold_left (fun buf acl => write_ACL acl buf) acls
    (write_int32 (Z.of_nat (length acls)) buf).

End Coordination.

Section Serializers.

(** The enumerators of [SnapshotBatchType] are declared in
    Service/SnapshotCommon.h, which is not part of the source files: the
    integers of the two the serializers below use, and the [type] a freshly
    constructed [SnapshotBatchBody] holds, are parameters. *)
Variables SNAPSHOT_TYPE_ACLMAP SNAPSHOT_TYPE_DATA_EPHEMERAL : Z.
Variable fresh_type : Z.

Definition new_SnapshotBatchBody : SnapshotBatchBody := mkBody fresh_type [].

(** [saveBatchV2]: the new file content, the batch the pointer refers to on
    return, and the pair returned. *)
Definition saveBatchV2 (out : list byte) (batch : option SnapshotBatchBody)
  : list byte * option SnapshotBatchBody * (Z * Z) :=
  let batch :=
    match batch with
    | None => new_SnapshotBatchBody
    | Some b => b
    end in
  let str_buf := serialize batch in
  let data_length := Z.of_nat (length str_buf) in
  let data_crc := getCRC32 str_buf in
  let out := writeIntBinary 8 data_length out in
  let out := writeIntBinary 8 data_crc out in
  let out := out ++ str_buf in
  (out, Some batch, (HEADER_SIZE + data_length, data_crc)).

(** [saveBatchAndUpdateCheckSumV2]. *)
Definition saveBatchAndUpdateCheckSumV2
  (out : list byte) (batch : option SnapshotBatchBody) (checksum : Z)
  : list byte * option SnapshotBatchBody * (Z * Z) :=
  let '(out, _, (save_size, data_crc)) := saveBatchV2 out batch in
  (out, Some new_SnapshotBatchBody, (save_size, updateCheckSum checksum data_crc)).

(** A [for] loop over a collection whose body may be undefined. *)
Fixpoint for_each {A S : Type} (body : S -> A -> option S) (l : list A) (st : S)
  : option S :=
  match l with
  | [] => Some st
  | a :: l' =>
      match body st a with
      | Some st' => for_each body l' st'
      | None => None
      end
  end.

(** The ACL map, in its iteration order. *)
Definition ACLMap := list (Z * list Coordination.ACL).

Definition acl_record (acl_it : Z * list Coordination.ACL) : list byte :=
  Coordination.write_ACLs (snd acl_it) (Coordination.write_int64 (fst acl_it) []).

(** The body of the loop of [serializeAclsV2] over the state
    [(out, batch, index, checksum)]. [None] is the undefined modulo by a
    zero [save_batch_size]. *)
Definition serializeAclsV2_body (save_batch_size : Z)
  (st : list byte * option SnapshotBatchBody * Z * Z) (acl_it : Z * list Coordination.ACL)
  : option (list byte * option SnapshotBatchBody * Z * Z) :=
  let '(out, batch, index, checksum) := st in
  if save_batch_size =? 0 then None
  else
    let '(out, batch, checksum) :=
      if index mod save_batch_size =? 0 then
        let '(out, batch, checksum) :=
          if negb (index =? 0) then
            let '(out, batch, (_, new_checksum)) :=
              saveBatchAndUpdateCheckSumV2 out batch checksum in
            (out, batch, new_checksum)
          else (out, batch, checksum) in
        (out, Some (mkBody SNAPSHOT_TYPE_ACLMAP []), checksum)
      else (out, batch, checksum) in
    match batch with
    | None => None
    | Some b => Some (out, Some (add (acl_record acl_it) b), (index + 1) mod 2 ^ 64, checksum)
    end.

(** [serializeAclsV2]: the content of the file written. *)
Definition serializeAclsV2 (acls : ACLMap) (path : string) (save_batch_size : Z)
  (version : SnapshotVersion) : option (list byte) :=
  let out := openFileAndWriteHeader version in
  match for_each (serializeAclsV2_body save_batch_size) acls (out, None, 0, 0) with
  | None => None
  | Some (out, batch, index, checksum) =>
      let '(out, _, (_, new_checksum)) := saveBatchAndUpdateCheckSumV2 out batch checksum in
      Some (writeTailAndClose out new_checksum)
  end.

(** The ephemerals index, each session with its set of paths, both in
    iteration order. *)
Definition Ephemerals := list (Z * list (list byte)).

Definition ephemeral_record (ephemeral_it : Z * list (list byte)) : list byte :=
  fold_left (fun buf node_path => Coordination.write_string node_path buf)
    (snd ephemeral_it)
    (Coordination.write_int64 (Z.of_nat (length (snd ephemeral_it)))
       (Coordination.write_int64 (fst ephemeral_it) [])).

(** The body of the loop of [serializeEphemeralsV2] over the state
    [(out, batch, index)]. *)
Definition serializeEphemeralsV2_body (save_batch_size : Z)
  (st : list byte * option SnapshotBatchBody * Z) (ephemeral_it : Z * list (list byte))
  : option (list byte * option SnapshotBatchBody * Z) :=
  let '(out, batch, index) := st in
  if save_batch_size =? 0 then None
  else
    let '(out, batch) :=
      if index mod save_batch_size =? 0 then
        let '(out, batch) :=
          if negb (index =? 0) then
            let '(out, batch, _) := saveBatchV2 out batch in (out, batch)
          else (out, batch) in
        (out, Some (mkBody SNAPSHOT_TYPE_DATA_EPHEMERAL []))
      else (out, batch) in
    match batch with
    | None => None
    | Some b => Some (out, Some (add (ephemeral_record ephemeral_it) b), (index + 1) mod 2 ^ 64)
    end.

(** [serializeEphemeralsV2]: the file written, if any, and the value
    returned. An empty index writes no file and returns 0. *)
Definition serializeEphemeralsV2 (ephemerals : Ephemerals) (path : string)
  (save_batch_size : Z) : option (option (list byte) * Z) :=
  match ephemerals with
  | [] => Some (None, 0)
  | _ =>
      let out : list byte := [] in
      match for_each (serializeEphemeralsV2_body save_batch_size) ephemerals (out, None, 0) with
      | None => None
      | Some (out, batch, index) =>
          let '(out, _, _) := saveBatchV2 out batch in
          Some (Some out, 1)
      end
  end.

End Serializers.

End Snapshot.

(** ** The commit processor *)

Module CommitProcessor.

(** [SvsKeeperStorage::RequestForSession]: the session, and of the request
    its [xid] and whether [isReadRequest()] holds. The operation itself is
    opaque to the processor. *)
Record Request := mkRequest {
  session_id : Z;
  xid : Z;
  isReadRequest : bool
}.

(** Modelled from the spec: [nuraft::cmd_result_code] belongs to NuRaft, not
    to the source files; the processor only tells [TIMEOUT] from the rest. *)
Inductive cmd_result_code := TIMEOUT | OTHER.

Inductive Error := ZOPERATIONTIMEOUT | ZCONNECTIONLOSS | ZSESSIONEXPIRED.

(** What reaches the response sink: either the response the store pushes
    when [storage.processRequest] applies a request (the store is outside the
    source files, so the call is recorded with its request), or a response
    made by the processor itself with [makeResponse] and the three fields it
    sets. *)
Inductive Response :=
| StoreResponse (request : Request)
| MadeResponse (xid zxid : Z) (error : Error).

Definition ResponseForSession := (Z * Response)%type.

Definition response_xid (r : ResponseForSession) : Z :=
  match snd r with
  | StoreResponse request => xid request
  | MadeResponse x _ _ => x
  end.

(** The exceptions [run3] throws, all with code [RAFT_ERROR]. *)
Inductive Exception :=
| NotAccepted
| BatchError (error_code : cmd_result_code)
| LogicError
| LogicErrorReadRequired
| LogicErrorPendingWriteHead (session head_xid committed_xid : Z)
| LogicErrorPendingHead (session head_xid committed_xid : Z).

(** Conversions between the signed and unsigned 64-bit types. *)
Definition to_uint64 (v : Z) : Z := v mod 2 ^ 64.
Definition to_int64 (v : Z) : Z :=
  let u := v mod 2 ^ 64 in if u <? 2 ^ 63 then u else u - 2 ^ 64.
Definition in_int64 (v : Z) : Prop := - 2 ^ 63 <= v < 2 ^ 63.

(** *** [std::unordered_map<int64_t, V>] as an association list *)

Section Map.
Context {V : Type}.

Fixpoint find (k : Z) (m : list (Z * V)) : option V :=
  match m with
  | [] => None
  | (k', v) :: m' => if k' =? k then Some v else find k m'
  end.

(** Assignment through a reference to the value of a present key. *)
Fixpoint update (k : Z) (v : V) (m : list (Z * V)) : list (Z * V) :=
  match m with
  | [] => []
  | (k', v') :: m' => if k' =? k then (k', v) :: m' else (k', v') :: update k v m'
  end.

Fixpoint erase (k : Z) (m : list (Z * V)) : list (Z * V) :=
  match m with
  | [] => []
  | (k', v') :: m' => if k' =? k then m' else (k', v') :: erase k m'
  end.

(** [operator[]]: the value at the key, inserted as [dflt] when absent. The
    iteration order of an unordered map is unspecified; the model puts a new
    key last. *)
Definition subscript (k : Z) (dflt : V) (m : list (Z * V)) : V * list (Z * V) :=
  match find k m with
  | Some v => (v, m)
  | None => (dflt, m ++ [(k, dflt)])
  end.

End Map.

Abbreviation RequestForSessions := (list Request).
Abbreviation PendingMap := (list (Z * RequestForSessions)).

(** [m[k].push_back(r)]. *)
Definition push_back (k : Z) (r : Request) (m : PendingMap) : PendingMap :=
  let '(v, m) := subscript k [] m in update k (v ++ [r]) m.

(** The processor's fields. The bound of [requests_queue] (20000, where a
    producer blocks) is not modelled. *)
Record State := mkState {
  requests_queue : list Request;
  shutdown_called : bool;
  responses_queue : list ResponseForSession;
  committed_queue : list Request;
  pending_write_requests : PendingMap;
  pending_requests : PendingMap;
  errors : list ((Z * Z) * (bool * cmd_result_code))
}.

Definition initial : State := mkState [] false [] [] [] [] [].

(** *** Control flow of one pass through the [try] block *)

Inductive Flow (A : Type) :=
| Normal (a : A)
| Throw (e : Exception) (a : A)
| Undefined.
Arguments Normal {A} a.
Arguments Throw {A} e a.
Arguments Undefined {A}.

Definition bind {A B : Type} (x : Flow A) (f : A -> Flow B) (g : A -> B) : Flow B :=
  match x with
  | Normal a => f a
  | Throw e a => Throw e (g a)
  | Undefined => Undefined
  end.

(** *** The error phase *)

(** The scan of a pending list for the first request with the [xid]: the
    request found, and the list without it. *)
Fixpoint erase_xid (x : Z) (requests : list Request) : option Request * list Request :=
  match requests with
  | [] => (None, [])
  | r :: rest =>
      if to_uint64 (xid r) =? x then (Some r, rest)
      else let '(found, rest') := erase_xid x rest in (found, r :: rest')
  end.

Definition error_of (error_code : cmd_result_code) : Error :=
  match error_code with
  | TIMEOUT => ZOPERATIONTIMEOUT
  | OTHER => ZCONNECTIONLOSS
  end.

(** The block under [errors_mutex]. Every path through the body of its
    [for] loop ends in a [throw] (or in the dereference of an [end()]
    iterator when [find] misses), so the loop never reaches a second entry:
    the block handles the entry [errors.begin()] points to. *)
Definition drain_errors (st : State) : Flow State :=
  match errors st with
  | [] => Normal st
  | ((session, x), (accepted, error_code)) :: errors' =>
      match find (to_int64 session) (pending_requests st) with
      | None => Undefined
      | Some requests =>
          let '(request, requests) := erase_xid x requests in
          let pending := update (to_int64 session) requests (pending_requests st) in
          match find (to_int64 session) (pending_write_requests st) with
          | None => Undefined
          | Some w_requests =>
              let '(_, w_requests) := erase_xid x w_requests in
              let pending_w := update (to_int64 session) w_requests (pending_write_requests st) in
              match request with
              | Some r =>
                  let response := MadeResponse (xid r) 0 (error_of error_code) in
                  Throw (if negb accepted then NotAccepted else BatchError error_code)
                    (mkState (requests_queue st) (shutdown_called st)
                       (responses_queue st ++ [(session_id r, response)])
                       (committed_queue st) pending_w pending errors')
              | None =>
                  Throw LogicError
                    (mkState (requests_queue st) (shutdown_called st)
                       (responses_queue st) (committed_queue st)
                       pending_w pending (errors st))
              end
          end
      end
  end.

(** *** Draining the input queue *)

Definition enqueue_pending (maps : PendingMap * PendingMap) (request : Request)
  : PendingMap * PendingMap :=
  let '(pending, pending_w) := maps in
  let pending := push_back (session_id request) request pending in
  let pending_w :=
    if negb (isReadRequest request)
    then push_back (session_id request) request pending_w
    else pending_w in
  (pending, pending_w).

Definition drain_requests (requests : list Request) (pending pending_w : PendingMap)
  : PendingMap * PendingMap :=
  fold_left enqueue_pending requests (pending, pending_w).

(** *** Serving reads *)

(** The inner loop over one session's pending list; [w_requests] is
    [pending_write_requests[current_session_id]], which the loop does not
    change. The arguments of the trace log lines are not evaluated. *)
Fixpoint serve_requests (w_requests requests : list Request)
  (responses : list ResponseForSession)
  : Flow (list Request * list ResponseForSession) :=
  match requests with
  | [] => Normal ([], responses)
  | r :: rest =>
      if match w_requests with
         | [] => true
         | w :: _ => xid r <? xid w
         end
      then
        if negb (isReadRequest r) then Throw LogicErrorReadRequired (requests, responses)
        else serve_requests w_requests rest (responses ++ [(session_id r, StoreResponse r)])
      else Normal (requests, responses)
  end.

Definition keep_nonempty (k : Z) (requests : list Request) (m : PendingMap) : PendingMap :=
  match requests with
  | [] => m
  | _ => (k, requests) :: m
  end.

(** The outer loop over [pending_requests]. The subscript on
    [pending_write_requests] is evaluated (and so may insert the key) only
    when the session's list is not empty. *)
Fixpoint serve_sessions (sessions : PendingMap) (pending_w : PendingMap)
  (responses : list ResponseForSession)
  : Flow (PendingMap * PendingMap * list ResponseForSession) :=
  match sessions with
  | [] => Normal ([], pending_w, responses)
  | (current_session_id, requests) :: sessions' =>
      let '(w_requests, pending_w) :=
        match requests with
        | [] => ([], pending_w)
        | _ => subscript current_session_id [] pending_w
        end in
      match serve_requests w_requests requests responses with
      | Normal (requests, responses) =>
          bind (serve_sessions sessions' pending_w responses)
            (fun '(m, pending_w, responses) =>
               Normal (keep_nonempty current_session_id requests m, pending_w, responses))
            (fun '(m, pending_w, responses) =>
               (keep_nonempty current_session_id requests m, pending_w, responses))
      | Throw e (requests, responses) =>
          Throw e ((current_session_id, requests) :: sessions', pending_w, responses)
      | Undefined => Undefined
      end
  end.

(** *** Applying committed writes *)

Definition erase_if_empty (k : Z) (requests : list Request) (m : PendingMap) : PendingMap :=
  match requests with
  | [] => erase k m
  | _ => m
  end.

(** The loop over the committed requests sampled at the start of the
    iteration: the requests left in the queue, the two maps, the sink. *)
Fixpoint apply_committed (committed : list Request) (pending pending_w : PendingMap)
  (responses : list ResponseForSession)
  : Flow (list Request * PendingMap * PendingMap * list ResponseForSession) :=
  match committed with
  | [] => Normal ([], pending, pending_w, responses)
  | c :: committed' =>
      let s := session_id c in
      let '(w_requests, pending_w) := subscript s [] pending_w in
      match w_requests with
      | [] =>
          apply_committed committed' pending pending_w (responses ++ [(s, StoreResponse c)])
      | w :: w_rest =>
          if negb (xid w =? xid c)
          then Throw (LogicErrorPendingWriteHead s (xid w) (xid c))
                 (committed', pending, pending_w, responses)
          else
            let '(requests, pending) := subscript s [] pending in
            match requests with
            | [] => Undefined
            | r :: r_rest =>
                if negb (xid r =? xid c)
                then Throw (LogicErrorPendingHead s (xid r) (xid c))
                       (committed', pending, pending_w, responses)
                else
                  let responses := responses ++ [(s, StoreResponse c)] in
                  let pending_w := erase_if_empty s w_rest (update s w_rest pending_w) in
                  let pending := erase_if_empty s r_rest (update s r_rest pending) in
                  apply_committed committed' pending pending_w responses
            end
      end
  end.

(** *** One iteration of [run3] *)

Definition need_wait (st : State) : bool :=
  match errors st, pending_requests st, requests_queue st, committed_queue st with
  | [], [], [], [] => true
  | _, _, _, _ => false
  end.

(** The part of the [try] block after the error phase. The sizes of the two
    queues are sampled first and the iteration is taken as one step, so
    every queued request and every queued commit is popped. *)
Definition process_queues (st : State) : Flow State :=
  let '(pending, pending_w) :=
    drain_requests (requests_queue st) (pending_requests st) (pending_write_requests st) in
  bind (serve_sessions pending pending_w (responses_queue st))
    (fun '(pending, pending_w, responses) =>
       bind (apply_committed (committed_queue st) pending pending_w responses)
         (fun '(committed, pending, pending_w, responses) =>
            Normal (mkState [] (shutdown_called st) responses committed
                      pending_w pending (errors st)))
         (fun '(committed, pending, pending_w, responses) =>
            mkState [] (shutdown_called st) responses committed
              pending_w pending (errors st)))
    (fun '(pending, pending_w, responses) =>
       mkState [] (shutdown_called st) responses (committed_queue st)
         pending_w pending (errors st)).

(** How one pass of the [while] loop ends. *)
Inductive Outcome :=
| Returned
| Waiting
| Completed
| Caught (e : Exception)
| UndefinedBehaviour.

Definition run3_iteration (st : State) : Outcome * State :=
  if shutdown_called st then (Returned, st)
  else if need_wait st then (Waiting, st)
  else
    match bind (drain_errors st) process_queues (fun st => st) with
    | Normal st' => (Completed, st')
    | Throw e st' => (Caught e, st')
    | Undefined => (UndefinedBehaviour, st)
    end.

(** *** The producers' entry points and [shutdown] *)

Definition processRequest (request_for_session : Request) (st : State) : State :=
  if negb (shutdown_called st) then
    mkState (requests_queue st ++ [request_for_session]) (shutdown_called st)
      (responses_queue st) (committed_queue st)
      (pending_write_requests st) (pending_requests st) (errors st)
  else st.

Definition commit (request : Request) (st : State) : State :=
  if negb (shutdown_called st) then
    mkState (requests_queue st) (shutdown_called st)
      (responses_queue st) (committed_queue st ++ [request])
      (pending_write_requests st) (pending_requests st) (errors st)
  else st.

(** [errors.emplace]: nothing changes when the key is present. Where a new
    key lands in the iteration order of a [std::unordered_map] is
    unspecified; the model puts it last. The entry an iteration handles is
    the head of the list, which stands for [errors.begin()]; with several
    entries in the map, which of them that is depends on the
    implementation. *)
Definition emplace {V : Type} (k : Z * Z) (v : V) (m : list ((Z * Z) * V)) : list ((Z * Z) * V) :=
  if existsb (fun e => (fst (fst e) =? fst k) && (snd (fst e) =? snd k)) m
  then m
  else m ++ [(k, v)].

Definition onError (session x : Z) (accepted : bool) (error_code : cmd_result_code)
  (st : State) : State :=
  if negb (shutdown_called st) then
    mkState (requests_queue st) (shutdown_called st)
      (responses_queue st) (committed_queue st)
      (pending_write_requests st) (pending_requests st)
      (emplace (to_uint64 session, to_uint64 x) (accepted, error_code) (errors st))
  else st.

Definition expired (request_for_session : Request) : ResponseForSession :=
  (session_id request_for_session, MadeResponse (xid request_for_session) 0 ZSESSIONEXPIRED).

(** [shutdown]: once the worker has been joined, the input queue is popped
    until it is empty. *)
Definition shutdown (st : State) : State :=
  if shutdown_called st then st
  else
    mkState [] true
      (responses_queue st ++ map expired (requests_queue st))
      (committed_queue st)
      (pending_write_requests st) (pending_requests st) (errors st).

(** *** Runs of the processor *)

Inductive Event :=
| ProcessRequest (request : Request)
| Commit (request : Request)
| OnError (session x : Z) (accepted : bool) (error_code : cmd_result_code)
| Iterate
| Shutdown.

(** One event; [None] when a worker iteration runs into undefined
    behaviour. *)
Definition step (st : State) (e : Event) : option State :=
  match e with
  | ProcessRequest r => Some (processRequest r st)
  | Commit r => Some (commit r st)
  | OnError s x a c => Some (onError s x a c st)
  | Iterate =>
      match run3_iteration st with
      | (UndefinedBehaviour, _) => None
      | (_, st') => Some st'
      end
  | Shutdown => Some (shutdown st)
  end.

Fixpoint run (events : list Event) (st : State) : option State :=
  match events with
  | [] => Some st
  | e :: events' =>
      match step st e with
      | Some st' => run events' st'
      | None => None
      end
  end.

End CommitProcessor.

(** ** Snapshot files: the other members of the batch body, the session
    and map serializers *)

Module SnapshotMore.
Import IO Checksum Snapshot.

(** [SnapshotBatchBody::size]. *)
Definition size (b : SnapshotBatchBody) : nat := length (elements b).

(** [SnapshotBatchBody::operator[]]: [elements.at(n)], which throws
    [std::out_of_range] ([None]) when [n] is not below the size. *)
Definition at_index (b : SnapshotBatchBody) (n : nat) : option (list byte) :=
  nth_error (elements b) n.

(** [toString(SnapshotVersion)]. *)
Definition toString (version : SnapshotVersion) : string :=
  match version with
  | V0 => "v0"
  | V1 => "v1"
  | V2 => "v2"
  | V3 => "v3"
  | VersionNone => "none"
  end.

(** Modelled from the spec: [Coordination::write] of the authentication
    principals of a session (ZooKeeper/ZooKeeperIO.h, not part of the source
    files): a 32-bit count, then for each principal its scheme and its id. *)
Record AuthID := mkAuthID {
  auth_scheme : list byte;
  auth_id : list byte
}.

Definition write_AuthID (a : AuthID) (buf : list byte) : list byte :=
  Coordination.write_string (auth_id a) (Coordination.write_string (auth_scheme a) buf).

Definition write_AuthIDs (ids : list AuthID) (buf : list byte) : list byte :=
  fold_left (fun buf a => write_AuthID a buf) ids
    (Coordination.write_int32 (Z.of_nat (length ids)) buf).

(** The fields of [KeeperStore] the session serializer reads; the two maps
    in iteration order. *)
Record KeeperStore := mkStore {
  session_and_timeout : list (Z * Z);
  session_and_auth : list (Z * list AuthID);
  session_id_counter : Z
}.

(** [store.session_and_auth.count(k)] and [.at(k)]. *)
Fixpoint auth_at (k : Z) (m : list (Z * list AuthID)) : option (list AuthID) :=
  match m with
  | [] => None
  | (k', ids) :: m' => if k' =? k then Some ids else auth_at k m'
  end.

Section Serializers.

(** The integers of three more enumerators of [SnapshotBatchType], and the
    [type] of a freshly constructed body, are parameters as before. *)
Variables SNAPSHOT_TYPE_SESSION SNAPSHOT_TYPE_STRINGMAP SNAPSHOT_TYPE_UINTMAP : Z.
Variable fresh_type : Z.

Definition session_record (store : KeeperStore) (session_it : Z * Z) : list byte :=
  let buf := Coordination.write_int64 (fst session_it) [] in
  let buf := Coordination.write_int64 (snd session_it) buf in
  let ids :=
    match auth_at (fst session_it) (session_and_auth store) with
    | Some ids => ids
    | None => []
    end in
  write_AuthIDs ids buf.

(** The body of the loop of [serializeSessionsV2] over the state
    [(out, batch, index, checksum)]. *)
Definition serializeSessionsV2_body (store : KeeperStore) (save_batch_size : Z)
  (st : list byte * option SnapshotBatchBody * Z * Z) (session_it : Z * Z)
  : option (list byte * option SnapshotBatchBody * Z * Z) :=
  let '(out, batch, index, checksum) := st in
  if save_batch_size =? 0 then None
  else
    let '(out, batch, checksum) :=
      if index mod save_batch_size =? 0 then
        let '(out, batch, checksum) :=
          if negb (index =? 0) then
            let '(out, batch, (_, new_checksum)) :=
              saveBatchAndUpdateCheckSumV2 fresh_type out batch checksum in
            (out, batch, new_checksum)
          else (out, batch, checksum) in
        (out, Some (mkBody SNAPSHOT_TYPE_SESSION []), checksum)
      else (out, batch, checksum) in
    match batch with
    | None => None
    | Some b =>
        Some (out, Some (add (session_record store session_it) b),
              (index + 1) mod 2 ^ 64, checksum)
    end.

(** [serializeSessionsV2]: the value returned and the content of the file
    written. *)
Definition serializeSessionsV2 (store : KeeperStore) (save_batch_size : Z)
  (version : SnapshotVersion) (path : string) : option (Z * list byte) :=
  let out := openFileAndWriteHeader version in
  let next_session_id := session_id_counter store in
  match for_each (serializeSessionsV2_body store save_batch_size)
          (session_and_timeout store) (out, None, 0, 0) with
  | None => None
  | Some (out, batch, index, checksum) =>
      let '(out, _, (_, new_checksum)) :=
        saveBatchAndUpdateCheckSumV2 fresh_type out batch checksum in
      Some (next_session_id, writeTailAndClose out new_checksum)
  end.

(** The template [serializeMapV2<T>]: [batch_type] is the tag its
    [if constexpr] chain selects for [T], [write_value] the overload of
    [Coordination::write] for the values of [T]. *)
Definition map_record {V : Type} (write_value : V -> list byte -> list byte)
  (it : list byte * V) : list byte :=
  write_value (snd it) (Coordination.write_string (fst it) []).

Definition serializeMapV2_body {V : Type} (batch_type : Z)
  (write_value : V -> list byte -> list byte) (save_batch_size : Z)
  (st : list byte * option SnapshotBatchBody * Z * Z) (it : list byte * V)
  : option (list byte * option SnapshotBatchBody * Z * Z) :=
  let '(out, batch, index, checksum) := st in
  if save_batch_size =? 0 then None
  else
    let '(out, batch, checksum) :=
      if index mod save_batch_size =? 0 then
        let '(out, batch, checksum) :=
          if negb (index =? 0) then
            let '(out, batch, (_, new_checksum)) :=
              saveBatchAndUpdateCheckSumV2 fresh_type out batch checksum in
            (out, batch, new_checksum)
          else (out, batch, checksum) in
        (out, Some (mkBody batch_type []), checksum)
      else (out, batch, checksum) in
    match batch with
    | None => None
    | Some b =>
        Some (out, Some (add (map_record write_value it) b),
              (index + 1) mod 2 ^ 64, checksum)
    end.

Definition serializeMapV2 {V : Type} (batch_type : Z)
  (write_value : V -> list byte -> list byte) (snap_map : list (list byte * V))
  (save_batch_size : Z) (version : SnapshotVersion) (path : string)
  : option (list byte) :=
  let out := openFileAndWriteHeader version in
  match for_each (serializeMapV2_body batch_type write_value save_batch_size)
          snap_map (out, None, 0, 0) with
  | None => None
  | Some (out, batch, index, checksum) =>
      let '(out, _, (_, new_checksum)) :=
        saveBatchAndUpdateCheckSumV2 fresh_type out batch checksum in
      Some (writeTailAndClose out new_checksum)
  end.

(** The two instantiations: [serializeMapV2<StringMap>] and
    [serializeMapV2<IntMap>]. *)
Definition serializeMapV2_StringMap :=
  serializeMapV2 SNAPSHOT_TYPE_STRINGMAP Coordination.write_string.

Definition serializeMapV2_IntMap :=
  serializeMapV2 SNAPSHOT_TYPE_UINTMAP Coordination.write_int64.

End Serializers.

End SnapshotMore.

(** * Notions the statements use *)

(** ** Snapshot files *)

Module SnapshotSpec.
Import IO Checksum Snapshot.

(** The encoding of one element: its length, then its bytes. *)
Definition element_image (element : list byte) : list byte :=
  le_bytes 4 (Z.of_nat (length element)) ++ element.

Definition small (element : list byte) : Prop := Z.of_nat (length element) < 2 ^ 31.

(** A body whose tag, count and element sizes fit an [int32_t]. *)
Definition representable (b : SnapshotBatchBody) : Prop :=
  in_int32 (type b)
  /\ Z.of_nat (length (elements b)) < 2 ^ 31
  /\ Forall small (elements b).

(** Inputs on which [parse] would have to read past the end: the two
    leading integers are cut short, or, after some complete elements and
    with the count not yet reached, the next length is cut short or
    announces more bytes than remain. *)
Inductive Overrun : list byte -> Prop :=
| overrun_header (data : list byte) :
    (length data < 8)%nat -> Overrun data
| overrun_element (ty count : Z) (els : list (list byte)) (rest : list byte) :
    in_int32 ty -> 0 <= count < 2 ^ 31 ->
    Forall small els ->
    Z.of_nat (length els) < count ->
    (length rest < 4)%nat \/
    (exists len tl, rest = le_bytes 4 len ++ tl /\ 0 <= len < 2 ^ 31
                    /\ Z.of_nat (length tl) < len) ->
    Overrun (le_bytes 4 ty ++ le_bytes 4 count
               ++ concat (map element_image els) ++ rest).

(** One batch on disk: [data_length], [data_crc], then the body. *)
Definition frame (b : SnapshotBatchBody) : list byte :=
  le_bytes 8 (Z.of_nat (length (serialize b)))
    ++ le_bytes 8 (getCRC32 (serialize b)) ++ serialize b.

Definition frames (bodies : list SnapshotBatchBody) : list byte :=
  concat (map frame bodies).

(** The running checksum folded over the batches in file order, from 0. *)
Definition file_checksum (bodies : list SnapshotBatchBody) (from : Z) : Z :=
  fold_left (fun c b => updateCheckSum c (getCRC32 (serialize b))) bodies from.

(** Records grouped [n] to a batch: the batches already full, and the one
    being filled. *)
Fixpoint group (n : nat) (full : list (list (list byte))) (cur : list (list byte))
  (records : list (list byte)) : list (list (list byte)) * list (list byte) :=
  match records with
  | [] => (full, cur)
  | r :: records' =>
      if (length cur =? n)%nat then group n (full ++ [cur]) [r] records'
      else group n full (cur ++ [r]) records'
  end.

(** The batches of a collection: none of them empty, unless the collection
    is, in which case the only batch is a freshly constructed one. *)
Definition batches (ty fresh_type : Z) (n : nat) (records : list (list byte))
  : list SnapshotBatchBody :=
  match records with
  | [] => [mkBody fresh_type []]
  | r :: records' =>
      let '(full, cur) := group n [] [r] records' in
      map (mkBody ty) (full ++ [cur])
  end.

Definition acl_world_anyone : Coordination.ACL :=
  Coordination.mkACL 31 (list_byte_of_string "world") (list_byte_of_string "anyone").

(** The body a flush writes for a batch pointer that is still null. *)
Definition empty_body (fresh : Z) : list byte := le_bytes 4 fresh ++ le_bytes 4 0.

End SnapshotSpec.

(** ** The commit processor *)

Module ProcessorSpec.
Import CommitProcessor.

(** A pending list without the first request of a given [xid]. *)
Fixpoint without (x : Z) (requests : list Request) : list Request :=
  match requests with
  | [] => []
  | q :: rest => if xid q =? x then rest else q :: without x rest
  end.

Fixpoint first_with (x : Z) (requests : list Request) : option Request :=
  match requests with
  | [] => None
  | q :: rest => if xid q =? x then Some q else first_with x rest
  end.

Definition two_queued : State :=
  processRequest (mkRequest 1 8 true) (processRequest (mkRequest 1 7 false) initial).

(** Scenario 6 of the specification: a write of session 5 with xid 100, an
    iteration, then a timeout reported for it. *)
Definition timeout_scenario : list Event :=
  [ProcessRequest (mkRequest 5 100 false); Iterate; OnError 5 100 true TIMEOUT].

Definition timeout_state : State :=
  mkState [] false [] [] [(5, [mkRequest 5 100 false])] [(5, [mkRequest 5 100 false])]
    [((to_uint64 5, to_uint64 100), (true, TIMEOUT))].

(** Two sessions, each with a write pending after the first iteration. *)
Definition two_writes : list Event :=
  [ProcessRequest (mkRequest 5 100 false); ProcessRequest (mkRequest 6 200 false); Iterate].

(** The pending list of a session: empty when the map has no such key. *)
Definition lookup (k : Z) (m : PendingMap) : list Request :=
  match find k m with
  | Some l => l
  | None => []
  end.

Definition keys (m : PendingMap) : list Z := map fst m.

(** Every request is filed under its own session. *)
Definition owned (m : PendingMap) : Prop :=
  Forall (fun e => Forall (fun r => session_id r = fst e) (snd e)) m.

Definition is_write (r : Request) : bool := negb (isReadRequest r).

(** The writes of a pending list, in order. *)
Definition writes (l : list Request) : list Request := filter is_write l.

(** Strictly increasing xids. *)
Definition increasing (l : list Request) : Prop := StronglySorted Z.lt (map xid l).

(** What the store pushes for a request it applies. *)
Definition stored (r : Request) : ResponseForSession := (session_id r, StoreResponse r).

(** The head may be served: it is a read, or its xid is below the xid at
    the head of the session's pending writes. *)
Definition may_serve (w_requests : list Request) (r : Request) : bool :=
  isReadRequest r
  || match w_requests with
     | [] => false
     | w :: _ => xid r <? xid w
     end.

Fixpoint take_while (p : Request -> bool) (l : list Request) : list Request :=
  match l with
  | [] => []
  | r :: rest => if p r then r :: take_while p rest else []
  end.

Fixpoint drop_while (p : Request -> bool) (l : list Request) : list Request :=
  match l with
  | [] => []
  | r :: rest => if p r then drop_while p rest else l
  end.

Definition nonempty (e : Z * list Request) : bool :=
  match snd e with
  | [] => false
  | _ => true
  end.

Definition remaining (pending_w : PendingMap) (e : Z * list Request) : Z * list Request :=
  (fst e, drop_while (may_serve (lookup (fst e) pending_w)) (snd e)).

Definition served (pending_w : PendingMap) (e : Z * list Request) : list ResponseForSession :=
  map stored (take_while (may_serve (lookup (fst e) pending_w)) (snd e)).

Definition R1 : Request := mkRequest 1 1 true.
Definition R2 : Request := mkRequest 1 2 true.
Definition W3 : Request := mkRequest 1 3 false.
Definition R4 : Request := mkRequest 1 4 true.

(** The submission sequence R1, R2, W3, R4 on one session. *)
Definition submitted : list Event :=
  [ProcessRequest R1; ProcessRequest R2; ProcessRequest W3; ProcessRequest R4].

(** The processor once the first iteration has served R1 and R2. *)
Definition waiting_for_W3 : State :=
  mkState [] false [stored R1; stored R2] [] [(1, [W3])] [(1, [W3; R4])] [].

(** The requests of a queue that belong to a session, in order. *)
Definition on (s : Z) (l : list Request) : list Request :=
  filter (fun r => session_id r =? s) l.

(** The responses pushed for a session, in order. *)
Definition responses_for (s : Z) (l : list ResponseForSession) : list ResponseForSession :=
  filter (fun p => fst p =? s) l.

(** No session has more pending writes than its pending list has writes. *)
Definition covered (pending pending_w : PendingMap) : Prop :=
  forall t, (length (lookup t pending_w) <= length (writes (lookup t pending)))%nat.

(** The state a pass through a block ends in, thrown or not. *)
Definition result {A : Type} (x : Flow A) : option A :=
  match x with
  | Normal a => Some a
  | Throw _ a => Some a
  | Undefined => None
  end.

Definition is_store (p : ResponseForSession) : Prop := exists r, snd p = StoreResponse r.

(** What holds of one session between events. [E] are the requests
    enqueued on it so far and [out] the xids of its writes whose commit has
    not been delivered yet; [P], [W] are its pending list and pending
    writes, [Q] and [C] its requests in the input queue and in the
    committed queue, [R] the responses pushed for it. The requests answered
    ([done]), pending and queued make up [E] in order; the writes not yet
    applied are those whose commit was dropped by a failed iteration
    ([lost]), those whose commit is queued, and those in [out]. *)
Definition session_ok (E : list Request) (out : list Z)
  (P W Q C : list Request) (R : list ResponseForSession) : Prop :=
  exists done lost,
    E = done ++ P ++ Q
    /\ map response_xid R = map xid done
    /\ Forall is_store R
    /\ W = writes P
    /\ map xid (writes (P ++ Q)) = lost ++ map xid C ++ out.

Definition maps_ok (pending pending_w : PendingMap) : Prop :=
  NoDup (keys pending) /\ NoDup (keys pending_w) /\ owned pending
  /\ covered pending pending_w.

Definition requests_of (e : Event) : list Request :=
  match e with
  | ProcessRequest r => [r]
  | _ => []
  end.

Definition commits_of (e : Event) : list Request :=
  match e with
  | Commit r => [r]
  | _ => []
  end.

(** The requests enqueued on a session by a run, and the commits delivered
    for it, in order. *)
Definition enqueued (s : Z) (events : list Event) : list Request :=
  on s (flat_map requests_of events).

Definition committed (s : Z) (events : list Event) : list Request :=
  on s (flat_map commits_of events).

Definition write_xids (s : Z) (events : list Event) : list Z :=
  map xid (writes (enqueued s events)).

(** The writes of the session that still wait for their commit. *)
Definition outstanding (s : Z) (events : list Event) : list Z :=
  skipn (length (committed s events)) (write_xids s events).

(** The events of a processor that runs and meets no commit error:
    requests, commits and worker iterations. *)
Definition running (e : Event) : Prop :=
  match e with
  | ProcessRequest _ | Commit _ | Iterate => True
  | OnError _ _ _ _ | Shutdown => False
  end.

(** The consensus layer commits the writes of the session, each after it
    was enqueued, in the order they were enqueued: at every point of the
    run the commits delivered are a prefix of the writes enqueued. *)
Definition commits_follow (s : Z) (events : list Event) : Prop :=
  forall before after, events = before ++ after ->
  exists rest, write_xids s before = map xid (committed s before) ++ rest.

Definition state_ok (s : Z) (events : list Event) (st : State) : Prop :=
  shutdown_called st = false
  /\ errors st = []
  /\ maps_ok (pending_requests st) (pending_write_requests st)
  /\ session_ok (enqueued s events) (outstanding s events)
       (lookup s (pending_requests st)) (lookup s (pending_write_requests st))
       (on s (requests_queue st)) (on s (committed_queue st))
       (responses_for s (responses_queue st)).




(** The requests of a session that are due once [n] of its writes are
    committed: every request before its write number [n + 1]. *)
Fixpoint through_commits (n : nat) (l : list Request) : list Request :=
  match l with
  | [] => []
  | r :: rest =>
      if isReadRequest r then r :: through_commits n rest
      else
        match n with
        | O => []
        | S n' => r :: through_commits n' rest
        end
  end.




(** A run on two sessions: session 1 submits a read, a write and a read,
    session 2 a write; the commits arrive in separate iterations. *)
Definition two_sessions : list Event :=
  [ProcessRequest (mkRequest 1 1 true); ProcessRequest (mkRequest 2 5 false);
   ProcessRequest (mkRequest 1 2 false); ProcessRequest (mkRequest 1 3 true);
   Iterate; Commit (mkRequest 1 2 false); Iterate;
   Commit (mkRequest 2 5 false); Iterate].

(** Two commits of one session found by the same iteration, with a read
    between the two writes: the second commit is popped, meets the read at
    the head of the pending list, and is dropped by the exception; the
    order of the responses holds, and the second write stays pending. *)
Definition two_commits : list Event :=
  [ProcessRequest (mkRequest 1 2 false); ProcessRequest (mkRequest 1 3 true);
   ProcessRequest (mkRequest 1 4 false); Iterate;
   Commit (mkRequest 1 2 false); Commit (mkRequest 1 4 false);
   Iterate; Iterate; Iterate].

End ProcessorSpec.

(** ** Snapshot files, continued *)

Module SnapshotMoreSpec.
Import IO Checksum Snapshot SnapshotMore SnapshotSpec.

(** A body with one two-byte element. *)
Definition body_ab : SnapshotBatchBody := mkBody 4 [list_byte_of_string "ab"].

(** The loop body the checksummed serializers share, for any record
    encoder and batch type. *)
Definition checked_body {A : Type} (ty fresh : Z) (record : A -> list byte)
  (save_batch_size : Z)
  (st : list byte * option SnapshotBatchBody * Z * Z) (a : A)
  : option (list byte * option SnapshotBatchBody * Z * Z) :=
  let '(out, batch, index, checksum) := st in
  if save_batch_size =? 0 then None
  else
    let '(out, batch, checksum) :=
      if index mod save_batch_size =? 0 then
        let '(out, batch, checksum) :=
          if negb (index =? 0) then
            let '(out, batch, (_, new_checksum)) :=
              saveBatchAndUpdateCheckSumV2 fresh out batch checksum in
            (out, batch, new_checksum)
          else (out, batch, checksum) in
        (out, Some (mkBody ty []), checksum)
      else (out, batch, checksum) in
    match batch with
    | None => None
    | Some b => Some (out, Some (add (record a) b), (index + 1) mod 2 ^ 64, checksum)
    end.

(** The header, the batches and the tail of a checksummed file. *)
Definition checked_file (version : SnapshotVersion) (bodies : list SnapshotBatchBody)
  : list byte :=
  MAGIC_SNAPSHOT_HEAD ++ le_bytes 1 (version_byte version)
    ++ frames bodies
    ++ MAGIC_SNAPSHOT_TAIL ++ le_bytes 4 (file_checksum bodies 0).

(** Three entries of an ACL map, with one, no and two ACLs. *)
Definition three_acls : ACLMap :=
  [(1, [acl_world_anyone]); (2, []); (3, [acl_world_anyone; acl_world_anyone])].

(** A store with two sessions, the second of them authenticated. *)
Definition two_sessions_store : KeeperStore :=
  mkStore [(7, 30000); (9, 10000)]
          [(9, [mkAuthID (list_byte_of_string "digest") (list_byte_of_string "u:p")])]
          10.

End SnapshotMoreSpec.

(** ** The commit processor, continued *)

Module ProcessorMoreSpec.
Import CommitProcessor ProcessorSpec.

(** What the processor keeps between events: the session keys of either
    pending map are distinct, every pending request is filed under its own
    session, and the keys of [errors] are distinct. *)
Definition filed (st : State) : Prop :=
  NoDup (keys (pending_requests st))
  /\ NoDup (keys (pending_write_requests st))
  /\ owned (pending_requests st)
  /\ owned (pending_write_requests st)
  /\ NoDup (map fst (errors st)).

(** The events that only fill the two queues: requests and commits. *)
Definition producer (e : Event) : Prop :=
  match e with
  | ProcessRequest _ | Commit _ => True
  | OnError _ _ _ _ | Iterate | Shutdown => False
  end.

(** An error entry at the front of [errors] whose session is pending but
    whose xid is not in the session's pending list. *)
Definition stuck (session x : Z) (st : State) : Prop :=
  shutdown_called st = false
  /\ (exists v rest, errors st = ((session, x), v) :: rest)
  /\ exists requests w_requests,
       find (to_int64 session) (pending_requests st) = Some requests
       /\ find (to_int64 session) (pending_write_requests st) = Some w_requests
       /\ fst (erase_xid x requests) = None.

(** A write of session 1 is pending, and an error is reported for an xid
    the session never used. *)
Definition unknown_xid_state : State :=
  mkState [] false [] [] [(1, [mkRequest 1 7 false])] [(1, [mkRequest 1 7 false])]
    [((1, 99), (true, TIMEOUT))].

(** The pending writes of every session are write requests. *)
Definition writes_only (st : State) : Prop :=
  forall s r, In r (lookup s (pending_write_requests st)) -> isReadRequest r = false.

(** A response answers a request of the run: what the store pushed is for a
    request that was submitted or committed, on that request's session; a
    response the processor made carries zxid 0 and the xid and session of a
    submitted request. *)
Definition answers_request (events : list Event) (p : ResponseForSession) : Prop :=
  match snd p with
  | StoreResponse r =>
      fst p = session_id r
      /\ (In r (flat_map requests_of events) \/ In r (flat_map commits_of events))
  | MadeResponse x z _ =>
      z = 0
      /\ exists r, In r (flat_map requests_of events) /\ fst p = session_id r /\ x = xid r
  end.

(** Every request the processor holds came in through an event of the run. *)
Definition traced (events : list Event) (st : State) : Prop :=
  (forall r, In r (requests_queue st) -> In r (flat_map requests_of events))
  /\ (forall t r, In r (lookup t (pending_requests st)) -> In r (flat_map requests_of events))
  /\ (forall r, In r (committed_queue st) -> In r (flat_map commits_of events))
  /\ Forall (answers_request events) (responses_queue st).

(** A write and a read behind it are pending on session 1, the commit of
    the write is queued; session 2 has a read in the input queue. *)
Definition commit_queued : State :=
  mkState [mkRequest 2 1 true] false [] [mkRequest 1 2 false]
    [(1, [mkRequest 1 2 false])] [(1, [mkRequest 1 2 false; mkRequest 1 3 true])] [].

(** A write and a read of session 1 reach the worker, a second read is
    still in the input queue when the processor is shut down. *)
Definition before_shutdown : list Event :=
  [ProcessRequest (mkRequest 1 2 false); ProcessRequest (mkRequest 1 3 true); Iterate;
   ProcessRequest (mkRequest 1 4 true)].

(** A run with every kind of event. *)
Definition mixed_run : list Event :=
  [ProcessRequest (mkRequest 1 2 false); ProcessRequest (mkRequest 2 1 true); Iterate;
   OnError 1 2 false OTHER; ProcessRequest (mkRequest 1 3 false); Iterate; Iterate;
   Commit (mkRequest 1 3 false); Iterate; ProcessRequest (mkRequest 2 2 true); Shutdown].

(** Session 1 has a write, a read and a second write pending, and the
    commits of both writes are in the committed queue. *)
Definition both_committed : State :=
  mkState [] false [] [mkRequest 1 2 false; mkRequest 1 4 false]
    [(1, [mkRequest 1 2 false; mkRequest 1 4 false])]
    [(1, [mkRequest 1 2 false; mkRequest 1 3 true; mkRequest 1 4 false])] [].

(** An idle worker that has served reads of sessions 3 and 4 before. *)
Definition idle_state : State :=
  mkState [] false [stored (mkRequest 3 1 true); stored (mkRequest 4 1 true)] []
    [(3, []); (4, [])] [] [].

(** Session 5 reads twice, session 6 writes; a commit of another server
    arrives for session 5. *)
Definition reads_of_5 : list Event :=
  [ProcessRequest (mkRequest 6 1 false); Iterate; Commit (mkRequest 6 1 false);
   ProcessRequest (mkRequest 5 2 true); Iterate; Commit (mkRequest 5 9 false); Iterate;
   OnError 6 7 true TIMEOUT].

End ProcessorMoreSpec.

(** * Properties *)

(** ** Little-endian images *)

Module IOFacts.
Import IO SnapshotSpec.

Lemma byte_of_to_Z (b : byte) : byte_of_Z (byte_to_Z b) = b.
Proof.
  unfold byte_of_Z, byte_to_Z.
  pose proof (Byte.to_N_bounded b) as Hb.
  rewrite Z.mod_small by lia.
  rewrite N2Z.id, Byte.of_to_N. reflexivity.
Qed.

Lemma byte_to_of_Z (z : Z) : byte_to_Z (byte_of_Z z) = z mod 256.
Proof.
  unfold byte_of_Z, byte_to_Z.
  pose proof (Z.mod_pos_bound z 256 ltac:(lia)) as Hz.
  destruct (Byte.of_N (Z.to_N (z mod 256))) as [b|] eqn:E.
  - apply Byte.to_of_N in E. rewrite E. lia.
  - exfalso.
    pose proof (Byte.to_of_N_option_map (Z.to_N (z mod 256))) as H.
    rewrite E in H. simpl in H.
    destruct (N.leb_spec (Z.to_N (z mod 256)) 255); [discriminate | lia].
Qed.

Lemma byte_to_Z_range (b : byte) : 0 <= byte_to_Z b < 256.
Proof. unfold byte_to_Z. pose proof (Byte.to_N_bounded b). lia. Qed.

Lemma byte_of_Z_mod (v w : Z) : v mod 256 = w mod 256 -> byte_of_Z v = byte_of_Z w.
Proof. unfold byte_of_Z. intros ->. reflexivity. Qed.

Lemma le_bytes_length (n : nat) (v : Z) : length (le_bytes n v) = n.
Proof. revert v. induction n as [|n IH]; intros v; simpl; [reflexivity | now rewrite IH]. Qed.

Lemma pow2_8S (n : nat) : 2 ^ (8 * Z.of_nat (S n)) = 256 * 2 ^ (8 * Z.of_nat n).
Proof.
  replace (8 * Z.of_nat (S n)) with (8 + 8 * Z.of_nat n) by lia.
  rewrite Z.pow_add_r by lia. reflexivity.
Qed.

Lemma pow2_8_pos (n : nat) : 0 < 2 ^ (8 * Z.of_nat n).
Proof. apply Z.pow_pos_nonneg; lia. Qed.

(** The image depends on the value modulo [2 ^ (8 n)] only. *)
Lemma le_bytes_congr (n : nat) : forall v w,
  v mod 2 ^ (8 * Z.of_nat n) = w mod 2 ^ (8 * Z.of_nat n) ->
  le_bytes n v = le_bytes n w.
Proof.
  induction n as [|n IH]; intros v w H; [reflexivity|].
  cbn [le_bytes].
  rewrite pow2_8S in H.
  pose proof (pow2_8_pos n) as Hp.
  rewrite !Z.rem_mul_r in H by lia.
  assert (Hlow : v mod 256 = w mod 256).
  { pose proof (Z.mod_pos_bound v 256 ltac:(lia)).
    pose proof (Z.mod_pos_bound w 256 ltac:(lia)).
    lia. }
  f_equal.
  - now apply byte_of_Z_mod.
  - apply IH. rewrite !Z.shiftr_div_pow2 by lia. change (2 ^ 8) with 256. lia.
Qed.

Lemma le_bytes_mod (n : nat) (v : Z) :
  le_bytes n (v mod 2 ^ (8 * Z.of_nat n)) = le_bytes n v.
Proof.
  apply le_bytes_congr. apply Z.mod_mod. pose proof (pow2_8_pos n). lia.
Qed.

Lemma le_bytes_app (n m : nat) : forall v,
  le_bytes (n + m) v = le_bytes n v ++ le_bytes m (Z.shiftr v (8 * Z.of_nat n)).
Proof.
  induction n as [|n IH]; intros v.
  - simpl. now rewrite Z.shiftr_0_r.
  - cbn [Nat.add le_bytes app]. rewrite IH. f_equal. f_equal.
    rewrite Z.shiftr_shiftr by lia.
    replace (8 + 8 * Z.of_nat n) with (8 * Z.of_nat (S n)) by lia. reflexivity.
Qed.

Lemma le_value_le_bytes (n : nat) : forall v,
  le_value (le_bytes n v) = v mod 2 ^ (8 * Z.of_nat n).
Proof.
  induction n as [|n IH]; intros v.
  - simpl. now rewrite Z.mod_1_r.
  - cbn [le_bytes le_value]. rewrite IH, byte_to_of_Z, pow2_8S.
    pose proof (pow2_8_pos n).
    rewrite Z.rem_mul_r by lia.
    rewrite Z.shiftr_div_pow2 by lia. reflexivity.
Qed.

Lemma to_int32_id (v : Z) : in_int32 v -> to_int32 v = v.
Proof.
  unfold in_int32, to_int32. intros H.
  destruct (Z_lt_le_dec v 0).
  - replace (v mod 2 ^ 32) with (v + 2 ^ 32).
    + destruct (Z.ltb_spec (v + 2 ^ 32) (2 ^ 31)); lia.
    + apply Z.mod_unique with (q := -1); lia.
  - rewrite Z.mod_small by lia.
    destruct (Z.ltb_spec v (2 ^ 31)); lia.
Qed.

Lemma to_int32_mod (v : Z) : to_int32 (v mod 2 ^ 32) = to_int32 v.
Proof. unfold to_int32. rewrite Z.mod_mod by lia. reflexivity. Qed.

Lemma to_int32_range (v : Z) : in_int32 (to_int32 v).
Proof.
  unfold in_int32, to_int32.
  pose proof (Z.mod_pos_bound v (2 ^ 32) ltac:(lia)).
  destruct (Z.ltb_spec (v mod 2 ^ 32) (2 ^ 31)); lia.
Qed.

Lemma readStrict_app (n : nat) (s rest : list byte) :
  length s = n -> readStrict n (s ++ rest) = Some (s, rest).
Proof.
  intros <-. unfold readStrict. rewrite length_app.
  replace (length s <=? length s + length rest)%nat with true
    by (symmetry; apply Nat.leb_le; lia).
  rewrite firstn_app, skipn_app, Nat.sub_diag, firstn_all, skipn_all.
  cbn [firstn skipn app]. now rewrite app_nil_r.
Qed.

(** Writing an [int32_t] and reading it back. *)
Lemma readInt32_le_bytes (v : Z) (rest : list byte) :
  in_int32 v -> readInt32 (le_bytes 4 v ++ rest) = Some (v, rest).
Proof.
  intros Hv. unfold readInt32.
  rewrite readStrict_app by apply le_bytes_length.
  rewrite le_value_le_bytes.
  change (2 ^ (8 * Z.of_nat 4)) with (2 ^ 32).
  rewrite to_int32_mod, to_int32_id by assumption. reflexivity.
Qed.

Lemma readStrict_short (n : nat) (input : list byte) :
  (length input < n)%nat -> readStrict n input = None.
Proof.
  unfold readStrict. intros H.
  destruct (Nat.leb_spec n (length input)); [lia | reflexivity].
Qed.

Lemma readStrict_Some (n : nat) (input bs rest : list byte) :
  readStrict n input = Some (bs, rest) -> input = bs ++ rest /\ length bs = n.
Proof.
  unfold readStrict.
  destruct (Nat.leb_spec n (length input)) as [H|H]; [|discriminate].
  intros [= <- <-]. split.
  - symmetry. apply firstn_skipn.
  - apply firstn_length_le. exact H.
Qed.

End IOFacts.

(** ** The running checksum *)

Module ChecksumFacts.
Import IO Checksum IOFacts SnapshotSpec.

Lemma union_low (c0 c1 : Z) :
  0 <= c0 < 2 ^ 32 -> 0 <= c1 ->
  Z.lor c0 (Z.shiftl c1 32) mod 2 ^ 32 = c0.
Proof.
  intros H0 H1.
  rewrite <- Z.land_ones by lia.
  rewrite Z.land_lor_distr_l.
  rewrite !Z.land_ones by lia.
  rewrite Z.shiftl_mul_pow2 by lia.
  rewrite Z.mod_mul by lia.
  rewrite Z.lor_0_r. apply Z.mod_small. lia.
Qed.

Lemma union_high (c0 c1 : Z) :
  0 <= c0 < 2 ^ 32 -> 0 <= c1 ->
  Z.shiftr (Z.lor c0 (Z.shiftl c1 32)) 32 = c1.
Proof.
  intros H0 H1.
  rewrite Z.shiftr_lor, Z.shiftr_shiftl_l by lia.
  rewrite Z.sub_diag, Z.shiftl_0_r.
  rewrite Z.shiftr_div_pow2 by lia.
  rewrite Z.div_small by lia. apply Z.lor_0_l.
Qed.

End ChecksumFacts.

(** ** The batch body codec *)

Module CodecFacts.
Import IO Checksum Snapshot IOFacts SnapshotSpec.

Lemma le_bytes_to_int32 (v : Z) : le_bytes 4 (to_int32 v) = le_bytes 4 v.
Proof.
  apply le_bytes_congr. change (2 ^ (8 * Z.of_nat 4)) with (2 ^ 32).
  unfold to_int32.
  destruct (Z.ltb_spec (v mod 2 ^ 32) (2 ^ 31)).
  - apply Z.mod_mod. lia.
  - rewrite Zminus_mod, Z_mod_same_full, Z.sub_0_r, !Z.mod_mod by lia. reflexivity.
Qed.

Lemma serialize_elements (els : list (list byte)) : forall buf,
  fold_left serialize_element els buf = buf ++ concat (map element_image els).
Proof.
  induction els as [|e els IH]; intros buf; cbn [fold_left map concat].
  - now rewrite app_nil_r.
  - rewrite IH. unfold serialize_element, writeString, writeIntBinary, element_image.
    rewrite le_bytes_to_int32, <- !app_assoc. reflexivity.
Qed.

(** The layout [type | count | (len | bytes)*]. *)
Lemma serialize_layout (b : SnapshotBatchBody) :
  serialize b =
  le_bytes 4 (type b) ++ le_bytes 4 (Z.of_nat (length (elements b)))
    ++ concat (map element_image (elements b)).
Proof.
  unfold serialize, writeIntBinary. rewrite serialize_elements.
  rewrite !le_bytes_to_int32, <- app_assoc. reflexivity.
Qed.

Lemma parse_elements_images (els : list (list byte)) : forall rest acc,
  Forall small els ->
  parse_elements (length els) (concat (map element_image els) ++ rest) acc
  = inr (acc ++ els).
Proof.
  induction els as [|e els IH]; intros rest acc Hs; cbn [length parse_elements map concat].
  - now rewrite app_nil_r.
  - inversion Hs as [|? ? He Hs']; subst. unfold small in He.
    unfold element_image. rewrite <- !app_assoc.
    rewrite readInt32_le_bytes by (unfold in_int32; lia).
    destruct (Z.ltb_spec (Z.of_nat (length e)) 0); [lia|].
    rewrite Nat2Z.id, readStrict_app by reflexivity.
    rewrite IH by assumption. now rewrite <- app_assoc.
Qed.

(** Reading stops with an error where the input is too short for the next
    element. *)
Lemma parse_elements_overrun (els : list (list byte)) : forall n rest acc,
  Forall small els ->
  (length els < n)%nat ->
  (length rest < 4)%nat \/
  (exists len tl, rest = le_bytes 4 len ++ tl /\ 0 <= len < 2 ^ 31
                  /\ Z.of_nat (length tl) < len) ->
  parse_elements n (concat (map element_image els) ++ rest) acc
  = inl CANNOT_READ_ALL_DATA.
Proof.
  induction els as [|e els IH]; intros n rest acc Hs Hn Hrest.
  - destruct n as [|n]; [simpl in Hn; lia|].
    cbn [map concat app parse_elements].
    destruct Hrest as [Hshort | (len & tl & -> & Hlen & Htl)].
    + unfold readInt32. now rewrite readStrict_short.
    + rewrite readInt32_le_bytes by (unfold in_int32; lia).
      destruct (Z.ltb_spec len 0); [lia|].
      rewrite readStrict_short by lia. reflexivity.
  - destruct n as [|n]; [simpl in Hn; lia|].
    inversion Hs as [|? ? He Hs']; subst. unfold small in He.
    cbn [map concat parse_elements]. unfold element_image at 1.
    rewrite <- !app_assoc.
    rewrite readInt32_le_bytes by (unfold in_int32; lia).
    destruct (Z.ltb_spec (Z.of_nat (length e)) 0); [lia|].
    rewrite Nat2Z.id, readStrict_app by reflexivity.
    apply IH; [assumption | simpl in Hn; lia | assumption].
Qed.

Lemma parse_serialize_app (b : SnapshotBatchBody) (rest : list byte) :
  representable b -> parse (serialize b ++ rest) = inr b.
Proof.
  intros (Hty & Hn & Hs). unfold parse.
  rewrite serialize_layout, <- !app_assoc.
  rewrite readInt32_le_bytes by assumption.
  rewrite readInt32_le_bytes by (unfold in_int32; lia).
  destruct (Z.ltb_spec (Z.of_nat (length (elements b))) 0); [lia|].
  rewrite Nat2Z.id, parse_elements_images by assumption.
  destruct b; reflexivity.
Qed.

Lemma readInt32_Some (input rest : list byte) (v : Z) :
  readInt32 input = Some (v, rest) -> length input = (4 + length rest)%nat.
Proof.
  unfold readInt32.
  destruct (readStrict 4 input) as [[bs r]|] eqn:E; [|discriminate].
  intros [= _ <-]. apply readStrict_Some in E as [-> Hl].
  rewrite length_app. lia.
Qed.

Lemma le_bytes_le_value (bs : list byte) : le_bytes (length bs) (le_value bs) = bs.
Proof.
  induction bs as [|b bs IH]; [reflexivity|].
  cbn [length le_value le_bytes].
  pose proof (byte_to_Z_range b) as Hb.
  f_equal.
  - rewrite <- (byte_of_to_Z b) at 2. apply byte_of_Z_mod.
    rewrite Z.mul_comm. apply Z.mod_add. lia.
  - rewrite Z.shiftr_div_pow2 by lia. change (2 ^ 8) with 256.
    replace ((byte_to_Z b + 256 * le_value bs) / 256) with (le_value bs); [exact IH|].
    rewrite Z.mul_comm, Z.div_add by lia.
    rewrite Z.div_small by lia. lia.
Qed.

(** What was read as an [int32_t] stood at the front of the input. *)
Lemma readInt32_inv (input rest : list byte) (v : Z) :
  readInt32 input = Some (v, rest) -> input = le_bytes 4 v ++ rest /\ in_int32 v.
Proof.
  unfold readInt32.
  destruct (readStrict 4 input) as [[bs r]|] eqn:E; [|discriminate].
  intros [= <- <-]. apply readStrict_Some in E as [-> Hl].
  split; [|apply to_int32_range].
  rewrite le_bytes_to_int32, <- Hl, le_bytes_le_value. reflexivity.
Qed.

Lemma parse_elements_inv (n : nat) : forall input acc els,
  parse_elements n input acc = inr els ->
  exists new rest,
    els = acc ++ new
    /\ input = concat (map element_image new) ++ rest
    /\ length new = n
    /\ Forall small new.
Proof.
  induction n as [|n IH]; intros input acc els H; cbn [parse_elements] in H.
  - injection H as <-. exists [], input. rewrite app_nil_r. repeat split; constructor.
  - destruct (readInt32 input) as [[sz input1]|] eqn:E1; [|discriminate].
    apply readInt32_inv in E1 as [-> Hsz].
    destruct (Z.ltb_spec sz 0) as [|Hpos]; [discriminate|].
    destruct (readStrict (Z.to_nat sz) input1) as [[e input2]|] eqn:E2; [|discriminate].
    apply readStrict_Some in E2 as [-> Hl].
    apply IH in H as (new & rest & -> & -> & Hn & Hs).
    exists (e :: new), rest.
    assert (He : Z.of_nat (length e) = sz) by lia.
    split; [now rewrite <- app_assoc|]. split; [|split].
    + cbn [map concat].
      change (element_image e) with (le_bytes 4 (Z.of_nat (length e)) ++ e).
      rewrite He, <- !app_assoc. reflexivity.
    + cbn [length]. now rewrite Hn.
    + constructor; [|assumption]. unfold small, in_int32 in *. lia.
Qed.

(** A body is returned only for an input that starts with the complete
    encoding of that body. *)
Lemma parse_inv (data : list byte) (b : SnapshotBatchBody) :
  parse data = inr b -> representable b /\ exists rest, data = serialize b ++ rest.
Proof.
  unfold parse. intros H.
  destruct (readInt32 data) as [[ty input]|] eqn:E1; [|discriminate].
  apply readInt32_inv in E1 as [-> Hty].
  destruct (readInt32 input) as [[count input1]|] eqn:E2; [|discriminate].
  apply readInt32_inv in E2 as [-> Hc].
  destruct (Z.ltb_spec count 0) as [|Hpos]; [discriminate|].
  destruct (parse_elements (Z.to_nat count) input1 []) as [e|els] eqn:E3; [discriminate|].
  injection H as <-.
  apply parse_elements_inv in E3 as (new & rest & -> & -> & Hn & Hs).
  cbn [app] in *.
  assert (Hcount : Z.of_nat (length new) = count) by lia.
  split.
  - unfold representable, in_int32 in *. cbn [type elements]. repeat split; try assumption; lia.
  - exists rest. rewrite serialize_layout. cbn [type elements].
    rewrite Hcount, <- !app_assoc. reflexivity.
Qed.

(** C7: for every batch body whose tag, element count and element sizes are
    representable as [int32_t], parsing its serialized form gives the body
    back: the same type and the same elements in the same order. *)
Theorem parse_serialize (b : SnapshotBatchBody) :
  representable b -> parse (serialize b) = inr b.
Proof.
  intros H. rewrite <- (app_nil_r (serialize b)).
  now apply parse_serialize_app.
Qed.

Lemma parse_serialize_witness :
  parse (serialize (mkBody 7 [list_byte_of_string "ab"; []; list_byte_of_string "/zk/node"]))
  = inr (mkBody 7 [list_byte_of_string "ab"; []; list_byte_of_string "/zk/node"]).
Proof.
  apply parse_serialize.
  unfold representable, in_int32, small; cbn [type elements length].
  split; [lia|]. split; [reflexivity|].
  repeat constructor.
Defined.

(** C8: on every input where the element count or a decoded element length
    asks for bytes past the end of the input, [parse] fails (it throws the
    read helpers' exception) instead of returning a batch body; and
    whenever [parse] does return a body, the input starts with the
    complete encoding of that body, so no body is ever made from bytes
    that are not there. *)
Theorem parse_overrun :
  (forall data : list byte, Overrun data -> parse data = inl CANNOT_READ_ALL_DATA)
  /\ (forall (data : list byte) (b : SnapshotBatchBody),
        parse data = inr b -> exists rest, data = serialize b ++ rest).
Proof.
  split.
  - intros data [d Hd | ty count els rest Hty Hc Hs Hn Hrest]; unfold parse.
    + destruct (readInt32 d) as [[ty input]|] eqn:E1; [|reflexivity].
      destruct (readInt32 input) as [[count input']|] eqn:E2; [|reflexivity].
      apply readInt32_Some in E1, E2. lia.
    + rewrite readInt32_le_bytes by assumption.
      rewrite readInt32_le_bytes by (unfold in_int32; lia).
      destruct (Z.ltb_spec count 0); [lia|].
      rewrite parse_elements_overrun; [reflexivity | assumption | lia | assumption].
  - intros data b H. now apply parse_inv in H.
Qed.

Lemma parse_overrun_witness :
  parse (le_bytes 4 1 ++ le_bytes 4 2
           ++ concat (map element_image [list_byte_of_string "ab"])
           ++ (le_bytes 4 5 ++ list_byte_of_string "xyz"))
  = inl CANNOT_READ_ALL_DATA.
Proof.
  apply (proj1 parse_overrun).
  apply overrun_element.
  - unfold in_int32. lia.
  - lia.
  - repeat constructor.
  - reflexivity.
  - right. exists 5, (list_byte_of_string "xyz").
    split; [reflexivity|]. split; [lia | reflexivity].
Defined.

End CodecFacts.

(** ** The file a serializer writes *)

Module SerializerFacts.
Import IO Checksum Snapshot IOFacts ChecksumFacts CodecFacts SnapshotSpec.

Lemma frames_app (a b : list SnapshotBatchBody) : frames (a ++ b) = frames a ++ frames b.
Proof. unfold frames. now rewrite map_app, concat_app. Qed.

Lemma file_checksum_app (a b : list SnapshotBatchBody) (c : Z) :
  file_checksum (a ++ b) c = file_checksum b (file_checksum a c).
Proof. unfold file_checksum. apply fold_left_app. Qed.

Lemma frames_snoc (l : list SnapshotBatchBody) (b : SnapshotBatchBody) :
  frames (l ++ [b]) = frames l ++ frame b.
Proof. rewrite frames_app. unfold frames. cbn [map concat]. now rewrite app_nil_r. Qed.

Lemma file_checksum_snoc (l : list SnapshotBatchBody) (b : SnapshotBatchBody) (c : Z) :
  file_checksum (l ++ [b]) c = updateCheckSum (file_checksum l c) (getCRC32 (serialize b)).
Proof. now rewrite file_checksum_app. Qed.

Section Loops.
Variables SNAPSHOT_TYPE_ACLMAP SNAPSHOT_TYPE_DATA_EPHEMERAL fresh_type : Z.

Lemma saveBatchV2_frame (out : list byte) (b : SnapshotBatchBody) :
  saveBatchV2 fresh_type out (Some b)
  = (out ++ frame b, Some b,
     (HEADER_SIZE + Z.of_nat (length (serialize b)), getCRC32 (serialize b))).
Proof.
  unfold saveBatchV2, writeIntBinary, frame. now rewrite <- !app_assoc.
Qed.

Lemma saveBatchV2_null (out : list byte) :
  saveBatchV2 fresh_type out None
  = saveBatchV2 fresh_type out (Some (mkBody fresh_type [])).
Proof. reflexivity. Qed.

(** Whether the loop flushes, read off the batch being filled. *)
Lemma flush_test (n : nat) (k : Z) (cur : list (list byte)) :
  (0 < n)%nat -> (1 <= length cur <= n)%nat ->
  k mod Z.of_nat n = Z.of_nat (length cur) mod Z.of_nat n ->
  (k mod Z.of_nat n =? 0) = (length cur =? n)%nat.
Proof.
  intros Hn Hc Hk. rewrite Hk.
  destruct (Nat.eqb_spec (length cur) n) as [->|Hne].
  - rewrite Z_mod_same_full. reflexivity.
  - rewrite Z.mod_small by lia. apply Z.eqb_neq. lia.
Qed.

Lemma next_index (n : nat) (k : Z) (cur : list (list byte)) (flushed : bool) :
  (0 < n)%nat -> (1 <= length cur <= n)%nat ->
  k mod Z.of_nat n = Z.of_nat (length cur) mod Z.of_nat n ->
  flushed = (length cur =? n)%nat ->
  (k + 1) mod Z.of_nat n
  = Z.of_nat (if flushed then 1 else S (length cur)) mod Z.of_nat n.
Proof.
  intros Hn Hc Hk ->.
  rewrite Z.add_mod, Hk by lia.
  destruct (Nat.eqb_spec (length cur) n) as [->|Hne].
  - rewrite Z_mod_same_full, Z.add_0_l, Z.mod_mod by lia. reflexivity.
  - rewrite <- Z.add_mod by lia. f_equal. lia.
Qed.

(** The loop of [serializeAclsV2], from a state in which some batch is being
    filled. *)
Lemma serializeAclsV2_loop (n : nat) (out0 : list byte) (c0 : Z) (Hn : (0 < n)%nat) :
  forall (acls : ACLMap) full cur k,
  (1 <= length cur <= n)%nat ->
  1 <= k -> k + Z.of_nat (length acls) < 2 ^ 64 ->
  k mod Z.of_nat n = Z.of_nat (length cur) mod Z.of_nat n ->
  for_each (serializeAclsV2_body SNAPSHOT_TYPE_ACLMAP fresh_type (Z.of_nat n)) acls
    (out0 ++ frames (map (mkBody SNAPSHOT_TYPE_ACLMAP) full),
     Some (mkBody SNAPSHOT_TYPE_ACLMAP cur), k,
     file_checksum (map (mkBody SNAPSHOT_TYPE_ACLMAP) full) c0)
  = let '(full', cur') := group n full cur (map acl_record acls) in
    Some (out0 ++ frames (map (mkBody SNAPSHOT_TYPE_ACLMAP) full'),
          Some (mkBody SNAPSHOT_TYPE_ACLMAP cur'), k + Z.of_nat (length acls),
          file_checksum (map (mkBody SNAPSHOT_TYPE_ACLMAP) full') c0).
Proof.
  induction acls as [|a acls IH]; intros full cur k Hc Hk Hb Hm.
  - cbn [for_each map group length]. now rewrite Z.add_0_r.
  - cbn [for_each map group]. cbn [length] in Hb.
    unfold serializeAclsV2_body at 1.
    destruct (Z.eqb_spec (Z.of_nat n) 0) as [Hz|_]; [lia|].
    rewrite (flush_test n k cur Hn Hc Hm).
    pose proof (next_index n k cur _ Hn Hc Hm eq_refl) as Hnext.
    replace ((k + 1) mod 2 ^ 64) with (k + 1) by (symmetry; apply Z.mod_small; lia).
    replace (k + Z.of_nat (length (a :: acls))) with (k + 1 + Z.of_nat (length acls))
      by (cbn [length]; lia).
    destruct (Nat.eqb_spec (length cur) n) as [He|Hne].
    + destruct (Z.eqb_spec k 0) as [Hk0|_]; [lia|]. cbn [negb].
      unfold saveBatchAndUpdateCheckSumV2. rewrite saveBatchV2_frame.
      unfold add. cbn [type elements app].
      specialize (IH (full ++ [cur]) [acl_record a] (k + 1)).
      rewrite map_app in IH. cbn [map] in IH.
      rewrite frames_snoc, file_checksum_snoc, app_assoc in IH.
      rewrite IH; [| cbn [length]; lia | lia | lia | exact Hnext].
      destruct (group n (full ++ [cur]) [acl_record a] (map acl_record acls)).
      reflexivity.
    + unfold add. cbn [type elements].
      rewrite (IH full (cur ++ [acl_record a]) (k + 1));
        [| rewrite length_app; cbn [length]; lia | lia | lia
         | rewrite length_app; cbn [length];
           replace (length cur + 1)%nat with (S (length cur)) by lia; exact Hnext].
      destruct (group n full (cur ++ [acl_record a]) (map acl_record acls)).
      reflexivity.
Qed.

(** The loop of [serializeEphemeralsV2], likewise; no checksum is kept. *)
Lemma serializeEphemeralsV2_loop (n : nat) (out0 : list byte) (Hn : (0 < n)%nat) :
  forall (ephemerals : Ephemerals) full cur k,
  (1 <= length cur <= n)%nat ->
  1 <= k -> k + Z.of_nat (length ephemerals) < 2 ^ 64 ->
  k mod Z.of_nat n = Z.of_nat (length cur) mod Z.of_nat n ->
  for_each (serializeEphemeralsV2_body SNAPSHOT_TYPE_DATA_EPHEMERAL fresh_type (Z.of_nat n))
    ephemerals
    (out0 ++ frames (map (mkBody SNAPSHOT_TYPE_DATA_EPHEMERAL) full),
     Some (mkBody SNAPSHOT_TYPE_DATA_EPHEMERAL cur), k)
  = let '(full', cur') := group n full cur (map ephemeral_record ephemerals) in
    Some (out0 ++ frames (map (mkBody SNAPSHOT_TYPE_DATA_EPHEMERAL) full'),
          Some (mkBody SNAPSHOT_TYPE_DATA_EPHEMERAL cur'),
          k + Z.of_nat (length ephemerals)).
Proof.
  induction ephemerals as [|a l IH]; intros full cur k Hc Hk Hb Hm.
  - cbn [for_each map group length]. now rewrite Z.add_0_r.
  - cbn [for_each map group]. cbn [length] in Hb.
    unfold serializeEphemeralsV2_body at 1.
    destruct (Z.eqb_spec (Z.of_nat n) 0) as [Hz|_]; [lia|].
    rewrite (flush_test n k cur Hn Hc Hm).
    pose proof (next_index n k cur _ Hn Hc Hm eq_refl) as Hnext.
    replace ((k + 1) mod 2 ^ 64) with (k + 1) by (symmetry; apply Z.mod_small; lia).
    replace (k + Z.of_nat (length (a :: l))) with (k + 1 + Z.of_nat (length l))
      by (cbn [length]; lia).
    destruct (Nat.eqb_spec (length cur) n) as [He|Hne].
    + destruct (Z.eqb_spec k 0) as [Hk0|_]; [lia|]. cbn [negb].
      rewrite saveBatchV2_frame.
      unfold add. cbn [type elements app].
      specialize (IH (full ++ [cur]) [ephemeral_record a] (k + 1)).
      rewrite map_app in IH. cbn [map] in IH.
      rewrite frames_snoc, app_assoc in IH.
      rewrite IH; [| cbn [length]; lia | lia | lia | exact Hnext].
      destruct (group n (full ++ [cur]) [ephemeral_record a] (map ephemeral_record l)).
      reflexivity.
    + unfold add. cbn [type elements].
      rewrite (IH full (cur ++ [ephemeral_record a]) (k + 1));
        [| rewrite length_app; cbn [length]; lia | lia | lia
         | rewrite length_app; cbn [length];
           replace (length cur + 1)%nat with (S (length cur)) by lia; exact Hnext].
      destruct (group n full (cur ++ [ephemeral_record a]) (map ephemeral_record l)).
      reflexivity.
Qed.

(** The file [serializeAclsV2] writes: head magic, version byte, the
    batches, tail magic, and the running checksum folded from 0. *)
Lemma serializeAclsV2_layout (acls : ACLMap) (path : string) (save_batch_size : Z)
  (version : SnapshotVersion) :
  0 < save_batch_size -> Z.of_nat (length acls) < 2 ^ 64 ->
  let bodies := batches SNAPSHOT_TYPE_ACLMAP fresh_type (Z.to_nat save_batch_size)
                  (map acl_record acls) in
  serializeAclsV2 SNAPSHOT_TYPE_ACLMAP fresh_type acls path save_batch_size version
  = Some (MAGIC_SNAPSHOT_HEAD ++ le_bytes 1 (version_byte version)
            ++ frames bodies
            ++ MAGIC_SNAPSHOT_TAIL ++ le_bytes 4 (file_checksum bodies 0)).
Proof.
  intros Hs Hl bodies. subst bodies. unfold serializeAclsV2.
  set (out0 := openFileAndWriteHeader version).
  assert (Hout : out0 = MAGIC_SNAPSHOT_HEAD ++ le_bytes 1 (version_byte version))
    by reflexivity.
  destruct acls as [|a acls].
  - cbn [for_each map batches].
    unfold saveBatchAndUpdateCheckSumV2. rewrite saveBatchV2_null, saveBatchV2_frame.
    unfold writeTailAndClose, writeIntBinary.
    rewrite Hout. unfold frames, file_checksum. cbn [map concat fold_left].
    rewrite app_nil_r, <- !app_assoc. reflexivity.
  - cbn [for_each map batches]. cbn [length] in Hl.
    unfold serializeAclsV2_body at 1.
    destruct (Z.eqb_spec save_batch_size 0) as [Hz|_]; [lia|].
    rewrite Zmod_0_l. cbn [Z.eqb negb]. unfold add. cbn [type elements app].
    change ((0 + 1) mod 2 ^ 64) with 1.
    pose proof (serializeAclsV2_loop (Z.to_nat save_batch_size) out0 0 ltac:(lia)
                  acls [] [acl_record a] 1) as H.
    rewrite Z2Nat.id in H by lia.
    cbn [map] in H. change (frames []) with (@nil byte) in H.
    change (file_checksum [] 0) with 0 in H. rewrite app_nil_r in H.
    rewrite H; [| cbn [length]; lia | lia | lia | reflexivity].
    destruct (group (Z.to_nat save_batch_size) [] [acl_record a] (map acl_record acls))
      as [full cur].
    unfold saveBatchAndUpdateCheckSumV2. rewrite saveBatchV2_frame.
    unfold writeTailAndClose, writeIntBinary.
    rewrite map_app. cbn [map]. rewrite frames_snoc, file_checksum_snoc.
    rewrite Hout, <- !app_assoc. reflexivity.
Qed.

(** The file [serializeEphemeralsV2] writes for an index that is not empty:
    the batches and nothing else. *)
Lemma serializeEphemeralsV2_layout (ephemerals : Ephemerals) (path : string)
  (save_batch_size : Z) :
  ephemerals <> [] ->
  0 < save_batch_size -> Z.of_nat (length ephemerals) < 2 ^ 64 ->
  serializeEphemeralsV2 SNAPSHOT_TYPE_DATA_EPHEMERAL fresh_type ephemerals path save_batch_size
  = Some (Some (frames (batches SNAPSHOT_TYPE_DATA_EPHEMERAL fresh_type
                          (Z.to_nat save_batch_size) (map ephemeral_record ephemerals))),
          1).
Proof.
  intros Hne Hs Hl. destruct ephemerals as [|a l]; [congruence|].
  unfold serializeEphemeralsV2. cbn [for_each map batches]. cbn [length] in Hl.
  unfold serializeEphemeralsV2_body at 1.
  destruct (Z.eqb_spec save_batch_size 0) as [Hz|_]; [lia|].
  rewrite Zmod_0_l. cbn [Z.eqb negb]. unfold add. cbn [type elements app].
  change ((0 + 1) mod 2 ^ 64) with 1.
  pose proof (serializeEphemeralsV2_loop (Z.to_nat save_batch_size) [] ltac:(lia)
                l [] [ephemeral_record a] 1) as H.
  rewrite Z2Nat.id in H by lia.
  cbn [map] in H. change (frames []) with (@nil byte) in H. cbn [app] in H.
  rewrite H; [| cbn [length]; lia | lia | lia | reflexivity].
  destruct (group (Z.to_nat save_batch_size) [] [ephemeral_record a] (map ephemeral_record l))
    as [full cur].
  rewrite saveBatchV2_frame.
  rewrite map_app. cbn [map]. rewrite frames_snoc. reflexivity.
Qed.

End Loops.

End SerializerFacts.

(** ** Claims on the snapshot files *)

Module SnapshotClaims.
Import IO Checksum Snapshot IOFacts ChecksumFacts CodecFacts SerializerFacts SnapshotSpec.

(** The grouping is the expected one: the records in order, every full
    batch of [n] records, the last batch of between 1 and [n]. *)
Lemma group_spec (n : nat) : forall records full cur full' cur',
  (1 <= length cur <= n)%nat ->
  Forall (fun b => length b = n) full ->
  group n full cur records = (full', cur') ->
  concat full' ++ cur' = concat full ++ cur ++ records
  /\ Forall (fun b => length b = n) full'
  /\ (1 <= length cur' <= n)%nat.
Proof.
  induction records as [|r records IH]; intros full cur full' cur' Hc Hf H.
  - cbn [group] in H. injection H as <- <-. now rewrite app_nil_r.
  - cbn [group] in H.
    destruct (Nat.eqb_spec (length cur) n) as [He|Hne].
    + apply IH in H as (H1 & H2 & H3).
      * split; [|now split]. rewrite H1, concat_app. cbn [concat].
        rewrite app_nil_r, <- !app_assoc. reflexivity.
      * cbn [length]. lia.
      * apply Forall_app. split; [assumption | now constructor].
    + apply IH in H as (H1 & H2 & H3).
      * split; [|now split]. rewrite H1, <- !app_assoc. reflexivity.
      * rewrite length_app. cbn [length]. lia.
      * assumption.
Qed.

(** Scenario 3 of the specification: 25 records in batches of 10 make
    three batches, of 10, 10 and 5 records. *)
Example batches_25_by_10 :
  map (fun b => length (elements b))
    (batches 6 0 10 (map (fun i => le_bytes 1 (Z.of_nat i)) (seq 0 25)))
  = [10; 10; 5]%nat.
Proof. reflexivity. Qed.

(** C9: [updateCheckSum(csum, data_crc)] is the CRC32 of the eight bytes
    made of [csum] and then [data_crc], each as a little-endian 32-bit
    integer; and the checksum a serializer writes in the tail of a file is
    this fold run over the CRCs of the file's batches, in order, from 0. *)
Theorem updateCheckSum_fold :
  (forall csum data_crc : Z,
     updateCheckSum csum data_crc = getCRC32 (le_bytes 4 csum ++ le_bytes 4 data_crc))
  /\ (forall (aclmap fresh : Z) (acls : ACLMap) (path : string) (save_batch_size : Z)
             (version : SnapshotVersion),
        0 < save_batch_size -> Z.of_nat (length acls) < 2 ^ 64 ->
        exists out,
          serializeAclsV2 aclmap fresh acls path save_batch_size version
          = Some (out ++ MAGIC_SNAPSHOT_TAIL
                    ++ le_bytes 4
                         (fold_left
                            (fun c b => updateCheckSum c (getCRC32 (serialize b)))
                            (batches aclmap fresh (Z.to_nat save_batch_size)
                               (map acl_record acls))
                            0))).
Proof.
  split.
  - intros csum data_crc. unfold updateCheckSum. f_equal.
    pose proof (Z.mod_pos_bound csum (2 ^ 32) ltac:(lia)) as Hc.
    pose proof (Z.mod_pos_bound data_crc (2 ^ 32) ltac:(lia)) as Hd.
    change 8%nat with (4 + 4)%nat. rewrite le_bytes_app.
    change (8 * Z.of_nat 4) with 32.
    rewrite union_high by lia. f_equal.
    + rewrite <- (le_bytes_mod 4 csum). apply le_bytes_congr.
      change (2 ^ (8 * Z.of_nat 4)) with (2 ^ 32).
      rewrite union_low by lia. now rewrite Z.mod_mod by lia.
    + apply (le_bytes_mod 4 data_crc).
  - intros aclmap fresh acls path size version Hs Hl.
    exists (MAGIC_SNAPSHOT_HEAD ++ le_bytes 1 (version_byte version)
              ++ frames (batches aclmap fresh (Z.to_nat size) (map acl_record acls))).
    rewrite (serializeAclsV2_layout aclmap fresh acls path size version Hs Hl).
    cbv zeta. rewrite <- !app_assoc. reflexivity.
Qed.

Lemma updateCheckSum_fold_witness :
  updateCheckSum 0 0 = getCRC32 (le_bytes 4 0 ++ le_bytes 4 0)
  /\ exists out,
       serializeAclsV2 7 0 [(7, [acl_world_anyone])] EmptyString 10 V3
       = Some (out ++ MAGIC_SNAPSHOT_TAIL
                 ++ le_bytes 4
                      (fold_left
                         (fun c b => updateCheckSum c (getCRC32 (serialize b)))
                         (batches 7 0 (Z.to_nat 10) (map acl_record [(7, [acl_world_anyone])]))
                         0)).
Proof.
  split.
  - apply (proj1 updateCheckSum_fold).
  - apply (proj2 updateCheckSum_fold); [lia | cbn [length]; lia].
Defined.

(** C2, as the code has it: an empty ACL map at version V3 is written as the
    head magic, the version byte 0x03, one batch (a header with
    [data_length = 8] and the CRC of the body, then the 8-byte body of a
    freshly constructed batch: its type and a zero count), the tail magic,
    and the 4-byte little-endian checksum [updateCheckSum(0, data_crc)]. *)
Theorem serializeAclsV2_empty (aclmap fresh : Z) (path : string) (save_batch_size : Z) :
  serializeAclsV2 aclmap fresh [] path save_batch_size V3
  = Some (MAGIC_SNAPSHOT_HEAD ++ [x03]
            ++ le_bytes 8 8 ++ le_bytes 8 (getCRC32 (empty_body fresh))
            ++ empty_body fresh
            ++ MAGIC_SNAPSHOT_TAIL
            ++ le_bytes 4 (updateCheckSum 0 (getCRC32 (empty_body fresh)))).
Proof.
  unfold serializeAclsV2. cbn [for_each].
  unfold saveBatchAndUpdateCheckSumV2. rewrite saveBatchV2_null, saveBatchV2_frame.
  unfold writeTailAndClose, writeIntBinary, frame, openFileAndWriteHeader, writeIntBinary.
  rewrite serialize_layout. cbn [type elements length map concat Z.of_nat].
  rewrite app_nil_r. fold (empty_body fresh).
  assert (Hlen : length (empty_body fresh) = 8%nat)
    by (unfold empty_body; rewrite length_app, !le_bytes_length; reflexivity).
  rewrite Hlen. cbn [app]. rewrite <- !app_assoc. reflexivity.
Qed.

Lemma length_head : length MAGIC_SNAPSHOT_HEAD = 8%nat.
Proof. reflexivity. Qed.

Lemma length_tail : length MAGIC_SNAPSHOT_TAIL = 8%nat.
Proof. reflexivity. Qed.

(** The file of an empty ACL map is 45 bytes long. *)
Lemma serializeAclsV2_empty_length (aclmap fresh : Z) (path : string) (save_batch_size : Z) :
  option_map (@length byte) (serializeAclsV2 aclmap fresh [] path save_batch_size V3)
  = Some 45%nat.
Proof.
  unfold serializeAclsV2. cbn [for_each].
  unfold saveBatchAndUpdateCheckSumV2. rewrite saveBatchV2_null, saveBatchV2_frame.
  unfold writeTailAndClose, writeIntBinary, frame, openFileAndWriteHeader, writeIntBinary.
  cbn [option_map]. rewrite serialize_layout. cbn [type elements length map concat].
  rewrite !length_app, !le_bytes_length, length_head, length_tail. reflexivity.
Qed.

(** C2, as the specification has it, fails: the file is not the bare head,
    version byte, tail and zero checksum (it is 45 bytes long, not 21), and
    a flush of a null batch does not write a zero [data_length]. *)
Lemma serializeAclsV2_empty_not_bare :
  ~ (exists (aclmap fresh : Z) (path : string) (save_batch_size : Z),
       serializeAclsV2 aclmap fresh [] path save_batch_size V3
       = Some (MAGIC_SNAPSHOT_HEAD ++ [x03] ++ MAGIC_SNAPSHOT_TAIL ++ le_bytes 4 0))
  /\ ~ (exists (fresh : Z) (out : list byte),
          fst (snd (saveBatchV2 fresh out None)) = HEADER_SIZE + 0).
Proof.
  split.
  - intros (aclmap & fresh & path & size & H).
    apply (f_equal (option_map (@length byte))) in H.
    rewrite serializeAclsV2_empty_length in H. cbn [option_map] in H.
    rewrite !length_app, le_bytes_length, length_head, length_tail in H.
    cbn [length] in H. injection H as H. lia.
  - intros (fresh & out & H).
    rewrite saveBatchV2_null, saveBatchV2_frame in H. cbn [fst snd] in H.
    rewrite serialize_layout in H. cbn [type elements length map concat] in H.
    rewrite !length_app, !le_bytes_length in H. cbn [length] in H.
    unfold HEADER_SIZE in H. lia.
Qed.

(** The bytes of that file when a fresh batch holds type 0. *)
Example serializeAclsV2_empty_bytes :
  serializeAclsV2 7 0 [] EmptyString 10 V3
  = Some (list_byte_of_string "SnapHead" ++ [x03]
            ++ [x08; x00; x00; x00; x00; x00; x00; x00]
            ++ [x69; xdf; x22; x65; x00; x00; x00; x00]
            ++ [x00; x00; x00; x00; x00; x00; x00; x00]
            ++ list_byte_of_string "SnapTail"
            ++ le_bytes 4 (updateCheckSum 0 0x6522df69)).
Proof. vm_compute. reflexivity. Qed.

(** C6, as the code has it: for an ephemerals index that is not empty the
    file [serializeEphemeralsV2] writes holds the batches and nothing else:
    no head magic and version byte before them, no tail magic and checksum
    after them; the call returns 1. *)
Theorem serializeEphemeralsV2_batches_only
  (ephemeral fresh : Z) (ephemerals : Ephemerals) (path : string) (save_batch_size : Z) :
  ephemerals <> [] ->
  0 < save_batch_size -> Z.of_nat (length ephemerals) < 2 ^ 64 ->
  serializeEphemeralsV2 ephemeral fresh ephemerals path save_batch_size
  = Some (Some (frames (batches ephemeral fresh (Z.to_nat save_batch_size)
                          (map ephemeral_record ephemerals))),
          1).
Proof. apply serializeEphemeralsV2_layout. Qed.

Lemma serializeEphemeralsV2_batches_only_witness :
  serializeEphemeralsV2 1 0 [(1, [list_byte_of_string "/a"])] EmptyString 10
  = Some (Some (frames (batches 1 0 (Z.to_nat 10)
                          (map ephemeral_record [(1, [list_byte_of_string "/a"])]))),
          1).
Proof.
  apply serializeEphemeralsV2_batches_only; [discriminate | lia | cbn [length]; lia].
Defined.

(** The file written for the index {1 -> {"/a"}}: 16 bytes of batch header
    and 34 bytes of body. It does not start with the head magic and does
    not end with the tail magic and a checksum. *)
Example serializeEphemeralsV2_one_session :
  exists file,
    serializeEphemeralsV2 1 0 [(1, [list_byte_of_string "/a"])] EmptyString 10
    = Some (Some file, 1)
    /\ length file = 50%nat
    /\ firstn 8 file = le_bytes 8 34
    /\ firstn 8 file <> MAGIC_SNAPSHOT_HEAD
    /\ firstn 8 (skipn (50 - 12) file) <> MAGIC_SNAPSHOT_TAIL.
Proof.
  eexists. split; [vm_compute; reflexivity|].
  repeat split; try reflexivity; intros H; vm_compute in H; discriminate H.
Qed.

End SnapshotClaims.

(** ** The commit processor: shutdown and the error phase *)

Module ProcessorFacts.
Import CommitProcessor ProcessorSpec.

Lemma to_int64_to_uint64 (v : Z) : in_int64 v -> to_int64 (to_uint64 v) = v.
Proof.
  unfold in_int64, to_int64, to_uint64. intros H.
  rewrite Z.mod_mod by lia.
  destruct (Z_lt_le_dec v 0).
  - replace (v mod 2 ^ 64) with (v + 2 ^ 64)
      by (apply Z.mod_unique with (q := -1); lia).
    destruct (Z.ltb_spec (v + 2 ^ 64) (2 ^ 63)); lia.
  - rewrite Z.mod_small by lia.
    destruct (Z.ltb_spec v (2 ^ 63)); lia.
Qed.

Lemma to_uint64_inj (v w : Z) :
  in_int64 v -> in_int64 w -> to_uint64 v = to_uint64 w -> v = w.
Proof.
  intros Hv Hw H. rewrite <- (to_int64_to_uint64 v Hv), <- (to_int64_to_uint64 w Hw).
  now rewrite H.
Qed.

(** After [shutdown] nothing the producers or the worker do changes the
    processor. *)
Lemma step_after_shutdown (st : State) (e : Event) :
  shutdown_called st = true -> step st e = Some st.
Proof.
  intros H. destruct e; cbn [step];
    unfold processRequest, commit, onError, shutdown, run3_iteration;
    rewrite H; reflexivity.
Qed.

Lemma run_after_shutdown (events : list Event) (st : State) :
  shutdown_called st = true -> run events st = Some st.
Proof.
  intros H. induction events as [|e events IH]; [reflexivity|].
  cbn [run]. now rewrite step_after_shutdown.
Qed.

Lemma run_app (a b : list Event) (st : State) :
  run (a ++ b) st = match run a st with Some st' => run b st' | None => None end.
Proof.
  revert st. induction a as [|e a IH]; intros st; [reflexivity|].
  cbn [app run]. destruct (step st e); [apply IH | reflexivity].
Qed.

End ProcessorFacts.

Module ErrorClaims.
Import CommitProcessor ProcessorFacts ProcessorSpec.

Lemma erase_xid_spec (x : Z) (requests : list Request) :
  in_int64 x -> Forall (fun q => in_int64 (xid q)) requests ->
  erase_xid (to_uint64 x) requests = (first_with x requests, without x requests).
Proof.
  intros Hx. induction 1 as [|q rest Hq _ IH]; [reflexivity|].
  cbn [erase_xid first_with without].
  destruct (Z.eqb_spec (xid q) x) as [->|Hne].
  - now rewrite Z.eqb_refl.
  - destruct (Z.eqb_spec (to_uint64 (xid q)) (to_uint64 x)) as [He|_].
    + apply to_uint64_inj in He; [contradiction | assumption | assumption].
    + now rewrite IH.
Qed.

Lemma first_with_In (x : Z) (requests : list Request) (r : Request) :
  In r requests -> xid r = x ->
  exists r', first_with x requests = Some r' /\ In r' requests /\ xid r' = x.
Proof.
  intros Hin Hx. induction requests as [|q rest IH]; [contradiction|].
  cbn [first_with]. destruct (Z.eqb_spec (xid q) x) as [He|Hne].
  - exists q. split; [reflexivity|]. split; [now left | assumption].
  - destruct Hin as [->|Hin]; [contradiction|].
    destruct (IH Hin) as (r' & H1 & H2 & H3).
    exists r'. split; [assumption|]. split; [now right | assumption].
Qed.

Lemma first_with_NoDup (x : Z) (requests : list Request) (r r' : Request) :
  NoDup (map xid requests) -> In r requests -> xid r = x ->
  first_with x requests = Some r' ->
  r' = r /\ ~ In x (map xid (without x requests)).
Proof.
  intros Hnd Hin Hx. induction requests as [|q rest IH]; [contradiction|].
  cbn [map] in Hnd. inversion Hnd as [|? ? Hq Hnd']; subst.
  cbn [first_with without]. destruct (Z.eqb_spec (xid q) (xid r)) as [He|Hne].
  - intros [= <-]. destruct Hin as [->|Hin].
    + split; [reflexivity | assumption].
    + exfalso. apply Hq. rewrite He. now apply in_map.
  - intros H. destruct Hin as [->|Hin]; [contradiction|].
    destruct (IH Hnd' Hin H) as [-> Hn]. split; [reflexivity|].
    cbn [map]. intros [Hc|Hc]; [contradiction | now apply Hn].
Qed.

Lemma find_update (k : Z) (v v' : list Request) (m : PendingMap) :
  find k m = Some v -> find k (update k v' m) = Some v'.
Proof.
  induction m as [|[k0 v0] m IH]; cbn [find update]; [discriminate|].
  destruct (Z.eqb_spec k0 k) as [->|Hne].
  - intros _. cbn [find]. now rewrite Z.eqb_refl.
  - intros H. cbn [find]. destruct (Z.eqb_spec k0 k); [contradiction | now apply IH].
Qed.

(** C5: [shutdown], called on a running processor, pushes for every request
    still in the input queue a response with the request's xid, zxid 0 and
    error ZSESSIONEXPIRED, in queue order, and leaves the queue empty; from
    then on no event changes the processor, and a [processRequest] made once
    [shutdown_called] is set enqueues nothing. *)
Theorem shutdown_expires_queue (st : State) :
  shutdown_called st = false ->
  responses_queue (shutdown st)
  = responses_queue st
      ++ map (fun r => (session_id r, MadeResponse (xid r) 0 ZSESSIONEXPIRED))
           (requests_queue st)
  /\ requests_queue (shutdown st) = []
  /\ shutdown_called (shutdown st) = true
  /\ (forall events, run events (shutdown st) = Some (shutdown st))
  /\ (forall st' r, shutdown_called st' = true -> processRequest r st' = st').
Proof.
  intros H. unfold shutdown. rewrite H. cbn [responses_queue requests_queue shutdown_called].
  repeat split.
  - intros events. now apply run_after_shutdown.
  - intros st' r H'. unfold processRequest. now rewrite H'.
Qed.

Lemma shutdown_expires_queue_witness :
  responses_queue (shutdown two_queued)
  = responses_queue two_queued
      ++ map (fun r => (session_id r, MadeResponse (xid r) 0 ZSESSIONEXPIRED))
           (requests_queue two_queued)
  /\ requests_queue (shutdown two_queued) = []
  /\ shutdown_called (shutdown two_queued) = true
  /\ (forall events, run events (shutdown two_queued) = Some (shutdown two_queued))
  /\ (forall st' r, shutdown_called st' = true -> processRequest r st' = st').
Proof. apply shutdown_expires_queue. reflexivity. Defined.

(** The answers are there, one per queued request. *)
Example shutdown_two_queued :
  responses_queue (shutdown two_queued)
  = [(1, MadeResponse 7 0 ZSESSIONEXPIRED); (1, MadeResponse 8 0 ZSESSIONEXPIRED)].
Proof. reflexivity. Qed.

(** C10: an iteration of [run3] either leaves [errors] as it was, or takes
    exactly the entry at its front; in that case it has pushed the one
    response made for the pending request found, and it ends in the
    exception thrown right after the entry was erased (one message when
    [accepted] is false, another when it is true), caught by the
    iteration's handler: the input queue and the committed queue are as
    they were (nothing drained, nothing applied), the sink holds nothing
    from the store, and of the pending maps only that session's two lists
    changed, by the erased request. *)
Theorem error_entry_ends_iteration (st : State) :
  let outcome := fst (run3_iteration st) in
  let st' := snd (run3_iteration st) in
  errors st' = errors st
  \/ exists session x accepted error_code r requests w_requests,
       errors st = ((session, x), (accepted, error_code)) :: errors st'
       /\ outcome = Caught (if negb accepted then NotAccepted else BatchError error_code)
       /\ find (to_int64 session) (pending_requests st) = Some requests
       /\ find (to_int64 session) (pending_write_requests st) = Some w_requests
       /\ fst (erase_xid x requests) = Some r
       /\ responses_queue st'
          = responses_queue st ++ [(session_id r, MadeResponse (xid r) 0 (error_of error_code))]
       /\ requests_queue st' = requests_queue st
       /\ committed_queue st' = committed_queue st
       /\ pending_requests st'
          = update (to_int64 session) (snd (erase_xid x requests)) (pending_requests st)
       /\ pending_write_requests st'
          = update (to_int64 session) (snd (erase_xid x w_requests)) (pending_write_requests st).
Proof.
  cbv zeta. unfold run3_iteration.
  destruct (shutdown_called st); [now left|].
  destruct (need_wait st); [now left|].
  unfold drain_errors.
  destruct (errors st) as [|[[session x] [accepted error_code]] rest] eqn:Herr.
  - cbn [bind]. unfold process_queues.
    destruct (drain_requests _ _ _) as [pending pending_w].
    destruct (serve_sessions _ _ _) as [[[p w] rs]|e [[p w] rs]|]; cbn [bind].
    + destruct (apply_committed _ _ _ _) as [[[[c p'] w'] rs']|e [[[c p'] w'] rs']|];
        cbn [bind fst snd errors]; left; congruence.
    + cbn [fst snd errors]. left. congruence.
    + cbn [fst snd]. left. congruence.
  - destruct (find (to_int64 session) (pending_requests st)) as [requests|] eqn:Hp;
      [|cbn [bind fst snd]; left; congruence].
    destruct (erase_xid x requests) as [request requests'] eqn:He.
    destruct (find (to_int64 session) (pending_write_requests st)) as [w_requests|] eqn:Hw;
      [|cbn [bind fst snd]; left; congruence].
    destruct (erase_xid x w_requests) as [w_request w_requests'] eqn:Hew.
    destruct request as [r|]; cbn [bind fst snd errors].
    + right. exists session, x, accepted, error_code, r, requests, w_requests.
      rewrite He, Hew. cbn [fst snd]. repeat split; try reflexivity; assumption.
    + left. congruence.
Qed.

(** The iteration that follows answers the write and empties the session's
    two lists. *)
Example timeout_scenario_iteration :
  exists st,
    run timeout_scenario initial = Some st
    /\ run3_iteration st
       = (Caught (BatchError TIMEOUT),
          mkState [] false [(5, MadeResponse 100 0 ZOPERATIONTIMEOUT)] []
            [(5, [])] [(5, [])] []).
Proof. eexists. split; reflexivity. Qed.

(** C3, as the code has it: when the error entry for [(session, x)] is the
    one at the front of [errors], both pending maps know the session and a
    request with that xid is pending, the next iteration erases the first
    such request from the session's list in [pending_requests] and in
    [pending_write_requests], pushes a response with that xid, zxid 0 and
    error ZOPERATIONTIMEOUT for TIMEOUT and ZCONNECTIONLOSS otherwise, and
    erases the entry. With distinct xids no request of that xid stays
    pending, and a session that had only this request keeps two empty
    lists. *)
Theorem front_error_is_answered
  (st : State) (session x : Z) (accepted : bool) (error_code : cmd_result_code)
  (rest : list ((Z * Z) * (bool * cmd_result_code)))
  (requests w_requests : list Request) (r : Request) :
  shutdown_called st = false ->
  in_int64 session -> in_int64 x ->
  errors st = ((to_uint64 session, to_uint64 x), (accepted, error_code)) :: rest ->
  find session (pending_requests st) = Some requests ->
  find session (pending_write_requests st) = Some w_requests ->
  Forall (fun q => in_int64 (xid q)) requests ->
  Forall (fun q => in_int64 (xid q)) w_requests ->
  In r requests -> xid r = x ->
  let st' := snd (run3_iteration st) in
  exists r',
    first_with x requests = Some r'
    /\ fst (run3_iteration st)
       = Caught (if negb accepted then NotAccepted else BatchError error_code)
    /\ responses_queue st'
       = responses_queue st
           ++ [(session_id r',
                MadeResponse x 0
                  (match error_code with
                   | TIMEOUT => ZOPERATIONTIMEOUT
                   | OTHER => ZCONNECTIONLOSS
                   end))]
    /\ errors st' = rest
    /\ find session (pending_requests st') = Some (without x requests)
    /\ find session (pending_write_requests st') = Some (without x w_requests)
    /\ (NoDup (map xid requests) ->
        r' = r /\ ~ In x (map xid (without x requests)))
    /\ (requests = [r] -> w_requests = [r] \/ w_requests = [] ->
        find session (pending_requests st') = Some []
        /\ find session (pending_write_requests st') = Some []).
Proof.
  intros Hs Hsession Hx Herr Hp Hw Hr Hwr Hin Hxid st'.
  destruct (first_with_In x requests r Hin Hxid) as (r' & Hf & Hin' & Hx').
  exists r'. subst st'. unfold run3_iteration.
  rewrite Hs. unfold need_wait. rewrite Herr. unfold drain_errors. rewrite Herr.
  rewrite (to_int64_to_uint64 session Hsession), Hp, Hw.
  rewrite (erase_xid_spec x requests Hx Hr), (erase_xid_spec x w_requests Hx Hwr), Hf.
  cbn [bind fst snd responses_queue errors pending_requests pending_write_requests].
  rewrite Hx'.
  split; [reflexivity|]. split; [reflexivity|].
  split; [destruct error_code; reflexivity|]. split; [reflexivity|].
  split; [now apply find_update with (v := requests)|].
  split; [now apply find_update with (v := w_requests)|].
  split.
  - intros Hnd. now apply first_with_NoDup.
  - intros -> Hw'.
    assert (Hw0 : without x w_requests = []).
    { destruct Hw' as [->| ->]; cbn [without]; [|reflexivity].
      rewrite Hxid, Z.eqb_refl. reflexivity. }
    assert (Hp0 : without x [r] = []).
    { cbn [without]. rewrite Hxid, Z.eqb_refl. reflexivity. }
    rewrite Hw0, Hp0.
    split; eapply find_update; eassumption.
Qed.

Lemma front_error_is_answered_witness :
  exists r',
    first_with 100 [mkRequest 5 100 false] = Some r'
    /\ fst (run3_iteration timeout_state) = Caught (if negb true then NotAccepted else BatchError TIMEOUT)
    /\ responses_queue (snd (run3_iteration timeout_state))
       = responses_queue timeout_state
           ++ [(session_id r',
                MadeResponse 100 0
                  (match TIMEOUT with
                   | TIMEOUT => ZOPERATIONTIMEOUT
                   | OTHER => ZCONNECTIONLOSS
                   end))]
    /\ errors (snd (run3_iteration timeout_state)) = []
    /\ find 5 (pending_requests (snd (run3_iteration timeout_state)))
       = Some (without 100 [mkRequest 5 100 false])
    /\ find 5 (pending_write_requests (snd (run3_iteration timeout_state)))
       = Some (without 100 [mkRequest 5 100 false])
    /\ (NoDup (map xid [mkRequest 5 100 false]) ->
        r' = mkRequest 5 100 false
        /\ ~ In 100 (map xid (without 100 [mkRequest 5 100 false])))
    /\ ([mkRequest 5 100 false] = [mkRequest 5 100 false] ->
        [mkRequest 5 100 false] = [mkRequest 5 100 false]
        \/ [mkRequest 5 100 false] = [] ->
        find 5 (pending_requests (snd (run3_iteration timeout_state))) = Some []
        /\ find 5 (pending_write_requests (snd (run3_iteration timeout_state))) = Some []).
Proof.
  apply (front_error_is_answered timeout_state 5 100 true TIMEOUT []
           [mkRequest 5 100 false] [mkRequest 5 100 false] (mkRequest 5 100 false)).
  - reflexivity.
  - unfold in_int64. lia.
  - unfold in_int64. lia.
  - reflexivity.
  - reflexivity.
  - reflexivity.
  - repeat constructor; unfold in_int64; cbn [xid]; lia.
  - repeat constructor; unfold in_int64; cbn [xid]; lia.
  - now left.
  - reflexivity.
Defined.

(** C3, as the specification has it, fails when two error entries are
    delivered before the next iteration: the iteration answers the one at
    the front of [errors] and leaves the other entry, its request and its
    session's lists as they were, whichever of the two was delivered first. *)
Lemma second_error_is_not_answered :
  run (two_writes ++ [OnError 5 100 true TIMEOUT; OnError 6 200 true TIMEOUT; Iterate]) initial
  = Some (mkState [] false [(5, MadeResponse 100 0 ZOPERATIONTIMEOUT)] []
            [(5, []); (6, [mkRequest 6 200 false])]
            [(5, []); (6, [mkRequest 6 200 false])]
            [((6, 200), (true, TIMEOUT))])
  /\ run (two_writes ++ [OnError 6 200 true TIMEOUT; OnError 5 100 true TIMEOUT; Iterate]) initial
     = Some (mkState [] false [(6, MadeResponse 200 0 ZOPERATIONTIMEOUT)] []
               [(5, [mkRequest 5 100 false]); (6, [])]
               [(5, [mkRequest 5 100 false]); (6, [])]
               [((5, 100), (true, TIMEOUT))]).
Proof. split; reflexivity. Qed.

End ErrorClaims.

(** ** The pending maps *)

Module MapFacts.
Import CommitProcessor ProcessorSpec.

Lemma find_None_keys (k : Z) (m : PendingMap) : find k m = None <-> ~ In k (keys m).
Proof.
  induction m as [|[k0 v0] m IH]; cbn [find keys map fst In].
  - tauto.
  - destruct (Z.eqb_spec k0 k) as [->|Hne].
    + split; [discriminate | intros H; exfalso; apply H; now left].
    + unfold keys in IH. rewrite IH. tauto.
Qed.

Lemma find_Some_keys (k : Z) (m : PendingMap) (v : list Request) :
  find k m = Some v -> In k (keys m).
Proof.
  intros H. destruct (in_dec Z.eq_dec k (keys m)) as [Hin|Hn]; [assumption|].
  apply find_None_keys in Hn. congruence.
Qed.

Lemma find_Some_In (k : Z) (m : PendingMap) (v : list Request) :
  find k m = Some v -> In (k, v) m.
Proof.
  induction m as [|[k0 v0] m IH]; cbn [find]; [discriminate|].
  destruct (Z.eqb_spec k0 k) as [->|Hne].
  - intros [= ->]. now left.
  - intros H. right. now apply IH.
Qed.

Lemma keys_update (k : Z) (v : list Request) (m : PendingMap) :
  keys (update k v m) = keys m.
Proof.
  induction m as [|[k0 v0] m IH]; [reflexivity|].
  cbn [update]. destruct (Z.eqb_spec k0 k); cbn [keys map fst]; [reflexivity|].
  unfold keys in IH. now rewrite IH.
Qed.

Lemma find_update_eq (k : Z) (v : list Request) (m : PendingMap) :
  In k (keys m) -> find k (update k v m) = Some v.
Proof.
  induction m as [|[k0 v0] m IH]; cbn [keys map fst In]; [contradiction|].
  cbn [update]. destruct (Z.eqb_spec k0 k) as [->|Hne]; cbn [find].
  - now rewrite Z.eqb_refl.
  - destruct (Z.eqb_spec k0 k); [contradiction|]. intros [H|H]; [contradiction | now apply IH].
Qed.

Lemma find_update_neq (k t : Z) (v : list Request) (m : PendingMap) :
  t <> k -> find t (update k v m) = find t m.
Proof.
  intros Hne. induction m as [|[k0 v0] m IH]; [reflexivity|].
  cbn [update]. destruct (Z.eqb_spec k0 k) as [->|Hk]; cbn [find].
  - destruct (Z.eqb_spec k t); [congruence | reflexivity].
  - now rewrite IH.
Qed.

Lemma lookup_update_eq (k : Z) (v : list Request) (m : PendingMap) :
  In k (keys m) -> lookup k (update k v m) = v.
Proof. intros H. unfold lookup. now rewrite find_update_eq. Qed.

Lemma lookup_update_neq (k t : Z) (v : list Request) (m : PendingMap) :
  t <> k -> lookup t (update k v m) = lookup t m.
Proof. intros H. unfold lookup. now rewrite find_update_neq. Qed.

Lemma keys_erase_incl (k t : Z) (m : PendingMap) :
  In t (keys (erase k m)) -> In t (keys m).
Proof.
  induction m as [|[k0 v0] m IH]; [contradiction|].
  cbn [erase]. destruct (Z.eqb_spec k0 k); cbn [keys map fst In].
  - intros H. now right.
  - intros [H|H]; [now left | right; now apply IH].
Qed.

Lemma keys_erase_NoDup (k : Z) (m : PendingMap) :
  NoDup (keys m) -> NoDup (keys (erase k m)).
Proof.
  induction m as [|[k0 v0] m IH]; [trivial|].
  cbn [keys map fst]. intros H. inversion H as [|? ? Hn Hd]; subst.
  cbn [erase]. destruct (Z.eqb_spec k0 k); [assumption|].
  cbn [keys map fst]. constructor; [|now apply IH].
  intros Hin. apply Hn. now apply keys_erase_incl in Hin.
Qed.

Lemma find_erase_eq (k : Z) (m : PendingMap) :
  NoDup (keys m) -> find k (erase k m) = None.
Proof.
  induction m as [|[k0 v0] m IH]; [reflexivity|].
  cbn [keys map fst]. intros H. inversion H as [|? ? Hn Hd]; subst.
  cbn [erase]. destruct (Z.eqb_spec k0 k) as [->|Hne].
  - now apply find_None_keys.
  - cbn [find]. destruct (Z.eqb_spec k0 k); [contradiction | now apply IH].
Qed.

Lemma find_erase_neq (k t : Z) (m : PendingMap) :
  t <> k -> find t (erase k m) = find t m.
Proof.
  intros Hne. induction m as [|[k0 v0] m IH]; [reflexivity|].
  cbn [erase]. destruct (Z.eqb_spec k0 k) as [->|Hk]; cbn [find].
  - destruct (Z.eqb_spec k t); [congruence | reflexivity].
  - now rewrite IH.
Qed.

Lemma find_app (k : Z) (m m' : PendingMap) :
  find k (m ++ m') = match find k m with Some v => Some v | None => find k m' end.
Proof.
  induction m as [|[k0 v0] m IH]; [reflexivity|].
  cbn [app find]. destruct (Z.eqb_spec k0 k); [reflexivity | apply IH].
Qed.

Lemma owned_update (k : Z) (v : list Request) (m : PendingMap) :
  owned m -> Forall (fun r => session_id r = k) v -> owned (update k v m).
Proof.
  unfold owned. intros H Hv. induction H as [|[k0 v0] m H0 H IH]; [constructor|].
  cbn [update]. destruct (Z.eqb_spec k0 k) as [->|Hne]; constructor; assumption.
Qed.

Lemma owned_erase (k : Z) (m : PendingMap) : owned m -> owned (erase k m).
Proof.
  unfold owned. intros H. induction H as [|[k0 v0] m H0 H IH]; [constructor|].
  cbn [erase]. destruct (Z.eqb_spec k0 k); [assumption | now constructor].
Qed.

Lemma owned_lookup (k : Z) (m : PendingMap) :
  owned m -> Forall (fun r => session_id r = k) (lookup k m).
Proof.
  unfold owned, lookup. intros H.
  destruct (find k m) as [v|] eqn:E; [|constructor].
  apply find_Some_In in E. rewrite Forall_forall in H. exact (H _ E).
Qed.

(** [operator[]] with an empty default. *)
Lemma subscript_spec (k : Z) (m : PendingMap) :
  exists m',
    subscript k [] m = (lookup k m, m')
    /\ In k (keys m')
    /\ (forall t, lookup t m' = lookup t m)
    /\ (NoDup (keys m) -> NoDup (keys m'))
    /\ (owned m -> owned m').
Proof.
  unfold subscript, lookup.
  destruct (find k m) as [v|] eqn:E.
  - exists m. split; [reflexivity|]. split; [now apply find_Some_keys in E|].
    repeat split; trivial.
  - exists (m ++ [(k, [])]). split; [reflexivity|].
    split; [unfold keys; rewrite map_app, in_app_iff; right; now left|].
    split; [|split].
    + intros t. rewrite find_app. destruct (find t m) as [v|] eqn:Et; [reflexivity|].
      cbn [find]. destruct (Z.eqb_spec k t); reflexivity.
    + intros Hnd. unfold keys. rewrite map_app. cbn [map fst].
      apply NoDup_app; [assumption | repeat constructor; intros [] |].
      intros t Ht [<-|[]]. apply find_None_keys in E. contradiction.
    + intros Ho. apply Forall_app. split; [assumption|]. repeat constructor.
Qed.

Lemma push_back_spec (k : Z) (r : Request) (m : PendingMap) :
  lookup k (push_back k r m) = lookup k m ++ [r]
  /\ (forall t, t <> k -> lookup t (push_back k r m) = lookup t m)
  /\ (NoDup (keys m) -> NoDup (keys (push_back k r m)))
  /\ (owned m -> session_id r = k -> owned (push_back k r m)).
Proof.
  unfold push_back.
  destruct (subscript_spec k m) as (m' & -> & Hin & Hl & Hnd & Ho).
  split; [|split; [|split]].
  - now rewrite lookup_update_eq.
  - intros t Ht. now rewrite lookup_update_neq, Hl.
  - intros H. rewrite keys_update. auto.
  - intros H Hr. apply owned_update; [auto|].
    apply Forall_app. split; [now apply owned_lookup | now repeat constructor].
Qed.

(** Dropping the head of a session's list, and the key with it when the
    list gets empty. *)
Lemma pop_spec (k : Z) (rest : list Request) (m : PendingMap) :
  In k (keys m) -> NoDup (keys m) ->
  lookup k (erase_if_empty k rest (update k rest m)) = rest
  /\ (forall t, t <> k -> lookup t (erase_if_empty k rest (update k rest m)) = lookup t m)
  /\ NoDup (keys (erase_if_empty k rest (update k rest m)))
  /\ (owned m -> Forall (fun r => session_id r = k) rest ->
      owned (erase_if_empty k rest (update k rest m))).
Proof.
  intros Hin Hnd. destruct rest as [|r rest]; cbn [erase_if_empty].
  - split; [|split; [|split]].
    + unfold lookup. rewrite find_erase_eq; [reflexivity | now rewrite keys_update].
    + intros t Ht. unfold lookup. now rewrite find_erase_neq, find_update_neq.
    + apply keys_erase_NoDup. now rewrite keys_update.
    + intros Ho _. apply owned_erase, owned_update; [assumption | constructor].
  - split; [|split; [|split]].
    + now apply lookup_update_eq.
    + intros t Ht. now apply lookup_update_neq.
    + now rewrite keys_update.
    + intros Ho Hr. now apply owned_update.
Qed.

End MapFacts.

(** ** Serving reads *)

Module ReadFacts.
Import CommitProcessor ProcessorFacts MapFacts ProcessorSpec.

Lemma increasing_tail (r : Request) (l : list Request) : increasing (r :: l) -> increasing l.
Proof. unfold increasing. cbn [map]. intros H. now inversion H. Qed.

Lemma increasing_head (r q : Request) (l : list Request) :
  increasing (r :: l) -> In q l -> xid r < xid q.
Proof.
  unfold increasing. cbn [map]. intros H Hin. inversion H as [|? ? _ Hall]; subst.
  rewrite Forall_forall in Hall. apply Hall. now apply in_map.
Qed.

Lemma writes_In (q : Request) (l : list Request) : In q (writes l) -> In q l.
Proof. unfold writes. intros H. now apply filter_In in H. Qed.

(** The inner loop, on a session whose pending writes are the writes of
    its pending list and whose xids increase: the leading reads are served
    and the loop stops at the first write. *)
Lemma serve_requests_reads (w_requests : list Request) :
  forall (requests : list Request) (responses : list ResponseForSession),
  w_requests = writes requests -> increasing requests ->
  serve_requests w_requests requests responses
  = Normal (drop_while (may_serve w_requests) requests,
            responses ++ map stored (take_while (may_serve w_requests) requests)).
Proof.
  induction requests as [|r rest IH]; intros responses Hw Hinc.
  - cbn. now rewrite app_nil_r.
  - cbn [serve_requests drop_while take_while]. unfold may_serve at 1 3.
    unfold writes in Hw. cbn [filter] in Hw. unfold is_write at 1 in Hw.
    destruct (isReadRequest r) eqn:Hr; cbn [negb orb] in *.
    + assert (Hc : match w_requests with [] => true | w :: _ => xid r <? xid w end = true).
      { destruct w_requests as [|w ws]; [reflexivity|].
        apply Z.ltb_lt. apply (increasing_head r w rest Hinc).
        apply writes_In. unfold writes. rewrite <- Hw. now left. }
      rewrite Hc. rewrite IH by (try assumption; now apply increasing_tail in Hinc).
      cbn [map]. rewrite <- app_assoc. reflexivity.
    + subst w_requests. rewrite Z.ltb_irrefl. cbn [map]. now rewrite app_nil_r.
Qed.

Lemma drop_while_head (w_requests requests : list Request) :
  drop_while (may_serve w_requests) requests = []
  \/ exists r rest,
       drop_while (may_serve w_requests) requests = r :: rest
       /\ isReadRequest r = false.
Proof.
  induction requests as [|r rest IH]; [now left|].
  cbn [drop_while]. destruct (may_serve w_requests r) eqn:E; [exact IH|].
  right. exists r, rest. split; [reflexivity|].
  unfold may_serve in E. now apply orb_false_elim in E.
Qed.

(** The outer loop under the same condition on every session. *)
Lemma serve_sessions_reads :
  forall (pending pending_w : PendingMap) (responses : list ResponseForSession),
  (forall s l, In (s, l) pending -> lookup s pending_w = writes l /\ increasing l) ->
  exists pending_w',
    serve_sessions pending pending_w responses
    = Normal (filter nonempty (map (remaining pending_w) pending), pending_w',
              responses ++ flat_map (served pending_w) pending)
    /\ (forall s, lookup s pending_w' = lookup s pending_w).
Proof.
  induction pending as [|[s l] pending IH]; intros pending_w responses H.
  - exists pending_w. cbn. now rewrite app_nil_r.
  - cbn [serve_sessions].
    assert (Hsub : exists pw1,
               match l with [] => ([], pending_w) | _ => subscript s [] pending_w end
               = (match l with [] => [] | _ => lookup s pending_w end, pw1)
               /\ forall t, lookup t pw1 = lookup t pending_w).
    { destruct l; [now exists pending_w|].
      destruct (subscript_spec s pending_w) as (m' & E & _ & Hl & _).
      exists m'. split; assumption. }
    destruct Hsub as (pw1 & -> & Hl1).
    destruct (H s l (or_introl eq_refl)) as [Hw Hinc].
    assert (Hserve : serve_requests (match l with [] => [] | _ => lookup s pending_w end)
                       l responses
                     = Normal (drop_while (may_serve (lookup s pending_w)) l,
                               responses
                                 ++ map stored (take_while (may_serve (lookup s pending_w)) l))).
    { destruct l as [|r rest]; [cbn; now rewrite app_nil_r|].
      now apply serve_requests_reads. }
    rewrite Hserve.
    destruct (IH pw1 (responses ++ map stored (take_while (may_serve (lookup s pending_w)) l)))
      as (pw2 & E2 & Hl2).
    { intros t lt Hin. rewrite Hl1. apply H. now right. }
    exists pw2. split; [|intros t; now rewrite Hl2, Hl1].
    rewrite E2. cbn [bind map flat_map filter].
    assert (Hrem : map (remaining pw1) pending = map (remaining pending_w) pending)
      by (apply map_ext; intros e; unfold remaining; now rewrite Hl1).
    assert (Hsrv : flat_map (served pw1) pending = flat_map (served pending_w) pending)
      by (apply flat_map_ext; intros e; unfold served; now rewrite Hl1).
    rewrite Hrem, Hsrv, <- app_assoc.
    change (remaining pending_w (s, l))
      with (s, drop_while (may_serve (lookup s pending_w)) l).
    change (served pending_w (s, l))
      with (map stored (take_while (may_serve (lookup s pending_w)) l)).
    unfold keep_nonempty, nonempty at 1. cbn [snd].
    destruct (drop_while (may_serve (lookup s pending_w)) l); reflexivity.
Qed.

End ReadFacts.

(** ** Claims on the read phase *)

Module ReadClaims.
Import CommitProcessor ProcessorFacts MapFacts ReadFacts ProcessorSpec.

Lemma iterate_waiting_for_W3 (n : nat) :
  run (repeat Iterate n) waiting_for_W3 = Some waiting_for_W3.
Proof. induction n as [|n IH]; [reflexivity | exact IH]. Qed.

(** C4: in the read phase, on every session whose pending writes are the
    writes of its pending list and whose xids increase, the worker applies
    and removes requests from the head of the pending list exactly while
    the head is a read or has an xid below the xid at the head of the
    session's pending writes, so that what is left is empty or starts with
    a write. For the submissions R1, R2, W3, R4 of one session: R1 and R2
    are answered by the first iteration and, however many iterations run,
    nothing more is answered before the commit of W3 arrives; the
    iteration that finds the commit applies W3, and only a later iteration
    answers R4. *)
Theorem reads_stop_at_first_write :
  (forall (pending pending_w : PendingMap) (responses : list ResponseForSession),
     (forall s l, In (s, l) pending -> lookup s pending_w = writes l /\ increasing l) ->
     exists pending_w',
       serve_sessions pending pending_w responses
       = Normal (filter nonempty (map (remaining pending_w) pending), pending_w',
                 responses ++ flat_map (served pending_w) pending)
       /\ (forall s, lookup s pending_w' = lookup s pending_w)
       /\ (forall s l, In (s, l) pending ->
           snd (remaining pending_w (s, l)) = []
           \/ exists r rest,
                snd (remaining pending_w (s, l)) = r :: rest
                /\ isReadRequest r = false))
  /\ (forall n : nat,
        run (submitted ++ Iterate :: repeat Iterate n) initial = Some waiting_for_W3)
  /\ responses_queue waiting_for_W3 = [stored R1; stored R2]
  /\ (exists st,
        run [Commit W3; Iterate] waiting_for_W3 = Some st
        /\ responses_queue st = [stored R1; stored R2; stored W3]
        /\ pending_requests st = [(1, [R4])]
        /\ exists st',
             run [Iterate] st = Some st'
             /\ responses_queue st' = [stored R1; stored R2; stored W3; stored R4]
             /\ pending_requests st' = []).
Proof.
  split; [|split; [|split]].
  - intros pending pending_w responses H.
    destruct (serve_sessions_reads pending pending_w responses H) as (pw' & E & Hl).
    exists pw'. split; [exact E|]. split; [exact Hl|].
    intros s l _. unfold remaining. cbn [fst snd]. apply drop_while_head.
  - intros n. rewrite run_app.
    change (run submitted initial)
      with (Some (mkState [R1; R2; W3; R4] false [] [] [] [] [])).
    cbn [run]. change (step (mkState [R1; R2; W3; R4] false [] [] [] [] []) Iterate)
      with (Some waiting_for_W3).
    apply iterate_waiting_for_W3.
  - reflexivity.
  - eexists. split; [reflexivity|]. split; [reflexivity|]. split; [reflexivity|].
    eexists. split; [reflexivity|]. split; reflexivity.
Qed.

Lemma reads_stop_at_first_write_witness :
  exists pending_w',
    serve_sessions [(1, [R1; R2; W3; R4]); (2, [mkRequest 2 9 true])] [(1, [W3])] []
    = Normal (filter nonempty
                (map (remaining [(1, [W3])])
                   [(1, [R1; R2; W3; R4]); (2, [mkRequest 2 9 true])]),
              pending_w',
              [] ++ flat_map (served [(1, [W3])])
                      [(1, [R1; R2; W3; R4]); (2, [mkRequest 2 9 true])])
    /\ (forall s, lookup s pending_w' = lookup s [(1, [W3])])
    /\ (forall s l, In (s, l) [(1, [R1; R2; W3; R4]); (2, [mkRequest 2 9 true])] ->
        snd (remaining [(1, [W3])] (s, l)) = []
        \/ exists r rest,
             snd (remaining [(1, [W3])] (s, l)) = r :: rest
             /\ isReadRequest r = false).
Proof.
  apply (proj1 reads_stop_at_first_write).
  intros s l [[= <- <-]|[[= <- <-]|[]]].
  - split; [reflexivity|]. unfold increasing. cbn. repeat constructor.
  - split; [reflexivity|]. unfold increasing. cbn. repeat constructor.
Defined.

End ReadClaims.

(** ** The phases of an iteration, session by session *)

Module PhaseFacts.
Import CommitProcessor ProcessorFacts MapFacts ReadFacts ProcessorSpec.

Lemma result_bind {A B : Type} (x : Flow A) (g : A -> B) :
  result (bind x (fun a => Normal (g a)) g) = option_map g (result x).
Proof. destruct x; reflexivity. Qed.

Lemma on_app (s : Z) (a b : list Request) : on s (a ++ b) = on s a ++ on s b.
Proof. apply filter_app. Qed.

Lemma responses_for_app (s : Z) (a b : list ResponseForSession) :
  responses_for s (a ++ b) = responses_for s a ++ responses_for s b.
Proof. apply filter_app. Qed.

Lemma writes_app (a b : list Request) : writes (a ++ b) = writes a ++ writes b.
Proof. apply filter_app. Qed.

Lemma writes_reads (l : list Request) :
  Forall (fun r => isReadRequest r = true) l -> writes l = [].
Proof.
  induction 1 as [|r l Hr _ IH]; [reflexivity|].
  unfold writes. cbn [filter]. unfold is_write at 1. rewrite Hr. exact IH.
Qed.

Lemma responses_for_stored_same (s : Z) (l : list Request) :
  Forall (fun r => session_id r = s) l -> responses_for s (map stored l) = map stored l.
Proof.
  induction 1 as [|r l Hr _ IH]; [reflexivity|].
  cbn [map responses_for filter]. unfold stored at 1. cbn [fst].
  rewrite Hr, Z.eqb_refl. f_equal. exact IH.
Qed.

Lemma responses_for_stored_other (s t : Z) (l : list Request) :
  t <> s -> Forall (fun r => session_id r = s) l -> responses_for t (map stored l) = [].
Proof.
  intros Hne. induction 1 as [|r l Hr _ IH]; [reflexivity|].
  cbn [map responses_for filter]. unfold stored at 1. cbn [fst].
  rewrite Hr. destruct (Z.eqb_spec s t); [congruence | exact IH].
Qed.

Lemma lookup_not_key (k : Z) (m : PendingMap) : ~ In k (keys m) -> lookup k m = [].
Proof. intros H. unfold lookup. apply find_None_keys in H. now rewrite H. Qed.

Lemma lookup_cons_eq (k : Z) (l : list Request) (m : PendingMap) :
  lookup k ((k, l) :: m) = l.
Proof. unfold lookup. cbn [find]. now rewrite Z.eqb_refl. Qed.

Lemma lookup_cons_neq (k t : Z) (l : list Request) (m : PendingMap) :
  t <> k -> lookup t ((k, l) :: m) = lookup t m.
Proof.
  intros H. unfold lookup. cbn [find]. destruct (Z.eqb_spec k t); [congruence | reflexivity].
Qed.

(** Draining the input queue appends to each session's lists its queued
    requests, and to its pending writes the writes among them. *)
Lemma drain_requests_spec (requests : list Request) :
  forall pending pending_w : PendingMap,
  NoDup (keys pending) -> NoDup (keys pending_w) -> owned pending ->
  let d := drain_requests requests pending pending_w in
  NoDup (keys (fst d)) /\ NoDup (keys (snd d)) /\ owned (fst d)
  /\ (forall t, lookup t (fst d) = lookup t pending ++ on t requests)
  /\ (forall t, lookup t (snd d) = lookup t pending_w ++ writes (on t requests)).
Proof.
  unfold drain_requests.
  induction requests as [|r requests IH]; intros pending pending_w Hp Hw Ho.
  - cbn. repeat split; trivial; intros t; now rewrite app_nil_r.
  - cbn [fold_left]. unfold enqueue_pending at 2.
    destruct (push_back_spec (session_id r) r pending) as (Hp1 & Hp2 & Hp3 & Hp4).
    set (pending1 := push_back (session_id r) r pending) in *.
    set (pw1 := if negb (isReadRequest r)
                then push_back (session_id r) r pending_w else pending_w).
    assert (Hw1 : NoDup (keys pw1)).
    { subst pw1. destruct (isReadRequest r); cbn [negb]; [assumption|].
      now apply push_back_spec. }
    assert (Hw2 : forall t, lookup t pw1 = lookup t pending_w ++ writes (on t [r])).
    { intros t. subst pw1. unfold on, writes. cbn [filter].
      destruct (Z.eqb_spec (session_id r) t) as [<-|Hne]; cbn [filter]; unfold is_write.
      - destruct (isReadRequest r); cbn [negb]; [now rewrite app_nil_r|].
        now apply push_back_spec.
      - rewrite app_nil_r. destruct (isReadRequest r); cbn [negb]; [reflexivity|].
        apply push_back_spec. congruence. }
    destruct (IH pending1 pw1 (Hp3 Hp) Hw1 (Hp4 Ho eq_refl)) as (H1 & H2 & H3 & H4 & H5).
    cbv zeta. split; [exact H1|]. split; [exact H2|]. split; [exact H3|]. split.
    + intros t. rewrite H4. change (r :: requests) with ([r] ++ requests).
      rewrite on_app, app_assoc. f_equal.
      unfold on. cbn [filter].
      destruct (Z.eqb_spec (session_id r) t) as [<-|Hne].
      * exact Hp1.
      * rewrite app_nil_r. apply Hp2. congruence.
    + intros t. rewrite H5, Hw2. change (r :: requests) with ([r] ++ requests).
      now rewrite on_app, writes_app, app_assoc.
Qed.

(** The inner read loop, on any list: a prefix of reads is served. *)
Lemma serve_requests_any (w_requests : list Request) :
  forall (requests : list Request) (responses : list ResponseForSession),
  exists served_reads requests',
    result (serve_requests w_requests requests responses)
    = Some (requests', responses ++ map stored served_reads)
    /\ requests = served_reads ++ requests'
    /\ Forall (fun r => isReadRequest r = true) served_reads.
Proof.
  induction requests as [|r rest IH]; intros responses.
  - exists [], []. cbn. now rewrite app_nil_r.
  - cbn [serve_requests].
    destruct (match w_requests with [] => true | w :: _ => xid r <? xid w end).
    + destruct (isReadRequest r) eqn:Hr; cbn [negb].
      * destruct (IH (responses ++ [(session_id r, StoreResponse r)]))
          as (sv & l' & E & -> & Hsv).
        exists (r :: sv), l'. rewrite E. cbn [map]. rewrite <- app_assoc.
        split; [reflexivity|]. split; [reflexivity | now constructor].
      * exists [], (r :: rest). cbn. now rewrite app_nil_r.
    + exists [], (r :: rest). cbn. now rewrite app_nil_r.
Qed.

(** The read phase, on any pending maps: undefined behaviour does not
    occur, the pending writes are as they were, and of every session a
    prefix of reads has been served. *)
Lemma serve_sessions_any :
  forall (pending pending_w : PendingMap) (responses : list ResponseForSession),
  NoDup (keys pending) -> NoDup (keys pending_w) -> owned pending ->
  exists pending' pending_w' added,
    result (serve_sessions pending pending_w responses)
    = Some (pending', pending_w', responses ++ added)
    /\ NoDup (keys pending')
    /\ (forall t, In t (keys pending') -> In t (keys pending))
    /\ NoDup (keys pending_w')
    /\ owned pending'
    /\ (forall t, lookup t pending_w' = lookup t pending_w)
    /\ (forall t, exists served_reads,
          lookup t pending = served_reads ++ lookup t pending'
          /\ Forall (fun r => isReadRequest r = true) served_reads
          /\ responses_for t added = map stored served_reads).
Proof.
  induction pending as [|[k l] pending IH]; intros pending_w responses Hp Hw Ho.
  - exists [], pending_w, []. cbn [serve_sessions result]. rewrite app_nil_r.
    repeat split; trivial. intros t. exists []. repeat split; constructor.
  - cbn [keys map fst] in Hp. inversion Hp as [|? ? Hk Hp']; subst.
    inversion Ho as [|? ? Hol Ho']; subst. cbn [fst snd] in Hol.
    cbn [serve_sessions].
    assert (Hsub : exists pw1,
               match l with [] => ([], pending_w) | _ => subscript k [] pending_w end
               = (match l with [] => [] | _ => lookup k pending_w end, pw1)
               /\ (forall t, lookup t pw1 = lookup t pending_w)
               /\ NoDup (keys pw1)).
    { destruct l; [now exists pending_w|].
      destruct (subscript_spec k pending_w) as (m' & E & _ & Hl & Hn & _).
      exists m'. repeat split; auto. }
    destruct Hsub as (pw1 & -> & Hl1 & Hw1).
    destruct (serve_requests_any (match l with [] => [] | _ => lookup k pending_w end)
                l responses) as (sv & l' & E & Hl & Hsv).
    assert (Hsvk : Forall (fun r => session_id r = k) sv).
    { rewrite Hl in Hol. now apply Forall_app in Hol. }
    assert (Hl'k : Forall (fun r => session_id r = k) l').
    { rewrite Hl in Hol. now apply Forall_app in Hol. }
    destruct (serve_requests _ l responses) as [[l0 rs0]|e [l0 rs0]|] eqn:Es;
      cbn [result] in E; [| |discriminate]; injection E as -> ->.
    + destruct (IH pw1 (responses ++ map stored sv) Hp' Hw1 Ho')
        as (p' & pw2 & added & Er & Hn' & Hin' & Hnw & Ho2 & Hl2 & Hser).
      exists (keep_nonempty k l' p'), pw2, (map stored sv ++ added).
      assert (Eb : result
                     (bind (serve_sessions pending pw1 (responses ++ map stored sv))
                        (fun '(m, pending_w0, responses0) =>
                           Normal (keep_nonempty k l' m, pending_w0, responses0))
                        (fun '(m, pending_w0, responses0) =>
                           (keep_nonempty k l' m, pending_w0, responses0)))
                   = Some (keep_nonempty k l' p', pw2,
                           responses ++ map stored sv ++ added)).
      { destruct (serve_sessions pending pw1 (responses ++ map stored sv))
          as [[[m0 w0] r0]|e0 [[m0 w0] r0]|]; cbn [result bind] in Er |- *;
          [| |discriminate]; injection Er as -> -> ->; now rewrite <- app_assoc. }
      rewrite Eb.
      assert (Hk' : ~ In k (keys p')) by (intros Hc; apply Hk; now apply Hin').
      split; [reflexivity|]. split; [|split; [|split; [|split; [|split]]]].
      * destruct l'; cbn [keep_nonempty keys map fst]; [assumption|].
        constructor; assumption.
      * intros t. destruct l'; cbn [keep_nonempty keys map fst In]; intros H.
        -- right. now apply Hin'.
        -- destruct H as [H|H]; [now left | right; now apply Hin'].
      * assumption.
      * destruct l'; cbn [keep_nonempty]; [assumption|]. constructor; assumption.
      * intros t. now rewrite Hl2, Hl1.
      * intros t. destruct (Z.eq_dec t k) as [->|Hne].
        -- exists sv. rewrite lookup_cons_eq.
           assert (Hlk : lookup k (keep_nonempty k l' p') = l').
           { destruct l'; cbn [keep_nonempty];
               [now apply lookup_not_key | apply lookup_cons_eq]. }
           rewrite Hlk. split; [assumption|]. split; [assumption|].
           rewrite responses_for_app, responses_for_stored_same by assumption.
           destruct (Hser k) as (sv' & Hsv1 & _ & Hsv3).
           rewrite (lookup_not_key k pending Hk) in Hsv1.
           symmetry in Hsv1. apply app_eq_nil in Hsv1 as [-> _].
           rewrite Hsv3. cbn [map]. now rewrite app_nil_r.
        -- destruct (Hser t) as (sv' & Hsv1 & Hsv2 & Hsv3).
           exists sv'. rewrite lookup_cons_neq by assumption.
           assert (Hlk : lookup t (keep_nonempty k l' p') = lookup t p').
           { destruct l'; cbn [keep_nonempty]; [reflexivity | now apply lookup_cons_neq]. }
           rewrite Hlk. split; [assumption|]. split; [assumption|].
           rewrite responses_for_app.
           rewrite (responses_for_stored_other k t sv Hne Hsvk). exact Hsv3.
    + exists ((k, l') :: pending), pw1, (map stored sv).
      split; [reflexivity|]. split; [|split; [|split; [|split; [|split]]]].
      * cbn [keys map fst]. constructor; assumption.
      * intros t H. exact H.
      * assumption.
      * constructor; assumption.
      * exact Hl1.
      * intros t. destruct (Z.eq_dec t k) as [->|Hne].
        -- exists sv. rewrite !lookup_cons_eq. split; [assumption|]. split; [assumption|].
           now apply responses_for_stored_same.
        -- exists []. rewrite !lookup_cons_neq by assumption.
           split; [reflexivity|]. split; [constructor|].
           now apply (responses_for_stored_other k t sv).
Qed.

End PhaseFacts.

(** ** One session through the phases *)

Module SessionFacts.
Import CommitProcessor ProcessorFacts MapFacts ReadFacts PhaseFacts ProcessorSpec.

Lemma increasing_app_r (a b : list Request) : increasing (a ++ b) -> increasing b.
Proof.
  induction a as [|r a IH]; [trivial|].
  cbn [app]. intros H. apply IH. now apply increasing_tail in H.
Qed.

Lemma increasing_app_l (a b : list Request) : increasing (a ++ b) -> increasing a.
Proof.
  unfold increasing. induction a as [|r a IH]; cbn [app map]; intros H; [constructor|].
  inversion H as [|? ? Hs Hall]; subst. constructor; [now apply IH|].
  rewrite map_app in Hall. now apply Forall_app in Hall.
Qed.

Lemma increasing_NoDup (l : list Request) : increasing l -> NoDup (map xid l).
Proof.
  unfold increasing. induction l as [|r l IH]; cbn [map]; intros H; [constructor|].
  inversion H as [|? ? Hs Hall]; subst. constructor; [|now apply IH].
  intros Hin. rewrite Forall_forall in Hall. specialize (Hall _ Hin). lia.
Qed.

Lemma stored_is_store (l : list Request) : Forall is_store (map stored l).
Proof. induction l; constructor; [now eexists | assumption]. Qed.

Lemma response_xid_stored (l : list Request) : map response_xid (map stored l) = map xid l.
Proof. induction l as [|r l IH]; [reflexivity|]. cbn [map]. now rewrite IH. Qed.

(** A commit of the session is popped and not applied. *)
Lemma ok_drop (E : list Request) (out : list Z) (P W C : list Request) (c : Request)
  (R : list ResponseForSession) :
  session_ok E out P W [] (c :: C) R -> session_ok E out P W [] C R.
Proof.
  intros (done & lost & H1 & H2 & H3 & H4 & H5).
  exists done, (lost ++ [xid c]). repeat split; try assumption.
  rewrite H5. cbn [map]. now rewrite <- app_assoc.
Qed.

(** While a commit of the session is queued, it has a pending write. *)
Lemma ok_nonempty (E : list Request) (out : list Z) (P W C : list Request) (c : Request)
  (R : list ResponseForSession) :
  session_ok E out P W [] (c :: C) R -> W <> [].
Proof.
  intros (done & lost & H1 & H2 & H3 & H4 & H5) ->.
  rewrite app_nil_r, <- H4 in H5. cbn [map] in H5.
  destruct lost; discriminate H5.
Qed.

(** A commit of the session meets the heads of both lists. *)
Lemma ok_match (s : Z) (E : list Request) (out : list Z) (ph wh c : Request)
  (pt wt C : list Request) (R : list ResponseForSession) :
  increasing E ->
  session_ok E out (ph :: pt) (wh :: wt) [] (c :: C) R ->
  xid wh = xid c -> xid ph = xid c ->
  session_ok E out pt wt [] C (R ++ [(s, StoreResponse c)]).
Proof.
  intros HE (done & lost & H1 & H2 & H3 & H4 & H5) Hw Hp.
  rewrite app_nil_r in H1, H5.
  assert (Hnd : NoDup (map xid (ph :: pt))).
  { apply increasing_NoDup. rewrite H1 in HE. now apply increasing_app_r in HE. }
  cbn [map] in Hnd. apply NoDup_cons_iff in Hnd as [Hnin _].
  assert (Hph : isReadRequest ph = false /\ wt = writes pt).
  { unfold writes in H4. cbn [filter] in H4. unfold is_write at 1 in H4.
    destruct (isReadRequest ph); cbn [negb] in H4.
    - exfalso. apply Hnin. rewrite Hp, <- Hw. apply in_map.
      apply writes_In. unfold writes. rewrite <- H4. now left.
    - injection H4 as _ H4. now split. }
  destruct Hph as [Hph Hwt].
  assert (Hws : writes (ph :: pt) = ph :: writes pt).
  { unfold writes. cbn [filter]. unfold is_write at 1. now rewrite Hph. }
  rewrite Hws in H5. cbn [map] in H5.
  assert (Hlost : lost = []).
  { destruct lost as [|l0 lost]; [reflexivity|]. exfalso.
    cbn [app] in H5. injection H5 as _ H5. apply Hnin.
    assert (Hin : In (xid c) (map xid (writes pt))).
    { rewrite H5. apply in_or_app. right. now left. }
    rewrite Hp. apply in_map_iff in Hin as (q & Hq & Hin).
    rewrite <- Hq. apply in_map. now apply writes_In. }
  subst lost. cbn [app] in H5. injection H5 as _ H5.
  exists (done ++ [ph]), []. split; [|split; [|split; [|split]]].
  - rewrite H1, app_nil_r, <- app_assoc. reflexivity.
  - rewrite !map_app, H2. cbn [map response_xid snd]. now rewrite Hp.
  - apply Forall_app. split; [assumption|]. constructor; [now eexists | constructor].
  - exact Hwt.
  - rewrite app_nil_r. exact H5.
Qed.

(** Leading reads of the session are served. *)
Lemma ok_serve (E : list Request) (out : list Z) (sv P W Q C : list Request)
  (R : list ResponseForSession) :
  session_ok E out (sv ++ P) W Q C R ->
  Forall (fun r => isReadRequest r = true) sv ->
  session_ok E out P W Q C (R ++ map stored sv).
Proof.
  intros (done & lost & H1 & H2 & H3 & H4 & H5) Hsv.
  exists (done ++ sv), lost. split; [|split; [|split; [|split]]].
  - rewrite H1, <- !app_assoc. reflexivity.
  - now rewrite !map_app, H2, response_xid_stored.
  - apply Forall_app. split; [assumption | apply stored_is_store].
  - rewrite H4, writes_app, (writes_reads sv Hsv). reflexivity.
  - rewrite <- H5, <- app_assoc, (writes_app sv), (writes_reads sv Hsv). reflexivity.
Qed.

(** The session's queued requests are moved to its pending lists. *)
Lemma ok_drain (E : list Request) (out : list Z) (P W Q C : list Request)
  (R : list ResponseForSession) :
  session_ok E out P W Q C R -> session_ok E out (P ++ Q) (W ++ writes Q) [] C R.
Proof.
  intros (done & lost & H1 & H2 & H3 & H4 & H5).
  exists done, lost. repeat split; try assumption.
  - now rewrite app_nil_r.
  - now rewrite H4, writes_app.
  - now rewrite app_nil_r.
Qed.

Lemma on_cons_same (s : Z) (c : Request) (l : list Request) :
  session_id c = s -> on s (c :: l) = c :: on s l.
Proof. intros H. unfold on. cbn [filter]. now rewrite H, Z.eqb_refl. Qed.

Lemma on_cons_other (s : Z) (c : Request) (l : list Request) :
  session_id c <> s -> on s (c :: l) = on s l.
Proof.
  intros H. unfold on. cbn [filter]. destruct (Z.eqb_spec (session_id c) s); [contradiction|].
  reflexivity.
Qed.

Lemma responses_for_snoc_other (s t : Z) (l : list ResponseForSession) (x : Response) :
  t <> s -> responses_for s (l ++ [(t, x)]) = responses_for s l.
Proof.
  intros H. rewrite responses_for_app. unfold responses_for at 2. cbn [filter fst].
  destruct (Z.eqb_spec t s); [contradiction | apply app_nil_r].
Qed.

Lemma responses_for_snoc_same (s : Z) (l : list ResponseForSession) (x : Response) :
  responses_for s (l ++ [(s, x)]) = responses_for s l ++ [(s, x)].
Proof.
  rewrite responses_for_app. unfold responses_for at 2. cbn [filter fst].
  now rewrite Z.eqb_refl.
Qed.

(** A popped commit that is not applied, of whichever session. *)
Lemma ok_skip (s : Z) (E : list Request) (out : list Z) (P W : list Request) (c : Request)
  (cq : list Request) (R : list ResponseForSession) :
  session_ok E out P W [] (on s (c :: cq)) R -> session_ok E out P W [] (on s cq) R.
Proof.
  destruct (Z.eq_dec (session_id c) s) as [He|Hne].
  - rewrite on_cons_same by assumption. apply ok_drop.
  - now rewrite on_cons_other by assumption.
Qed.

Lemma writes_cons_length (r : Request) (l : list Request) :
  (length (writes (r :: l)) <= S (length (writes l)))%nat.
Proof. unfold writes. cbn [filter]. destruct (is_write r); cbn [length]; lia. Qed.

(** The loop over the committed requests: undefined behaviour does not
    occur, and what holds of the maps and of the session is kept, whether
    the loop completes or throws. *)
Lemma apply_committed_inv (s : Z) (E : list Request) (out : list Z) :
  increasing E ->
  forall (queued : list Request) (pending pending_w : PendingMap)
         (responses : list ResponseForSession),
  maps_ok pending pending_w ->
  session_ok E out (lookup s pending) (lookup s pending_w) []
    (on s queued) (responses_for s responses) ->
  exists queued' pending' pending_w' responses',
    result (apply_committed queued pending pending_w responses)
    = Some (queued', pending', pending_w', responses')
    /\ maps_ok pending' pending_w'
    /\ session_ok E out (lookup s pending') (lookup s pending_w') []
         (on s queued') (responses_for s responses').
Proof.
  intros HE. induction queued as [|c cq IH]; intros pending pending_w responses Hm Hs.
  - exists [], pending, pending_w, responses. repeat split; try apply Hm; assumption.
  - cbn [apply_committed]. set (t := session_id c) in *.
    destruct Hm as (Hp & Hw & Ho & Hc).
    destruct (subscript_spec t pending_w) as (pw1 & -> & Hin1 & Hl1 & Hn1 & _).
    specialize (Hn1 Hw).
    assert (Hc1 : covered pending pw1) by (intros u; rewrite Hl1; apply Hc).
    rewrite <- (Hl1 s) in Hs.
    destruct (lookup t pending_w) as [|wh wt] eqn:Ew.
    + assert (Hne : t <> s).
      { intros Heq. rewrite on_cons_same in Hs by assumption.
        apply ok_nonempty in Hs. apply Hs. now rewrite Hl1, <- Heq, Ew. }
      apply IH; [repeat split; assumption|].
      rewrite responses_for_snoc_other by assumption.
      now rewrite on_cons_other in Hs by assumption.
    + destruct (Z.eqb_spec (xid wh) (xid c)) as [Hxw|Hxw]; cbn [negb].
      * destruct (subscript_spec t pending) as (pend1 & -> & Hin2 & Hl2 & Hn2 & Ho2).
        specialize (Hn2 Hp). specialize (Ho2 Ho).
        assert (Hc2 : covered pend1 pw1) by (intros u; rewrite Hl2; apply Hc1).
        rewrite <- (Hl2 s) in Hs.
        destruct (lookup t pending) as [|ph pt] eqn:Ep.
        { exfalso. specialize (Hc t). rewrite Ew, Ep in Hc. cbn in Hc. lia. }
        destruct (Z.eqb_spec (xid ph) (xid c)) as [Hxp|Hxp]; cbn [negb].
        -- assert (Hpt : Forall (fun r => session_id r = t) pt).
           { pose proof (owned_lookup t pending Ho) as H. rewrite Ep in H.
             now inversion H. }
           destruct (pop_spec t wt pw1 Hin1 Hn1) as (Hw1 & Hw2 & Hw3 & _).
           destruct (pop_spec t pt pend1 Hin2 Hn2) as (Hp1 & Hp2 & Hp3 & Hp4).
           apply IH.
           ++ split; [assumption|]. split; [assumption|]. split; [now apply Hp4|].
              intros u. destruct (Z.eq_dec u t) as [->|Hu].
              ** rewrite Hw1, Hp1. specialize (Hc t). rewrite Ew, Ep in Hc.
                 pose proof (writes_cons_length ph pt). cbn [length] in Hc. lia.
              ** rewrite Hw2, Hp2 by assumption. apply Hc2.
           ++ destruct (Z.eq_dec t s) as [Heq|Hne].
              ** rewrite Heq in *. rewrite Hw1, Hp1.
                 rewrite responses_for_snoc_same.
                 rewrite on_cons_same in Hs by assumption.
                 rewrite Hl2, Ep, Hl1, Ew in Hs.
                 now apply (ok_match s E out ph wh c).
              ** rewrite Hw2, Hp2 by congruence.
                 rewrite responses_for_snoc_other by assumption.
                 now rewrite on_cons_other in Hs by assumption.
        -- exists cq, pend1, pw1, responses. split; [reflexivity|].
           split; [repeat split; assumption|]. now apply ok_skip in Hs.
      * exists cq, pending, pw1, responses. split; [reflexivity|].
        split; [repeat split; assumption|]. now apply ok_skip in Hs.
Qed.

End SessionFacts.

(** ** Runs of the processor and the order of a session's responses *)

Module OrderClaims.
Import CommitProcessor ProcessorFacts MapFacts ReadFacts PhaseFacts SessionFacts ProcessorSpec.

Lemma enqueued_snoc (s : Z) (events : list Event) (e : Event) :
  enqueued s (events ++ [e]) = enqueued s events ++ on s (requests_of e).
Proof. unfold enqueued. rewrite flat_map_app, on_app. cbn [flat_map]. now rewrite app_nil_r. Qed.

Lemma committed_snoc (s : Z) (events : list Event) (e : Event) :
  committed s (events ++ [e]) = committed s events ++ on s (commits_of e).
Proof. unfold committed. rewrite flat_map_app, on_app. cbn [flat_map]. now rewrite app_nil_r. Qed.

Lemma commits_follow_prefix (s : Z) (events : list Event) (e : Event) :
  commits_follow s (events ++ [e]) -> commits_follow s events.
Proof.
  intros H before after ->. apply (H before (after ++ [e])). now rewrite app_assoc.
Qed.

Lemma commits_follow_here (s : Z) (events : list Event) :
  commits_follow s events ->
  exists rest, write_xids s events = map xid (committed s events) ++ rest.
Proof. intros H. apply (H events []). now rewrite app_nil_r. Qed.

(** The part of an iteration after the error phase. *)
Lemma process_queues_ok (s : Z) (E : list Request) (out : list Z) (st : State) :
  increasing E ->
  maps_ok (pending_requests st) (pending_write_requests st) ->
  session_ok E out
    (lookup s (pending_requests st)) (lookup s (pending_write_requests st))
    (on s (requests_queue st)) (on s (committed_queue st))
    (responses_for s (responses_queue st)) ->
  exists st',
    result (process_queues st) = Some st'
    /\ shutdown_called st' = shutdown_called st
    /\ errors st' = errors st
    /\ maps_ok (pending_requests st') (pending_write_requests st')
    /\ session_ok E out
         (lookup s (pending_requests st')) (lookup s (pending_write_requests st'))
         (on s (requests_queue st')) (on s (committed_queue st'))
         (responses_for s (responses_queue st')).
Proof.
  intros HE (Hp & Hw & Ho & Hc) Hs. unfold process_queues.
  pose proof (drain_requests_spec (requests_queue st) (pending_requests st)
                (pending_write_requests st) Hp Hw Ho) as Hd.
  destruct (drain_requests (requests_queue st) (pending_requests st)
              (pending_write_requests st)) as [pend1 pw1].
  cbv zeta in Hd. cbn [fst snd] in Hd. destruct Hd as (Hp1 & Hw1 & Ho1 & Hl1 & Hlw1).
  apply ok_drain in Hs. rewrite <- Hl1, <- Hlw1 in Hs.
  destruct (serve_sessions_any pend1 pw1 (responses_queue st) Hp1 Hw1 Ho1)
    as (pend2 & pw2 & added & Er & Hp2 & _ & Hw2 & Ho2 & Hlw2 & Hser).
  assert (Hc2 : covered pend2 pw2).
  { intros t. rewrite Hlw2, Hlw1. destruct (Hser t) as (sv & Hsv1 & Hsv2 & _).
    rewrite Hl1 in Hsv1. specialize (Hc t).
    assert (Hwr : writes (lookup t pend2)
                  = writes (lookup t (pending_requests st) ++ on t (requests_queue st))).
    { rewrite Hsv1, writes_app, (writes_reads sv Hsv2). reflexivity. }
    rewrite Hwr, writes_app, !length_app. lia. }
  assert (Hs2 : session_ok E out (lookup s pend2) (lookup s pw2) []
                  (on s (committed_queue st))
                  (responses_for s (responses_queue st ++ added))).
  { destruct (Hser s) as (sv & Hsv1 & Hsv2 & Hsv3).
    rewrite responses_for_app, Hsv3, Hlw2. rewrite Hsv1 in Hs.
    now apply ok_serve. }
  destruct (serve_sessions pend1 pw1 (responses_queue st))
    as [[[p w] rs]|e [[p w] rs]|]; cbn [result] in Er; [| |discriminate];
    injection Er as -> -> ->; cbn [bind].
  - destruct (apply_committed_inv s E out HE (committed_queue st) pend2 pw2
                (responses_queue st ++ added))
      as (cq' & pend3 & pw3 & rs3 & Ea & Hm3 & Hs3);
      [repeat split; assumption | assumption |].
    destruct (apply_committed (committed_queue st) pend2 pw2 (responses_queue st ++ added))
      as [[[[c p] w] rs]|e [[[c p] w] rs]|]; cbn [result] in Ea; [| |discriminate];
      injection Ea as -> -> -> ->; cbn [bind result];
      eexists; (split; [reflexivity|]);
      cbn [shutdown_called errors pending_requests pending_write_requests
           requests_queue committed_queue responses_queue];
      repeat split; try apply Hm3; assumption.
  - cbn [result]. eexists. split; [reflexivity|].
    cbn [shutdown_called errors pending_requests pending_write_requests
         requests_queue committed_queue responses_queue].
    repeat split; assumption.
Qed.

Lemma iterate_ok (s : Z) (events : list Event) (st : State) :
  increasing (enqueued s events) -> state_ok s events st ->
  exists st', step st Iterate = Some st' /\ state_ok s (events ++ [Iterate]) st'.
Proof.
  intros HE (Hsd & Herr & Hm & Hs).
  assert (Hok : forall st', state_ok s events st' -> state_ok s (events ++ [Iterate]) st').
  { unfold state_ok, outstanding, write_xids. intros st'.
    rewrite enqueued_snoc, committed_snoc. cbn [requests_of commits_of on filter].
    now rewrite !app_nil_r. }
  cbn [step]. unfold run3_iteration. rewrite Hsd.
  destruct (need_wait st).
  - exists st. split; [reflexivity|]. apply Hok.
    split; [assumption|]. split; [assumption|]. split; assumption.
  - unfold drain_errors. rewrite Herr. cbn [bind].
    destruct (process_queues_ok s _ _ st HE Hm Hs) as (st' & Er & H1 & H2 & H3 & H4).
    exists st'. split.
    + destruct (process_queues st); cbn [result] in Er; [| |discriminate];
        injection Er as ->; reflexivity.
    + apply Hok. split; [congruence|]. split; [congruence|]. split; assumption.
Qed.

Lemma skipn_snoc (n : nat) (l : list Z) (x : list Z) :
  (n <= length l)%nat -> skipn n (l ++ x) = skipn n l ++ x.
Proof.
  intros H. rewrite skipn_app. replace (n - length l)%nat with 0%nat by lia. reflexivity.
Qed.

Lemma process_ok (s : Z) (events : list Event) (st : State) (r : Request) :
  commits_follow s events -> state_ok s events st ->
  state_ok s (events ++ [ProcessRequest r]) (processRequest r st).
Proof.
  intros Hcf (Hsd & Herr & Hm & Hs).
  unfold processRequest. rewrite Hsd. cbn [negb].
  unfold state_ok, outstanding, write_xids.
  cbn [shutdown_called errors pending_requests pending_write_requests
       requests_queue committed_queue responses_queue].
  split; [reflexivity|]. split; [assumption|]. split; [assumption|].
  rewrite enqueued_snoc, committed_snoc, on_app. cbn [requests_of commits_of].
  change (on s []) with (@nil Request). rewrite app_nil_r.
  destruct Hs as (done & lost & H1 & H2 & H3 & H4 & H5).
  exists done, lost. split; [|split; [|split; [|split]]]; try assumption.
  - now rewrite H1, <- !app_assoc.
  - rewrite app_assoc, writes_app, map_app, H5.
    destruct (commits_follow_here s events Hcf) as (rest & Hrest).
    unfold outstanding, write_xids in *.
    rewrite (writes_app (enqueued s events)), map_app, skipn_snoc, <- !app_assoc;
      [reflexivity|].
    rewrite Hrest, length_app, length_map. lia.
Qed.

Lemma skipn_length_app (a x : list Z) : skipn (length a) (a ++ x) = x.
Proof. induction a as [|z a IH]; [reflexivity | exact IH]. Qed.

Lemma commit_ok (s : Z) (events : list Event) (st : State) (c : Request) :
  commits_follow s (events ++ [Commit c]) -> state_ok s events st ->
  state_ok s (events ++ [Commit c]) (commit c st).
Proof.
  intros Hcf (Hsd & Herr & Hm & Hs).
  unfold commit. rewrite Hsd. cbn [negb].
  unfold state_ok.
  cbn [shutdown_called errors pending_requests pending_write_requests
       requests_queue committed_queue responses_queue].
  split; [reflexivity|]. split; [assumption|]. split; [assumption|].
  destruct (commits_follow_here s _ Hcf) as (rest & Hrest).
  unfold outstanding, write_xids in *.
  rewrite enqueued_snoc, committed_snoc in *. cbn [requests_of commits_of] in *.
  change (on s []) with (@nil Request) in *. rewrite app_nil_r in *.
  rewrite on_app.
  destruct Hs as (done & lost & H1 & H2 & H3 & H4 & H5).
  exists done, lost. split; [|split; [|split; [|split]]]; try assumption.
  rewrite H5, Hrest. f_equal.
  rewrite !map_app, <- !app_assoc.
  rewrite <- (length_map xid (committed s events)).
  rewrite skipn_length_app. f_equal.
  rewrite <- (length_map xid (committed s events ++ on s [c])), map_app, app_assoc.
  now rewrite skipn_length_app.
Qed.

Lemma initial_ok (s : Z) : state_ok s [] initial.
Proof.
  split; [reflexivity|]. split; [reflexivity|]. split.
  - split; [constructor|]. split; [constructor|]. split; [constructor|].
    intros t. cbn. lia.
  - exists [], []. cbn. repeat split; constructor.
Qed.

(** Every run of a running processor is defined and keeps the invariant. *)
Lemma run_ok (s : Z) (events : list Event) :
  Forall running events ->
  increasing (enqueued s events) ->
  commits_follow s events ->
  exists st, run events initial = Some st /\ state_ok s events st.
Proof.
  induction events as [|e events IH] using rev_ind; intros Hr HE Hcf.
  - exists initial. split; [reflexivity | apply initial_ok].
  - apply Forall_app in Hr as [Hr He]. inversion He as [|? ? He' _]; subst.
    assert (HE' : increasing (enqueued s events)).
    { rewrite enqueued_snoc in HE. now apply increasing_app_l in HE. }
    pose proof (commits_follow_prefix s events e Hcf) as Hcf'.
    destruct (IH Hr HE' Hcf') as (st & Hrun & Hok).
    rewrite run_app, Hrun. cbn [run].
    destruct e as [r|c| | |]; cbn [running] in He'; try contradiction.
    + cbn [step]. eexists. split; [reflexivity | now apply process_ok].
    + cbn [step]. eexists. split; [reflexivity | now apply commit_ok].
    + destruct (iterate_ok s events st HE' Hok) as (st' & -> & Hok').
      exists st'. split; [reflexivity | assumption].
Qed.

(** *** Runs in which the worker keeps up with the commits *)

























(** What the session is due in that run: with its one write committed,
    all three of its requests. *)
Example two_sessions_due :
  map xid (through_commits (length (committed 1 two_sessions)) (enqueued 1 two_sessions))
  = [1; 2; 3].
Proof. reflexivity. Qed.


(** What that run pushes: session 1 is answered in the order 1, 2, 3. *)
Example two_sessions_responses :
  option_map responses_queue (run two_sessions initial)
  = Some [stored (mkRequest 1 1 true); stored (mkRequest 1 2 false);
          stored (mkRequest 1 3 true); stored (mkRequest 2 5 false)].
Proof. reflexivity. Qed.

(** The state that run ends in. *)
Example two_commits_state :
  run two_commits initial
  = Some (mkState [] false
            [stored (mkRequest 1 2 false); stored (mkRequest 1 3 true)] []
            [(1, [mkRequest 1 4 false])] [(1, [mkRequest 1 4 false])] []).
Proof. reflexivity. Qed.

End OrderClaims.

(** ** More on the batch body *)

Module CodecMore.
Import IO Checksum Snapshot SnapshotMore SnapshotSpec IOFacts CodecFacts SnapshotMoreSpec.

(** X1: the serialized form of a batch body is self-delimiting: when two
    byte strings that each start with the encoding of a representable body
    are equal, the bodies are equal and so is what follows them. In
    particular [serialize] is injective on representable bodies. *)
Theorem serialize_self_delimiting (b1 b2 : SnapshotBatchBody) (rest1 rest2 : list byte) :
  representable b1 -> representable b2 ->
  serialize b1 ++ rest1 = serialize b2 ++ rest2 ->
  b1 = b2 /\ rest1 = rest2.
Proof.
  intros H1 H2 H.
  pose proof (parse_serialize_app b1 rest1 H1) as P1.
  pose proof (parse_serialize_app b2 rest2 H2) as P2.
  rewrite H, P2 in P1. injection P1 as <-.
  split; [reflexivity|]. now apply app_inv_head in H.
Qed.

Lemma representable_body_ab : representable body_ab.
Proof.
  unfold representable, in_int32, small, body_ab; cbn [type elements length].
  split; [lia|]. split; [reflexivity|]. repeat constructor.
Qed.

Lemma serialize_self_delimiting_witness :
  body_ab = body_ab /\ [x01] = [x01].
Proof.
  apply (serialize_self_delimiting body_ab body_ab [x01] [x01]).
  - apply representable_body_ab.
  - apply representable_body_ab.
  - reflexivity.
Defined.

(** X2: [add] appends: the size grows by one, the type and the elements
    already there keep their place, the new element is the one at the old
    size, and [operator[]] throws at every index from the size on. The
    element is still the last one after the body went through [serialize]
    and [parse]. *)
Theorem add_then_index (b : SnapshotBatchBody) (element : list byte) :
  size (add element b) = S (size b)
  /\ type (add element b) = type b
  /\ at_index (add element b) (size b) = Some element
  /\ (forall n, (n < size b)%nat -> at_index (add element b) n = at_index b n)
  /\ (forall n, (size (add element b) <= n)%nat -> at_index (add element b) n = None)
  /\ (representable (add element b) ->
      exists b', parse (serialize (add element b)) = inr b'
                 /\ size b' = S (size b)
                 /\ at_index b' (size b) = Some element).
Proof.
  unfold size, at_index, add. cbn [elements type].
  split; [rewrite length_app; cbn [length]; lia|].
  split; [reflexivity|].
  split; [rewrite nth_error_app2, Nat.sub_diag by lia; reflexivity|].
  split; [intros n Hn; now apply nth_error_app1|].
  split; [intros n Hn; now apply nth_error_None|].
  intros Hr. exists (mkBody (type b) (elements b ++ [element])).
  split.
  - rewrite <- (app_nil_r (serialize _)). now apply parse_serialize_app.
  - cbn [elements]. split; [rewrite length_app; cbn [length]; lia|].
    rewrite nth_error_app2, Nat.sub_diag by lia. reflexivity.
Qed.

Lemma add_then_index_witness :
  exists b', parse (serialize (add (list_byte_of_string "cd") body_ab)) = inr b'
             /\ size b' = S (size body_ab)
             /\ at_index b' (size body_ab) = Some (list_byte_of_string "cd").
Proof.
  apply (proj2 (proj2 (proj2 (proj2 (proj2
           (add_then_index body_ab (list_byte_of_string "cd"))))))).
  unfold representable, in_int32, small, body_ab, add; cbn [type elements length app].
  split; [lia|]. split; [reflexivity|]. repeat constructor.
Defined.

End CodecMore.

(** ** More on the files the serializers write *)

Module SerializerMore.
Import IO Checksum Snapshot SnapshotMore SnapshotSpec IOFacts ChecksumFacts CodecFacts SerializerFacts SnapshotClaims SnapshotMoreSpec.

Section Generic.
Context {A : Type}.
Variables (ty fresh : Z) (record : A -> list byte).

Lemma checked_loop (n : nat) (out0 : list byte) (c0 : Z) (Hn : (0 < n)%nat) :
  forall (l : list A) full cur k,
  (1 <= length cur <= n)%nat ->
  1 <= k -> k + Z.of_nat (length l) < 2 ^ 64 ->
  k mod Z.of_nat n = Z.of_nat (length cur) mod Z.of_nat n ->
  for_each (checked_body ty fresh record (Z.of_nat n)) l
    (out0 ++ frames (map (mkBody ty) full), Some (mkBody ty cur), k,
     file_checksum (map (mkBody ty) full) c0)
  = let '(full', cur') := group n full cur (map record l) in
    Some (out0 ++ frames (map (mkBody ty) full'), Some (mkBody ty cur'),
          k + Z.of_nat (length l), file_checksum (map (mkBody ty) full') c0).
Proof.
  induction l as [|a l IH]; intros full cur k Hc Hk Hb Hm.
  - cbn [for_each map group length]. now rewrite Z.add_0_r.
  - cbn [for_each map group]. cbn [length] in Hb.
    unfold checked_body at 1.
    destruct (Z.eqb_spec (Z.of_nat n) 0) as [Hz|_]; [lia|].
    rewrite (flush_test n k cur Hn Hc Hm).
    pose proof (next_index n k cur _ Hn Hc Hm eq_refl) as Hnext.
    replace ((k + 1) mod 2 ^ 64) with (k + 1) by (symmetry; apply Z.mod_small; lia).
    replace (k + Z.of_nat (length (a :: l))) with (k + 1 + Z.of_nat (length l))
      by (cbn [length]; lia).
    destruct (Nat.eqb_spec (length cur) n) as [He|Hne].
    + destruct (Z.eqb_spec k 0) as [Hk0|_]; [lia|]. cbn [negb].
      unfold saveBatchAndUpdateCheckSumV2. rewrite saveBatchV2_frame.
      unfold add. cbn [type elements app].
      specialize (IH (full ++ [cur]) [record a] (k + 1)).
      rewrite map_app in IH. cbn [map] in IH.
      rewrite frames_snoc, file_checksum_snoc, app_assoc in IH.
      rewrite IH; [| cbn [length]; lia | lia | lia | exact Hnext].
      destruct (group n (full ++ [cur]) [record a] (map record l)).
      reflexivity.
    + unfold add. cbn [type elements].
      rewrite (IH full (cur ++ [record a]) (k + 1));
        [| rewrite length_app; cbn [length]; lia | lia | lia
         | rewrite length_app; cbn [length];
           replace (length cur + 1)%nat with (S (length cur)) by lia; exact Hnext].
      destruct (group n full (cur ++ [record a]) (map record l)).
      reflexivity.
Qed.

(** The loop from its initial state, then the final flush and the tail. *)
Lemma checked_layout (l : list A) (save_batch_size : Z) (version : SnapshotVersion) :
  0 < save_batch_size -> Z.of_nat (length l) < 2 ^ 64 ->
  match for_each (checked_body ty fresh record save_batch_size) l
          (openFileAndWriteHeader version, None, 0, 0) with
  | None => None
  | Some (out, batch, index, checksum) =>
      let '(out, _, (_, new_checksum)) :=
        saveBatchAndUpdateCheckSumV2 fresh out batch checksum in
      Some (writeTailAndClose out new_checksum)
  end
  = Some (checked_file version
            (batches ty fresh (Z.to_nat save_batch_size) (map record l))).
Proof.
  intros Hs Hl. unfold checked_file.
  set (out0 := openFileAndWriteHeader version).
  assert (Hout : out0 = MAGIC_SNAPSHOT_HEAD ++ le_bytes 1 (version_byte version))
    by reflexivity.
  destruct l as [|a l].
  - cbn [for_each map batches].
    unfold saveBatchAndUpdateCheckSumV2. rewrite saveBatchV2_null, saveBatchV2_frame.
    unfold writeTailAndClose, writeIntBinary.
    rewrite Hout. unfold frames, file_checksum. cbn [map concat fold_left].
    rewrite app_nil_r, <- !app_assoc. reflexivity.
  - cbn [for_each map batches]. cbn [length] in Hl.
    unfold checked_body at 1.
    destruct (Z.eqb_spec save_batch_size 0) as [Hz|_]; [lia|].
    rewrite Zmod_0_l. cbn [Z.eqb negb]. unfold add. cbn [type elements app].
    change ((0 + 1) mod 2 ^ 64) with 1.
    pose proof (checked_loop (Z.to_nat save_batch_size) out0 0 ltac:(lia)
                  l [] [record a] 1) as H.
    rewrite Z2Nat.id in H by lia.
    cbn [map] in H. change (frames []) with (@nil byte) in H.
    change (file_checksum [] 0) with 0 in H. rewrite app_nil_r in H.
    rewrite H; [| cbn [length]; lia | lia | lia | reflexivity].
    destruct (group (Z.to_nat save_batch_size) [] [record a] (map record l))
      as [full cur].
    unfold saveBatchAndUpdateCheckSumV2. rewrite saveBatchV2_frame.
    unfold writeTailAndClose, writeIntBinary.
    rewrite map_app. cbn [map]. rewrite frames_snoc, file_checksum_snoc.
    rewrite Hout, <- !app_assoc. reflexivity.
Qed.

End Generic.

Lemma concat_full_length (n : nat) (full : list (list (list byte))) :
  Forall (fun b => length b = n) full -> length (concat full) = (n * length full)%nat.
Proof.
  induction 1 as [|b full Hb _ IH]; cbn [concat length]; [lia|].
  rewrite length_app, IH, Hb. lia.
Qed.

(** How the records of a collection are cut into batches. *)
Lemma batches_structure (ty fresh : Z) (n : nat) (r : list byte) (records : list (list byte)) :
  (0 < n)%nat ->
  exists full cur,
    batches ty fresh n (r :: records) = map (mkBody ty) (full ++ [cur])
    /\ concat full ++ cur = r :: records
    /\ Forall (fun b => length b = n) full
    /\ (1 <= length cur <= n)%nat.
Proof.
  intros Hn. cbn [batches].
  destruct (group n [] [r] records) as [full cur] eqn:E.
  exists full, cur. split; [reflexivity|].
  apply group_spec in E; [|cbn [length]; lia | constructor].
  exact E.
Qed.

(** The batches of a collection that is not empty: the records in order,
    [save_batch_size] to a batch, a last batch that is not empty, and
    as many batches as the size of the collection divided by the batch size,
    rounded up. *)
Lemma batches_count {A : Type} (ty fresh : Z) (record : A -> list byte) (l : list A)
  (save_batch_size : Z) :
  l <> [] -> 0 < save_batch_size ->
  exists full cur,
    batches ty fresh (Z.to_nat save_batch_size) (map record l)
      = map (mkBody ty) (full ++ [cur])
    /\ concat full ++ cur = map record l
    /\ Forall (fun b => Z.of_nat (length b) = save_batch_size) full
    /\ 1 <= Z.of_nat (length cur) <= save_batch_size
    /\ Z.of_nat (length (full ++ [cur]))
       = (Z.of_nat (length l) + save_batch_size - 1) / save_batch_size.
Proof.
  intros Hne Hs. destruct l as [|a l]; [congruence|]. cbn [map].
  destruct (batches_structure ty fresh (Z.to_nat save_batch_size) (record a)
              (map record l) ltac:(lia)) as (full & cur & Hb & Hc & Hf & Hl).
  exists full, cur. split; [exact Hb|]. split; [exact Hc|].
  split; [eapply Forall_impl; [|exact Hf]; cbn beta; intros b Hbl; lia|].
  split; [lia|].
  pose proof (concat_full_length _ _ Hf) as Hlen.
  apply (f_equal (@length _)) in Hc.
  rewrite length_app, Hlen in Hc. cbn [length] in Hc. rewrite length_map in Hc.
  rewrite length_app. cbn [length].
  apply (Z.div_unique _ _ _ (Z.of_nat (length cur) - 1)); [lia|].
  replace (Z.of_nat (length (a :: l))) with (Z.of_nat (S (length l)))
    by reflexivity.
  rewrite <- Hc. nia.
Qed.

(** Every batch of a collection decodes to itself when the tags, the batch
    size and the records fit an [int32_t]. *)
Lemma batches_representable (ty fresh : Z) (n : nat) (records : list (list byte)) :
  in_int32 ty -> in_int32 fresh -> (0 < n)%nat -> Z.of_nat n < 2 ^ 31 ->
  Forall small records ->
  Forall representable (batches ty fresh n records).
Proof.
  intros Hty Hfr Hn Hn31 Hsm. destruct records as [|r records].
  - cbn [batches]. constructor; [|constructor].
    unfold representable. cbn [type elements length].
    split; [exact Hfr|]. split; [reflexivity | constructor].
  - destruct (batches_structure ty fresh n r records Hn)
      as (full & cur & Hb & Hc & Hf & Hl).
    rewrite Hb. rewrite <- Hc in Hsm. apply Forall_app in Hsm as [Hsf Hsc].
    apply Forall_map, Forall_app. split.
    + apply Forall_forall. intros b Hin. unfold representable. cbn [type elements].
      split; [exact Hty|]. rewrite Forall_forall in Hf. rewrite (Hf b Hin).
      split; [exact Hn31|].
      apply Forall_forall. intros e He. rewrite Forall_forall in Hsf.
      apply Hsf. apply in_concat. exists b. now split.
    + constructor; [|constructor]. unfold representable. cbn [type elements].
      split; [exact Hty|]. split; [lia | exact Hsc].
Qed.

(** X3: [serializeAclsV2] on an ACL map that is not empty writes the head
    magic, the version byte, the batches, the tail magic and the checksum
    folded over the batches; the batches hold the records of the map in
    iteration order under the ACL map tag, every batch but the last holds
    exactly [save_batch_size] records, the last holds between one and
    [save_batch_size], and their number is the size of the map divided by
    [save_batch_size], rounded up. *)
Theorem serializeAclsV2_batching (ACLMAP fresh : Z) (acls : ACLMap) (path : string)
  (save_batch_size : Z) (version : SnapshotVersion) :
  acls <> [] -> 0 < save_batch_size -> Z.of_nat (length acls) < 2 ^ 64 ->
  exists full cur,
    serializeAclsV2 ACLMAP fresh acls path save_batch_size version
      = Some (checked_file version (map (mkBody ACLMAP) (full ++ [cur])))
    /\ concat full ++ cur = map acl_record acls
    /\ Forall (fun b => Z.of_nat (length b) = save_batch_size) full
    /\ 1 <= Z.of_nat (length cur) <= save_batch_size
    /\ Z.of_nat (length (full ++ [cur]))
       = (Z.of_nat (length acls) + save_batch_size - 1) / save_batch_size.
Proof.
  intros Hne Hs Hl.
  destruct (batches_count ACLMAP fresh acl_record acls save_batch_size Hne Hs)
    as (full & cur & Hb & Hrest).
  exists full, cur. split; [|exact Hrest].
  rewrite (serializeAclsV2_layout ACLMAP fresh acls path save_batch_size version Hs Hl).
  cbv zeta. rewrite Hb. reflexivity.
Qed.

Lemma serializeAclsV2_batching_witness :
  exists full cur,
    serializeAclsV2 2 0 three_acls "snapshot"%string 2 V3
      = Some (checked_file V3 (map (mkBody 2) (full ++ [cur])))
    /\ concat full ++ cur = map acl_record three_acls
    /\ Forall (fun b => Z.of_nat (length b) = 2) full
    /\ 1 <= Z.of_nat (length cur) <= 2
    /\ Z.of_nat (length (full ++ [cur])) = (Z.of_nat (length three_acls) + 2 - 1) / 2.
Proof.
  apply (serializeAclsV2_batching 2 0 three_acls "snapshot"%string 2 V3).
  - discriminate.
  - lia.
  - cbn [three_acls length]. lia.
Defined.

(** X4: every batch of the file [serializeAclsV2] writes can be read back:
    when the tags and the batch size fit an [int32_t] and every record is
    shorter than 2^31 bytes (and the map has fewer than 2^64 entries), the
    file is the header, the framed batches and
    the tail for a list of bodies each of which [parse] recovers from its
    serialized form, and the elements of the bodies, in file order, are the
    records of the map. *)
Theorem serializeAclsV2_batches_parse (ACLMAP fresh : Z) (acls : ACLMap) (path : string)
  (save_batch_size : Z) (version : SnapshotVersion) :
  in_int32 ACLMAP -> in_int32 fresh ->
  0 < save_batch_size < 2 ^ 31 -> Z.of_nat (length acls) < 2 ^ 64 ->
  Forall small (map acl_record acls) ->
  exists bodies,
    serializeAclsV2 ACLMAP fresh acls path save_batch_size version
      = Some (checked_file version bodies)
    /\ Forall (fun b => parse (serialize b) = inr b) bodies
    /\ concat (map elements bodies) = map acl_record acls.
Proof.
  intros Hty Hfr Hs Hl Hsm.
  exists (batches ACLMAP fresh (Z.to_nat save_batch_size) (map acl_record acls)).
  split; [apply serializeAclsV2_layout; lia|].
  split.
  - eapply Forall_impl;
      [intros b Hb; rewrite <- (app_nil_r (serialize b));
       apply parse_serialize_app; exact Hb|].
    apply batches_representable; try assumption; lia.
  - destruct acls as [|a acls]; [reflexivity|]. cbn [map].
    destruct (batches_structure ACLMAP fresh (Z.to_nat save_batch_size) (acl_record a)
                (map acl_record acls) ltac:(lia)) as (full & cur & Hb & Hc & _).
    rewrite Hb, <- Hc, map_map. cbn [elements]. rewrite map_id, concat_app.
    cbn [concat]. now rewrite app_nil_r.
Qed.

Lemma serializeAclsV2_batches_parse_witness :
  exists bodies,
    serializeAclsV2 2 0 three_acls "snapshot"%string 2 V3
      = Some (checked_file V3 bodies)
    /\ Forall (fun b => parse (serialize b) = inr b) bodies
    /\ concat (map elements bodies) = map acl_record three_acls.
Proof.
  apply (serializeAclsV2_batches_parse 2 0 three_acls "snapshot"%string 2 V3).
  - unfold in_int32. lia.
  - unfold in_int32. lia.
  - lia.
  - cbn [three_acls length]. lia.
  - repeat constructor.
Defined.

(** X5: [serializeSessionsV2] returns the store's [session_id_counter] and
    writes the head magic, the version byte, the batches, the tail magic and
    the checksum folded over the batches. With no session the only batch is
    a freshly constructed, empty one; otherwise the batches hold one record
    per session, in the iteration order of [session_and_timeout], under the
    session tag, [save_batch_size] to a batch with a last batch that is not
    empty. The record of a session without an entry in [session_and_auth] is
    its id, its timeout and an empty list of principals, 20 bytes. *)
Theorem serializeSessionsV2_file (SESSION fresh : Z) (store : KeeperStore)
  (save_batch_size : Z) (version : SnapshotVersion) (path : string) :
  0 < save_batch_size -> Z.of_nat (length (session_and_timeout store)) < 2 ^ 64 ->
  (session_and_timeout store = [] ->
   serializeSessionsV2 SESSION fresh store save_batch_size version path
   = Some (session_id_counter store, checked_file version [mkBody fresh []]))
  /\ (session_and_timeout store <> [] ->
      exists full cur,
        serializeSessionsV2 SESSION fresh store save_batch_size version path
        = Some (session_id_counter store,
                checked_file version (map (mkBody SESSION) (full ++ [cur])))
        /\ concat full ++ cur = map (session_record store) (session_and_timeout store)
        /\ Forall (fun b => Z.of_nat (length b) = save_batch_size) full
        /\ 1 <= Z.of_nat (length cur) <= save_batch_size
        /\ Z.of_nat (length (full ++ [cur]))
           = (Z.of_nat (length (session_and_timeout store)) + save_batch_size - 1)
             / save_batch_size)
  /\ (forall id timeout,
      auth_at id (session_and_auth store) = None ->
      session_record store (id, timeout)
      = be_bytes 8 id ++ be_bytes 8 timeout ++ be_bytes 4 0).
Proof.
  intros Hs Hl.
  assert (H : serializeSessionsV2 SESSION fresh store save_batch_size version path
              = Some (session_id_counter store,
                      checked_file version
                        (batches SESSION fresh (Z.to_nat save_batch_size)
                           (map (session_record store) (session_and_timeout store))))).
  { pose proof (checked_layout SESSION fresh (session_record store)
                  (session_and_timeout store) save_batch_size version Hs Hl) as L.
    unfold serializeSessionsV2.
    change (serializeSessionsV2_body SESSION fresh store save_batch_size)
      with (checked_body SESSION fresh (session_record store) save_batch_size).
    destruct (for_each _ _ _) as [[[[out batch] index] checksum]|]; [|discriminate L].
    destruct (saveBatchAndUpdateCheckSumV2 fresh out batch checksum)
      as [[out' b'] [sz c']].
    injection L as L. now rewrite L. }
  split; [|split].
  - intros He. rewrite H, He. reflexivity.
  - intros Hne.
    destruct (batches_count SESSION fresh (session_record store)
                (session_and_timeout store) save_batch_size Hne Hs)
      as (full & cur & Hb & Hrest).
    exists full, cur. split; [|exact Hrest]. rewrite H, Hb. reflexivity.
  - intros id timeout Hnone. unfold session_record. cbn [fst snd]. rewrite Hnone.
    unfold write_AuthIDs, Coordination.write_int32, Coordination.write_int64.
    cbn [fold_left length app]. now rewrite <- app_assoc.
Qed.

Lemma serializeSessionsV2_file_witness :
  exists full cur,
    serializeSessionsV2 3 0 two_sessions_store 1 V3 "snapshot"%string
    = Some (10, checked_file V3 (map (mkBody 3) (full ++ [cur])))
    /\ concat full ++ cur
       = map (session_record two_sessions_store) (session_and_timeout two_sessions_store)
    /\ Forall (fun b => Z.of_nat (length b) = 1) full
    /\ 1 <= Z.of_nat (length cur) <= 1
    /\ Z.of_nat (length (full ++ [cur]))
       = (Z.of_nat (length (session_and_timeout two_sessions_store)) + 1 - 1) / 1.
Proof.
  refine (proj1 (proj2 (serializeSessionsV2_file 3 0 two_sessions_store 1 V3
                          "snapshot"%string _ _)) _).
  - lia.
  - cbn [two_sessions_store session_and_timeout length]. lia.
  - discriminate.
Defined.

(** X6: the template [serializeMapV2] writes, for either of its
    instantiations, the head magic, the version byte, the batches, the tail
    magic and the checksum folded over the batches. The batches hold one
    record per entry of the map, the key as a length-prefixed string
    followed by the value, in iteration order, under the tag of the
    instantiation: the string map tag for [StringMap], whose values are
    length-prefixed strings, and the integer map tag for [IntMap], whose
    values are 64-bit big-endian integers. *)
Theorem serializeMapV2_file (STRINGMAP UINTMAP fresh : Z)
  (save_batch_size : Z) (version : SnapshotVersion) (path : string) :
  0 < save_batch_size ->
  (forall (V : Type) (batch_type : Z) (write_value : V -> list byte -> list byte)
          (snap_map : list (list byte * V)),
      Z.of_nat (length snap_map) < 2 ^ 64 ->
      serializeMapV2 fresh batch_type write_value snap_map save_batch_size version path
      = Some (checked_file version
                (batches batch_type fresh (Z.to_nat save_batch_size)
                   (map (map_record write_value) snap_map))))
  /\ (forall snap_map : list (list byte * list byte),
      Z.of_nat (length snap_map) < 2 ^ 64 ->
      serializeMapV2_StringMap STRINGMAP fresh snap_map save_batch_size version path
      = Some (checked_file version
                (batches STRINGMAP fresh (Z.to_nat save_batch_size)
                   (map (fun it => be_bytes 4 (Z.of_nat (length (fst it))) ++ fst it
                                   ++ be_bytes 4 (Z.of_nat (length (snd it))) ++ snd it)
                        snap_map))))
  /\ (forall snap_map : list (list byte * Z),
      Z.of_nat (length snap_map) < 2 ^ 64 ->
      serializeMapV2_IntMap UINTMAP fresh snap_map save_batch_size version path
      = Some (checked_file version
                (batches UINTMAP fresh (Z.to_nat save_batch_size)
                   (map (fun it => be_bytes 4 (Z.of_nat (length (fst it))) ++ fst it
                                   ++ be_bytes 8 (snd it))
                        snap_map)))).
Proof.
  intros Hs.
  assert (G : forall (V : Type) (batch_type : Z) (write_value : V -> list byte -> list byte)
          (snap_map : list (list byte * V)),
      Z.of_nat (length snap_map) < 2 ^ 64 ->
      serializeMapV2 fresh batch_type write_value snap_map save_batch_size version path
      = Some (checked_file version
                (batches batch_type fresh (Z.to_nat save_batch_size)
                   (map (map_record write_value) snap_map)))).
  { intros V batch_type write_value snap_map Hl.
    exact (checked_layout batch_type fresh (map_record write_value) snap_map
             save_batch_size version Hs Hl). }
  split; [exact G|]. split.
  - intros snap_map Hl. unfold serializeMapV2_StringMap. rewrite (G _ _ _ _ Hl).
    do 3 f_equal; try reflexivity. apply map_ext. intros [k v].
    unfold map_record, Coordination.write_string, Coordination.write_int32.
    cbn [fst snd app]. now rewrite <- !app_assoc.
  - intros snap_map Hl. unfold serializeMapV2_IntMap. rewrite (G _ _ _ _ Hl).
    do 3 f_equal; try reflexivity.
Qed.

Lemma serializeMapV2_file_witness :
  serializeMapV2_IntMap 6 0 [(list_byte_of_string "zxid", 42)] 10 V3 "snapshot"%string
  = Some (checked_file V3
            (batches 6 0 (Z.to_nat 10)
               (map (fun it => be_bytes 4 (Z.of_nat (length (fst it))) ++ fst it
                               ++ be_bytes 8 (snd it))
                    [(list_byte_of_string "zxid", 42)]))).
Proof.
  apply (proj2 (proj2 (serializeMapV2_file 5 6 0 10 V3 "snapshot"%string ltac:(lia)))).
  cbn [length]. lia.
Defined.

(** X7: a [save_batch_size] of zero. Every serializer computes
    [index % save_batch_size] at its first entry, so on a collection that is
    not empty the behaviour is undefined, whichever the collection; on an
    empty one the loop body never runs and the file, if one is written, is
    the one any other batch size gives. *)
Theorem zero_save_batch_size (ACLMAP EPHEMERAL SESSION fresh : Z)
  (version : SnapshotVersion) (path : string) :
  (forall a acls, serializeAclsV2 ACLMAP fresh (a :: acls) path 0 version = None)
  /\ (forall e ephemerals,
        serializeEphemeralsV2 EPHEMERAL fresh (e :: ephemerals) path 0 = None)
  /\ (forall s sessions auth counter,
        serializeSessionsV2 SESSION fresh (mkStore (s :: sessions) auth counter)
          0 version path = None)
  /\ (forall (V : Type) batch_type (write_value : V -> list byte -> list byte) it snap_map,
        serializeMapV2 fresh batch_type write_value (it :: snap_map) 0 version path = None)
  /\ (forall n, serializeAclsV2 ACLMAP fresh [] path 0 version
                = serializeAclsV2 ACLMAP fresh [] path n version)
  /\ serializeEphemeralsV2 EPHEMERAL fresh [] path 0 = Some (None, 0)
  /\ (forall auth counter n,
        serializeSessionsV2 SESSION fresh (mkStore [] auth counter) 0 version path
        = serializeSessionsV2 SESSION fresh (mkStore [] auth counter) n version path)
  /\ (forall (V : Type) batch_type (write_value : V -> list byte -> list byte) n,
        serializeMapV2 fresh batch_type write_value [] 0 version path
        = serializeMapV2 fresh batch_type write_value [] n version path).
Proof.
  repeat split; reflexivity.
Qed.

(** X8: the magic tags as the readers test them. No 64-bit value is both
    the head and the tail magic; the eight bytes [openFileAndWriteHeader]
    writes first, read as a little-endian integer, satisfy [isFileHeader]
    and not [isFileTail], and the byte after them is the version; of the
    twelve bytes [writeTailAndClose] appends to any content, the first eight
    satisfy [isFileTail] and not [isFileHeader] and the last four are the
    checksum, little-endian. *)
Theorem magic_recognised :
  (forall magic, isFileHeader magic && isFileTail magic = false)
  /\ (forall version,
        exists rest,
          readStrict 8 (openFileAndWriteHeader version)
            = Some (MAGIC_SNAPSHOT_HEAD, rest)
          /\ isFileHeader (le_value MAGIC_SNAPSHOT_HEAD) = true
          /\ isFileTail (le_value MAGIC_SNAPSHOT_HEAD) = false
          /\ rest = [byte_of_Z (version_byte version)])
  /\ (forall out checksum,
        let file := writeTailAndClose out checksum in
        length file = (length out + 12)%nat
        /\ firstn (length out) file = out
        /\ exists magic crc,
             skipn (length out) file = magic ++ crc
             /\ length magic = 8%nat
             /\ isFileTail (le_value magic) = true
             /\ isFileHeader (le_value magic) = false
             /\ length crc = 4%nat
             /\ le_value crc = checksum mod 2 ^ 32).
Proof.
  split; [|split].
  - intros magic. unfold isFileHeader, isFileTail.
    destruct (Z.eqb_spec magic (le_value MAGIC_SNAPSHOT_HEAD)) as [->|_];
      [reflexivity|reflexivity].
  - intros version. exists [byte_of_Z (version_byte version)].
    repeat split; reflexivity.
  - intros out checksum file. subst file. unfold writeTailAndClose, writeIntBinary.
    split; [rewrite !length_app, le_bytes_length;
            change (length MAGIC_SNAPSHOT_TAIL) with 8%nat; lia|].
    split; [rewrite <- app_assoc, firstn_app, Nat.sub_diag, firstn_all; cbn [firstn];
            now rewrite app_nil_r|].
    exists MAGIC_SNAPSHOT_TAIL, (le_bytes 4 checksum).
    split; [rewrite <- app_assoc, skipn_app, skipn_all, Nat.sub_diag; reflexivity|].
    split; [reflexivity|]. split; [reflexivity|]. split; [reflexivity|].
    split; [apply le_bytes_length|].
    apply (le_value_le_bytes 4).
Qed.

End SerializerMore.

(** ** The commit processor: what every run keeps *)

Module RunFacts.
Import CommitProcessor ProcessorSpec ProcessorFacts MapFacts ReadFacts PhaseFacts SessionFacts ProcessorMoreSpec.

Lemma owned_by_lookup (m : PendingMap) :
  NoDup (keys m) -> (forall t, Forall (fun r => session_id r = t) (lookup t m)) -> owned m.
Proof.
  induction m as [|[k l] m IH]; intros Hn H; [constructor|].
  cbn [keys map fst] in Hn. apply NoDup_cons_iff in Hn as [Hk Hn].
  constructor.
  - cbn [fst snd]. specialize (H k). now rewrite lookup_cons_eq in H.
  - apply IH; [assumption|]. intros t. destruct (Z.eq_dec t k) as [->|Hne].
    + rewrite (lookup_not_key k m Hk). constructor.
    + specialize (H t). now rewrite lookup_cons_neq in H.
Qed.

Lemma owned_same_lookup (m m' : PendingMap) :
  NoDup (keys m') -> owned m -> (forall t, lookup t m' = lookup t m) -> owned m'.
Proof.
  intros Hn Ho Hl. apply owned_by_lookup; [assumption|].
  intros t. rewrite Hl. now apply owned_lookup.
Qed.

Lemma owned_app_lookup (m m' : PendingMap) (extra : Z -> list Request) :
  NoDup (keys m') -> owned m ->
  (forall t, lookup t m' = lookup t m ++ extra t) ->
  (forall t, Forall (fun r => session_id r = t) (extra t)) -> owned m'.
Proof.
  intros Hn Ho Hl He. apply owned_by_lookup; [assumption|].
  intros t. rewrite Hl. apply Forall_app. split; [now apply owned_lookup | apply He].
Qed.

Lemma find_lookup (k : Z) (m : PendingMap) (v : list Request) :
  find k m = Some v -> lookup k m = v.
Proof. unfold lookup. now intros ->. Qed.

Lemma on_session (t : Z) (l : list Request) : Forall (fun r => session_id r = t) (on t l).
Proof.
  apply Forall_forall. intros r Hr. apply filter_In in Hr as [_ Hr].
  now apply Z.eqb_eq in Hr.
Qed.

Lemma on_In (t : Z) (l : list Request) (r : Request) : In r (on t l) -> In r l.
Proof. intros Hr. now apply filter_In in Hr. Qed.

Lemma erase_xid_incl (x : Z) (requests : list Request) (r : Request) :
  In r (snd (erase_xid x requests)) -> In r requests.
Proof.
  induction requests as [|q rest IH]; cbn [erase_xid]; [trivial|].
  destruct (to_uint64 (xid q) =? x); cbn [snd]; [now right|].
  destruct (erase_xid x rest) as [found rest']. cbn [snd] in *.
  intros [H|H]; [now left | right; now apply IH].
Qed.

Lemma erase_xid_found (x : Z) (requests : list Request) (r : Request) :
  fst (erase_xid x requests) = Some r -> In r requests /\ to_uint64 (xid r) = x.
Proof.
  induction requests as [|q rest IH]; cbn [erase_xid]; [discriminate|].
  destruct (Z.eqb_spec (to_uint64 (xid q)) x) as [He|Hne]; cbn [fst].
  - intros H. injection H as <-. split; [now left | assumption].
  - destruct (erase_xid x rest) as [found rest']. cbn [fst] in *.
    intros H. destruct (IH H) as [H1 H2]. split; [now right | assumption].
Qed.

Lemma erase_xid_none (x : Z) (requests : list Request) :
  fst (erase_xid x requests) = None -> snd (erase_xid x requests) = requests.
Proof.
  induction requests as [|q rest IH]; cbn [erase_xid]; [reflexivity|].
  destruct (to_uint64 (xid q) =? x); cbn [fst snd]; [discriminate|].
  destruct (erase_xid x rest) as [found rest']. cbn [fst snd] in *.
  intros H. now rewrite (IH H).
Qed.

Lemma update_same (k : Z) (v : list Request) (m : PendingMap) :
  find k m = Some v -> update k v m = m.
Proof.
  induction m as [|[k' v'] m IH]; cbn [find update]; [reflexivity|].
  destruct (k' =? k); intros H; [now injection H as -> | now rewrite IH].
Qed.

Lemma owned_find (k : Z) (m : PendingMap) (v : list Request) :
  owned m -> find k m = Some v -> Forall (fun r => session_id r = k) v.
Proof.
  intros Ho Hf. pose proof (owned_lookup k m Ho) as H.
  now rewrite (find_lookup k m v Hf) in H.
Qed.

Lemma Forall_erase_xid (P : Request -> Prop) (x : Z) (requests : list Request) :
  Forall P requests -> Forall P (snd (erase_xid x requests)).
Proof.
  rewrite !Forall_forall. intros H r Hr. apply H. now apply erase_xid_incl in Hr.
Qed.

(** *** [errors.emplace] *)

Lemma existsb_key {V : Type} (k : Z * Z) (m : list ((Z * Z) * V)) :
  existsb (fun e => (fst (fst e) =? fst k) && (snd (fst e) =? snd k)) m = true
  <-> In k (map fst m).
Proof.
  rewrite existsb_exists. split.
  - intros ([[a b] v] & Hin & H). cbn [fst snd] in H.
    apply andb_true_iff in H as [Ha Hb]. apply Z.eqb_eq in Ha, Hb.
    apply in_map_iff. exists ((a, b), v). split; [|assumption].
    destruct k as [k1 k2]. cbn [fst snd] in *. now subst.
  - intros H. apply in_map_iff in H as (e & <- & Hin).
    exists e. split; [assumption|]. now rewrite !Z.eqb_refl.
Qed.

Lemma emplace_present {V : Type} (k : Z * Z) (v : V) (m : list ((Z * Z) * V)) :
  In k (map fst m) -> emplace k v m = m.
Proof. intros H. unfold emplace. apply existsb_key in H. now rewrite H. Qed.

Lemma emplace_absent {V : Type} (k : Z * Z) (v : V) (m : list ((Z * Z) * V)) :
  ~ In k (map fst m) -> emplace k v m = m ++ [(k, v)].
Proof.
  intros H. unfold emplace.
  destruct (existsb _ m) eqn:E; [|reflexivity].
  exfalso. apply H. now apply existsb_key.
Qed.

Lemma emplace_In {V : Type} (k : Z * Z) (v : V) (m : list ((Z * Z) * V)) :
  In k (map fst (emplace k v m)).
Proof.
  unfold emplace. destruct (existsb _ m) eqn:E; [now apply existsb_key|].
  rewrite map_app. apply in_or_app. right. now left.
Qed.

Lemma emplace_NoDup {V : Type} (k : Z * Z) (v : V) (m : list ((Z * Z) * V)) :
  NoDup (map fst m) -> NoDup (map fst (emplace k v m)).
Proof.
  intros Hn. unfold emplace. destruct (existsb _ m) eqn:E; [assumption|].
  rewrite map_app. cbn [map fst].
  apply NoDup_app; [assumption | repeat constructor; intros [] |].
  intros a Ha [<-|[]]. apply existsb_key in Ha. congruence.
Qed.

(** *** One iteration, case by case *)

(** An iteration that is not undefined leaves the state as it is (the
    processor is shut down or has nothing to do), or runs the queues with
    no error entry present, or handles the entry at the front of [errors]
    and nothing else. *)
Lemma step_iterate_cases (st st' : State) :
  step st Iterate = Some st' ->
  st' = st
  \/ (shutdown_called st = false /\ errors st = []
      /\ result (process_queues st) = Some st')
  \/ exists session x accepted error_code rest requests w_requests,
       shutdown_called st = false
       /\ errors st = ((session, x), (accepted, error_code)) :: rest
       /\ find (to_int64 session) (pending_requests st) = Some requests
       /\ find (to_int64 session) (pending_write_requests st) = Some w_requests
       /\ st' = mkState (requests_queue st) false
                  (responses_queue st
                     ++ match fst (erase_xid x requests) with
                        | Some r => [(session_id r, MadeResponse (xid r) 0 (error_of error_code))]
                        | None => []
                        end)
                  (committed_queue st)
                  (update (to_int64 session) (snd (erase_xid x w_requests))
                     (pending_write_requests st))
                  (update (to_int64 session) (snd (erase_xid x requests))
                     (pending_requests st))
                  (match fst (erase_xid x requests) with
                   | Some _ => rest
                   | None => errors st
                   end).
Proof.
  cbn [step]. unfold run3_iteration.
  destruct (shutdown_called st) eqn:Hsd; [intros H; injection H as <-; now left|].
  destruct (need_wait st); [intros H; injection H as <-; now left|].
  unfold drain_errors.
  destruct (errors st) as [|[[session x] [accepted error_code]] rest] eqn:Herr.
  - cbn [bind]. intros H. right; left.
    split; [reflexivity|]. split; [reflexivity|].
    destruct (process_queues st) as [a|e a|]; cbn [result];
      [now injection H as <- | now injection H as <- | discriminate H].
  - destruct (find (to_int64 session) (pending_requests st)) as [requests|] eqn:Hp;
      [|cbn [bind]; discriminate].
    destruct (erase_xid x requests) as [request requests'] eqn:He.
    destruct (find (to_int64 session) (pending_write_requests st)) as [w_requests|] eqn:Hw;
      [|cbn [bind]; discriminate].
    destruct (erase_xid x w_requests) as [w_request w_requests'] eqn:Hew.
    intros H. right; right.
    exists session, x, accepted, error_code, rest, requests, w_requests.
    rewrite He, Hew. cbn [fst snd].
    split; [reflexivity|]. split; [reflexivity|]. split; [exact Hp|].
    split; [exact Hw|].
    rewrite ?Hsd in H.
    destruct request as [r|]; cbn [bind] in H; injection H as H; subst st';
      rewrite ?app_nil_r, ?Herr; reflexivity.
Qed.

(** *** The queues phase *)

Lemma responses_for_stored (s : Z) (l : list Request) :
  responses_for s (map stored l) = map stored (on s l).
Proof.
  induction l as [|r l IH]; [reflexivity|].
  cbn [map]. unfold responses_for, on in *. cbn [filter stored fst].
  destruct (session_id r =? s); cbn [map]; now rewrite IH.
Qed.

(** The loop over the committed queue: the requests answered are a prefix
    of the queue, at most one request after them is dropped by an
    exception, and each pending list loses requests from its front only. *)
Lemma apply_committed_spec :
  forall (queued : list Request) (pending pending_w : PendingMap)
         (responses : list ResponseForSession)
         (queued' : list Request) (pending' pending_w' : PendingMap)
         (responses' : list ResponseForSession),
  NoDup (keys pending) -> NoDup (keys pending_w) -> owned pending -> owned pending_w ->
  result (apply_committed queued pending pending_w responses)
  = Some (queued', pending', pending_w', responses') ->
  NoDup (keys pending') /\ NoDup (keys pending_w')
  /\ owned pending' /\ owned pending_w'
  /\ (forall t, exists a, lookup t pending = a ++ lookup t pending')
  /\ (forall t, exists a, lookup t pending_w = a ++ lookup t pending_w')
  /\ exists applied dropped,
       responses' = responses ++ map stored applied
       /\ queued = applied ++ dropped ++ queued'
       /\ (length dropped <= 1)%nat.
Proof.
  induction queued as [|c cq IH];
    intros pending pending_w responses queued' pending' pending_w' responses'
           Hp Hw Ho How H.
  - cbn [apply_committed result] in H. injection H as <- <- <- <-.
    repeat (split; [assumption|]).
    split; [intros t; now exists []|]. split; [intros t; now exists []|].
    exists [], []. cbn [map app length]. rewrite app_nil_r. repeat split; lia.
  - cbn [apply_committed] in H. set (t := session_id c) in *.
    destruct (subscript_spec t pending_w) as (pw1 & E1 & Hin1 & Hl1 & Hn1 & Ho1).
    rewrite E1 in H. specialize (Hn1 Hw). specialize (Ho1 How).
    destruct (lookup t pending_w) as [|wh wt] eqn:Ew.
    + apply IH in H as (H1 & H2 & H3 & H4 & H5 & H6 & applied & dropped & H7 & H8 & H9);
        try assumption.
      repeat (split; [assumption|]).
      split; [intros u; rewrite <- Hl1; apply H6|].
      exists (c :: applied), dropped. cbn [map app].
      rewrite H7, <- app_assoc, H8. repeat split; trivial.
    + assert (Hwt : Forall (fun r => session_id r = t) wt).
      { pose proof (owned_lookup t pending_w How) as Hf. rewrite Ew in Hf.
        now inversion Hf. }
      destruct (Z.eqb_spec (xid wh) (xid c)) as [Hxw|Hxw]; cbn [negb] in H.
      * destruct (subscript_spec t pending) as (pend1 & E2 & Hin2 & Hl2 & Hn2 & Ho2).
        rewrite E2 in H. specialize (Hn2 Hp). specialize (Ho2 Ho).
        destruct (lookup t pending) as [|ph pt] eqn:Ep; [discriminate H|].
        assert (Hpt : Forall (fun r => session_id r = t) pt).
        { pose proof (owned_lookup t pending Ho) as Hf. rewrite Ep in Hf.
          now inversion Hf. }
        destruct (Z.eqb_spec (xid ph) (xid c)) as [Hxp|Hxp]; cbn [negb] in H.
        -- destruct (pop_spec t wt pw1 Hin1 Hn1) as (Hw1 & Hw2 & Hw3 & Hw4).
           destruct (pop_spec t pt pend1 Hin2 Hn2) as (Hp1 & Hp2 & Hp3 & Hp4).
           apply IH in H
             as (H1 & H2 & H3 & H4 & H5 & H6 & applied & dropped & H7 & H8 & H9);
             [|assumption|assumption|now apply Hp4|now apply Hw4].
           repeat (split; [assumption|]).
           split; [|split].
           ++ intros u. destruct (H5 u) as (a & Ha).
              destruct (Z.eq_dec u t) as [->|Hne].
              ** rewrite Hp1 in Ha. exists (ph :: a). rewrite Ep, Ha. reflexivity.
              ** rewrite Hp2, Hl2 in Ha by assumption. now exists a.
           ++ intros u. destruct (H6 u) as (a & Ha).
              destruct (Z.eq_dec u t) as [->|Hne].
              ** rewrite Hw1 in Ha. exists (wh :: a). rewrite Ew, Ha. reflexivity.
              ** rewrite Hw2, Hl1 in Ha by assumption. now exists a.
           ++ exists (c :: applied), dropped. cbn [map app].
              rewrite H7, <- app_assoc, H8. repeat split; trivial.
        -- cbn [result] in H. injection H as <- <- <- <-.
           repeat (split; [assumption|]).
           split; [intros u; exists []; now rewrite Hl2|].
           split; [intros u; exists []; now rewrite Hl1|].
           exists [], [c]. cbn [map app length]. rewrite app_nil_r. repeat split; lia.
      * cbn [result] in H. injection H as <- <- <- <-.
        repeat (split; [assumption|]).
        split; [intros u; now exists []|].
        split; [intros u; exists []; now rewrite Hl1|].
        exists [], [c]. cbn [map app length]. rewrite app_nil_r. repeat split; lia.
Qed.

(** The part of an iteration after the error phase, whether it completes
    or throws. *)
Lemma process_queues_spec (st st' : State) :
  NoDup (keys (pending_requests st)) -> NoDup (keys (pending_write_requests st)) ->
  owned (pending_requests st) -> owned (pending_write_requests st) ->
  result (process_queues st) = Some st' ->
  shutdown_called st' = shutdown_called st /\ errors st' = errors st
  /\ requests_queue st' = []
  /\ NoDup (keys (pending_requests st')) /\ NoDup (keys (pending_write_requests st'))
  /\ owned (pending_requests st') /\ owned (pending_write_requests st')
  /\ (forall t, exists a,
        lookup t (pending_write_requests st) ++ writes (on t (requests_queue st))
        = a ++ lookup t (pending_write_requests st'))
  /\ exists added applied dropped,
       responses_queue st' = responses_queue st ++ added ++ map stored applied
       /\ committed_queue st = applied ++ dropped ++ committed_queue st'
       /\ (length dropped <= 1)%nat
       /\ (forall t, exists served_reads a,
             lookup t (pending_requests st) ++ on t (requests_queue st)
             = served_reads ++ a ++ lookup t (pending_requests st')
             /\ Forall (fun r => isReadRequest r = true) served_reads
             /\ responses_for t added = map stored served_reads).
Proof.
  intros Hp Hw Ho How. unfold process_queues.
  pose proof (drain_requests_spec (requests_queue st) (pending_requests st)
                (pending_write_requests st) Hp Hw Ho) as Hd.
  destruct (drain_requests (requests_queue st) (pending_requests st)
              (pending_write_requests st)) as [pend1 pw1].
  cbv zeta in Hd. cbn [fst snd] in Hd. destruct Hd as (Hp1 & Hw1 & Ho1 & Hl1 & Hlw1).
  assert (How1 : owned pw1).
  { apply (owned_app_lookup (pending_write_requests st) pw1
             (fun t => writes (on t (requests_queue st)))); try assumption.
    intros t. apply Forall_forall. intros r Hr. apply writes_In in Hr.
    pose proof (on_session t (requests_queue st)) as Hs.
    rewrite Forall_forall in Hs. now apply Hs. }
  destruct (serve_sessions_any pend1 pw1 (responses_queue st) Hp1 Hw1 Ho1)
    as (pend2 & pw2 & added & Er & Hp2 & _ & Hw2 & Ho2 & Hlw2 & Hser).
  assert (How2 : owned pw2) by (now apply (owned_same_lookup pw1 pw2)).
  destruct (serve_sessions pend1 pw1 (responses_queue st))
    as [[[p w] rs]|e [[p w] rs]|]; cbn [result] in Er; [| |discriminate];
    injection Er as -> -> ->; cbn [bind].
  - intros H.
    assert (Ha : exists q3 p3 w3 r3,
               result (apply_committed (committed_queue st) pend2 pw2
                         (responses_queue st ++ added)) = Some (q3, p3, w3, r3)
               /\ st' = mkState [] (shutdown_called st) r3 q3 w3 p3 (errors st)).
    { destruct (apply_committed (committed_queue st) pend2 pw2 (responses_queue st ++ added))
        as [[[[c p] w] rs]|e [[[c p] w] rs]|]; cbn [bind result] in H |- *;
        [| |discriminate H]; injection H as <-; now exists c, p, w, rs. }
    destruct Ha as (q3 & p3 & w3 & r3 & Ea & ->).
    apply apply_committed_spec in Ea
      as (H1 & H2 & H3 & H4 & H5 & H6 & applied & dropped & H7 & H8 & H9);
      try assumption.
    cbn [shutdown_called errors requests_queue pending_requests pending_write_requests
         responses_queue committed_queue].
    do 7 (split; [first [reflexivity | assumption]|]).
    split.
    + intros t. destruct (H6 t) as (a & Ha). exists a.
      now rewrite <- Hlw1, <- Hlw2.
    + exists added, applied, dropped. rewrite H7, <- app_assoc.
      do 3 (split; [first [reflexivity | assumption]|]).
      intros t. destruct (Hser t) as (sv & Hsv1 & Hsv2 & Hsv3).
      destruct (H5 t) as (a & Ha). exists sv, a.
      rewrite <- Hl1, Hsv1, Ha. repeat split; trivial.
  - cbn [result]. intros H. injection H as <-.
    cbn [shutdown_called errors requests_queue pending_requests pending_write_requests
         responses_queue committed_queue].
    do 7 (split; [first [reflexivity | assumption]|]).
    split.
    + intros t. exists []. now rewrite <- Hlw1, <- Hlw2.
    + exists added, [], []. cbn [map app length]. rewrite app_nil_r.
      do 3 (split; [first [reflexivity | lia]|]).
      intros t. destruct (Hser t) as (sv & Hsv1 & Hsv2 & Hsv3).
      exists sv, []. rewrite <- Hl1, Hsv1. repeat split; trivial.
Qed.

(** *** The invariant along a run *)

Lemma step_filed (st st' : State) (e : Event) :
  filed st -> step st e = Some st' -> filed st'.
Proof.
  intros (Hp & Hw & Ho & How & He) H. destruct e as [r|r|s x a c| |].
  - cbn [step] in H. injection H as <-. unfold processRequest.
    destruct (shutdown_called st); cbn [negb]; repeat split; assumption.
  - cbn [step] in H. injection H as <-. unfold commit.
    destruct (shutdown_called st); cbn [negb]; repeat split; assumption.
  - cbn [step] in H. injection H as <-. unfold onError.
    destruct (shutdown_called st); cbn [negb]; repeat split; try assumption.
    cbn [errors]. now apply emplace_NoDup.
  - apply step_iterate_cases in H as [->|[(_ & _ & H)|H]].
    + repeat split; assumption.
    + apply process_queues_spec in H
        as (_ & E & _ & H1 & H2 & H3 & H4 & _); try assumption.
      repeat split; try assumption. now rewrite E.
    + destruct H as (session & x & accepted & error_code & rest & requests & w_requests
                     & _ & Herr & Hfp & Hfw & ->).
      unfold filed.
      cbn [pending_requests pending_write_requests errors].
      rewrite !keys_update.
      split; [assumption|]. split; [assumption|].
      split; [apply owned_update; [assumption|];
              apply Forall_erase_xid; now apply (owned_find _ (pending_requests st))|].
      split; [apply owned_update; [assumption|];
              apply Forall_erase_xid; now apply (owned_find _ (pending_write_requests st))|].
      destruct (fst (erase_xid x requests)); [|assumption].
      rewrite Herr in He. cbn [map] in He. now apply NoDup_cons_iff in He.
  - cbn [step] in H. injection H as <-. unfold shutdown.
    destruct (shutdown_called st); repeat split; assumption.
Qed.

Lemma run_filed (events : list Event) :
  forall st st', filed st -> run events st = Some st' -> filed st'.
Proof.
  induction events as [|e events IH]; intros st st' Hf H.
  - cbn [run] in H. now injection H as <-.
  - cbn [run] in H. destruct (step st e) as [st1|] eqn:Es; [|discriminate].
    apply (IH st1); [|assumption]. now apply (step_filed st st1 e).
Qed.

Lemma initial_filed : filed initial.
Proof. repeat split; constructor. Qed.

End RunFacts.

(** ** More on the commit processor *)

Module ProcessorMore.
Import CommitProcessor ProcessorSpec ProcessorFacts MapFacts ReadFacts PhaseFacts SessionFacts OrderClaims RunFacts ProcessorMoreSpec.

(** *** Helpers *)

Lemma requests_snoc (events : list Event) (e : Event) (r : Request) :
  In r (flat_map requests_of events) -> In r (flat_map requests_of (events ++ [e])).
Proof. intros H. rewrite flat_map_app. apply in_or_app. now left. Qed.

Lemma commits_snoc (events : list Event) (e : Event) (r : Request) :
  In r (flat_map commits_of events) -> In r (flat_map commits_of (events ++ [e])).
Proof. intros H. rewrite flat_map_app. apply in_or_app. now left. Qed.

Lemma answers_snoc (events : list Event) (e : Event) (p : ResponseForSession) :
  answers_request events p -> answers_request (events ++ [e]) p.
Proof.
  unfold answers_request. destruct (snd p) as [r|x z err].
  - intros [H1 [H2|H2]]; (split; [assumption|]);
      [left; now apply requests_snoc | right; now apply commits_snoc].
  - intros [H1 (r & H2 & H3 & H4)]. split; [assumption|].
    exists r. split; [now apply requests_snoc | now split].
Qed.

Lemma traced_snoc (events : list Event) (e : Event) (st : State) :
  traced events st -> traced (events ++ [e]) st.
Proof.
  intros (H1 & H2 & H3 & H4). repeat split.
  - intros r Hr. now apply requests_snoc, H1.
  - intros t r Hr. now apply requests_snoc, (H2 t).
  - intros r Hr. now apply commits_snoc, H3.
  - eapply Forall_impl; [|exact H4]. intros p. apply answers_snoc.
Qed.

Lemma responses_for_In (p : ResponseForSession) (l : list ResponseForSession) :
  In p l -> In p (responses_for (fst p) l).
Proof. intros H. apply filter_In. split; [assumption | apply Z.eqb_refl]. Qed.

Lemma step_traced (events : list Event) (st st' : State) (e : Event) :
  filed st -> traced events st -> step st e = Some st' -> traced (events ++ [e]) st'.
Proof.
  intros (Hp & Hw & Ho & How & _) Ht H.
  pose proof (traced_snoc events e st Ht) as (T1 & T2 & T3 & T4).
  destruct e as [q|q|s x a c| |].
  - cbn [step] in H. injection H as <-. unfold processRequest.
    destruct (shutdown_called st); cbn [negb]; [repeat split; assumption|].
    repeat split; cbn [requests_queue pending_requests committed_queue responses_queue];
      try assumption.
    intros r Hr. apply in_app_or in Hr as [Hr|[<-|[]]]; [now apply T1|].
    rewrite flat_map_app. apply in_or_app. right. now left.
  - cbn [step] in H. injection H as <-. unfold commit.
    destruct (shutdown_called st); cbn [negb]; [repeat split; assumption|].
    repeat split; cbn [requests_queue pending_requests committed_queue responses_queue];
      try assumption.
    intros r Hr. apply in_app_or in Hr as [Hr|[<-|[]]]; [now apply T3|].
    rewrite flat_map_app. apply in_or_app. right. now left.
  - cbn [step] in H. injection H as <-. unfold onError.
    destruct (shutdown_called st); cbn [negb]; repeat split; assumption.
  - apply step_iterate_cases in H as [->|[(_ & _ & H)|H]].
    + repeat split; assumption.
    + apply process_queues_spec in H
        as (_ & _ & Hrq & _ & _ & _ & _ & _ & added & applied & dropped
            & Hresp & Hcq & _ & Hser); try assumption.
      assert (Hpend : forall t r,
                 In r (lookup t (pending_requests st) ++ on t (requests_queue st)) ->
                 In r (flat_map requests_of (events ++ [Iterate]))).
      { intros t r Hr. apply in_app_or in Hr as [Hr|Hr];
          [now apply (T2 t) | apply T1; now apply on_In in Hr]. }
      repeat split.
      * rewrite Hrq. intros r [].
      * intros t r Hr. destruct (Hser t) as (sv & a & E & _ & _).
        apply (Hpend t). rewrite E. apply in_or_app. right. apply in_or_app. now right.
      * intros r Hr. apply T3. rewrite Hcq. apply in_or_app. right.
        apply in_or_app. now right.
      * rewrite Hresp. apply Forall_app. split; [assumption|].
        apply Forall_app. split.
        -- apply Forall_forall. intros p Hin. apply responses_for_In in Hin.
           destruct (Hser (fst p)) as (sv & a & E & _ & Esv).
           rewrite Esv in Hin. apply in_map_iff in Hin as (r & <- & Hr).
           unfold answers_request, stored. cbn [fst snd].
           split; [reflexivity|]. left. apply (Hpend (session_id r)).
           unfold stored in E. cbn [fst] in E. rewrite E. apply in_or_app. now left.
        -- apply Forall_forall. intros p Hin. apply in_map_iff in Hin as (r & <- & Hr).
           unfold answers_request, stored. cbn [fst snd].
           split; [reflexivity|]. right. apply T3. rewrite Hcq.
           apply in_or_app. now left.
    + destruct H as (session & x & accepted & error_code & rest & requests & w_requests
                     & _ & Herr & Hfp & Hfw & ->).
      assert (Hreq : forall r, In r requests ->
                               In r (flat_map requests_of (events ++ [Iterate]))).
      { intros r Hr. apply (T2 (to_int64 session)).
        now rewrite (find_lookup _ _ _ Hfp). }
      repeat split; cbn [requests_queue pending_requests committed_queue responses_queue];
        try assumption.
      * intros t r Hr. destruct (Z.eq_dec t (to_int64 session)) as [->|Hne].
        -- rewrite lookup_update_eq in Hr by (now apply find_Some_keys in Hfp).
           apply Hreq. now apply erase_xid_incl in Hr.
        -- rewrite lookup_update_neq in Hr by assumption. now apply (T2 t).
      * apply Forall_app. split; [assumption|].
        destruct (fst (erase_xid x requests)) as [r|] eqn:Ef; [|constructor].
        apply erase_xid_found in Ef as [Hin _].
        constructor; [|constructor]. unfold answers_request. cbn [fst snd].
        split; [reflexivity|]. exists r. split; [now apply Hreq | now split].
  - cbn [step] in H. injection H as <-. unfold shutdown.
    destruct (shutdown_called st); [repeat split; assumption|].
    repeat split; cbn [requests_queue pending_requests committed_queue responses_queue];
      try assumption.
    + intros r [].
    + apply Forall_app. split; [assumption|].
      apply Forall_forall. intros p Hin. apply in_map_iff in Hin as (r & <- & Hr).
      unfold answers_request, expired. cbn [fst snd].
      split; [reflexivity|]. exists r. split; [now apply T1 | now split].
Qed.

Lemma run_traced (events : list Event) :
  forall before st st',
  filed st -> traced before st -> run events st = Some st' ->
  traced (before ++ events) st'.
Proof.
  induction events as [|e events IH]; intros before st st' Hf Ht H.
  - cbn [run] in H. injection H as <-. now rewrite app_nil_r.
  - cbn [run] in H. destruct (step st e) as [st1|] eqn:Es; [|discriminate].
    change (e :: events) with ([e] ++ events). rewrite app_assoc.
    apply (IH _ st1); [now apply (step_filed st st1 e) | | assumption].
    now apply (step_traced before st st1 e).
Qed.

Lemma step_writes_only (st st' : State) (e : Event) :
  filed st -> writes_only st -> step st e = Some st' -> writes_only st'.
Proof.
  intros (Hp & Hw & Ho & How & _) Hwo H. destruct e as [q|q|s x a c| |].
  - cbn [step] in H. injection H as <-. unfold processRequest.
    destruct (shutdown_called st); cbn [negb]; exact Hwo.
  - cbn [step] in H. injection H as <-. unfold commit.
    destruct (shutdown_called st); cbn [negb]; exact Hwo.
  - cbn [step] in H. injection H as <-. unfold onError.
    destruct (shutdown_called st); cbn [negb]; exact Hwo.
  - apply step_iterate_cases in H as [->|[(_ & _ & H)|H]]; [exact Hwo| |].
    + apply process_queues_spec in H
        as (_ & _ & _ & _ & _ & _ & _ & Hpw & _); try assumption.
      intros s r Hr. destruct (Hpw s) as (a & E).
      assert (Hin : In r (lookup s (pending_write_requests st)
                            ++ writes (on s (requests_queue st)))).
      { rewrite E. apply in_or_app. now right. }
      apply in_app_or in Hin as [Hin|Hin]; [now apply (Hwo s)|].
      apply filter_In in Hin as [_ Hin]. unfold is_write in Hin.
      now destruct (isReadRequest r).
    + destruct H as (session & x & accepted & error_code & rest & requests & w_requests
                     & _ & Herr & Hfp & Hfw & ->).
      intros s r Hr. cbn [pending_write_requests] in Hr.
      destruct (Z.eq_dec s (to_int64 session)) as [->|Hne].
      * rewrite lookup_update_eq in Hr by (now apply find_Some_keys in Hfw).
        apply erase_xid_incl in Hr. apply (Hwo (to_int64 session)).
        now rewrite (find_lookup _ _ _ Hfw).
      * rewrite lookup_update_neq in Hr by assumption. now apply (Hwo s).
  - cbn [step] in H. injection H as <-. unfold shutdown.
    destruct (shutdown_called st); exact Hwo.
Qed.

Lemma run_writes_only (events : list Event) :
  forall st st', filed st -> writes_only st -> run events st = Some st' -> writes_only st'.
Proof.
  induction events as [|e events IH]; intros st st' Hf Hwo H.
  - cbn [run] in H. now injection H as <-.
  - cbn [run] in H. destruct (step st e) as [st1|] eqn:Es; [|discriminate].
    apply (IH st1); [now apply (step_filed st st1 e) | | assumption].
    now apply (step_writes_only st st1 e).
Qed.

(** X9: what every run keeps. In every state a run from the initial state
    reaches, the session keys of [pending_requests] are distinct and so are
    those of [pending_write_requests], every request in either map is filed
    under its own session id, [pending_write_requests] holds write requests
    only, and no two entries of [errors] have the same (session, xid) key. *)
Theorem run_keeps_requests_filed (events : list Event) (st : State) :
  run events initial = Some st ->
  filed st /\ writes_only st.
Proof.
  intros H. split.
  - exact (run_filed events initial st initial_filed H).
  - apply (run_writes_only events initial st initial_filed); [|exact H].
    intros s r [].
Qed.

Lemma run_keeps_requests_filed_witness :
  exists st, run mixed_run initial = Some st /\ filed st /\ writes_only st.
Proof.
  eexists. split; [reflexivity|].
  apply (run_keeps_requests_filed mixed_run). reflexivity.
Defined.

(** X10: the first report of an error wins. A second [onError] for the
    same session and xid changes nothing, whatever verdict it carries:
    [errors.emplace] does not overwrite. *)
Theorem onError_first_report_wins (st : State) (session x : Z)
  (accepted accepted' : bool) (error_code error_code' : cmd_result_code) :
  onError session x accepted' error_code' (onError session x accepted error_code st)
  = onError session x accepted error_code st.
Proof.
  unfold onError. destruct (shutdown_called st) eqn:Hsd; cbn [negb].
  - now rewrite Hsd.
  - cbn [shutdown_called negb requests_queue responses_queue committed_queue
         pending_write_requests pending_requests errors].
    f_equal. apply emplace_present. apply emplace_In.
Qed.

(** *** An error for a session the worker does not hold *)

Lemma producers_keep_errors (events : list Event) :
  Forall producer events ->
  forall st,
  shutdown_called st = false ->
  exists st',
    run events st = Some st'
    /\ shutdown_called st' = false
    /\ errors st' = errors st
    /\ pending_requests st' = pending_requests st
    /\ pending_write_requests st' = pending_write_requests st.
Proof.
  induction 1 as [|e events He _ IH]; intros st Hsd.
  - exists st. repeat split; trivial.
  - cbn [run]. destruct e as [q|q|s x a c| |]; cbn [step producer] in *; try contradiction.
    + destruct (IH (processRequest q st)) as (st' & H1 & H2 & H3 & H4 & H5);
        [unfold processRequest; rewrite Hsd; reflexivity|].
      exists st'. rewrite H1, H2, H3, H4, H5.
      unfold processRequest. rewrite Hsd. repeat split.
    + destruct (IH (commit q st)) as (st' & H1 & H2 & H3 & H4 & H5);
        [unfold commit; rewrite Hsd; reflexivity|].
      exists st'. rewrite H1, H2, H3, H4, H5.
      unfold commit. rewrite Hsd. repeat split.
Qed.

Lemma absent_session_undefined (st : State) (session x : Z) (v : bool * cmd_result_code)
  (rest : list ((Z * Z) * (bool * cmd_result_code))) :
  shutdown_called st = false ->
  errors st = ((session, x), v) :: rest ->
  find (to_int64 session) (pending_requests st) = None
  \/ find (to_int64 session) (pending_write_requests st) = None ->
  step st Iterate = None.
Proof.
  intros Hsd Herr Hnone. cbn [step]. unfold run3_iteration. rewrite Hsd.
  assert (Hnw : need_wait st = false) by (unfold need_wait; now rewrite Herr).
  rewrite Hnw. unfold drain_errors. rewrite Herr. destruct v as [accepted error_code].
  destruct (find (to_int64 session) (pending_requests st)) as [requests|] eqn:Hp;
    [|reflexivity].
  destruct Hnone as [Hn|Hn]; [discriminate Hn|]. rewrite Hn.
  destruct (erase_xid x requests) as [request requests']. reflexivity.
Qed.

(** X11: an error reported for a session the worker does not hold. When
    [onError] is called while [errors] is empty and the session has no
    entry in [pending_requests], or none in [pending_write_requests], the
    worker's next iteration dereferences the end iterator [find] returns:
    the run is undefined, whatever requests and commits arrive in between.
    The entry is then the only one in [errors], so it is the one the
    iteration handles whatever the iteration order of the map. This is the
    case of an error for a request that is still in the input queue. *)
Theorem early_error_is_undefined (st : State) (events : list Event) (session x : Z)
  (accepted : bool) (error_code : cmd_result_code) :
  shutdown_called st = false -> errors st = [] -> in_int64 session ->
  find session (pending_requests st) = None
  \/ find session (pending_write_requests st) = None ->
  Forall producer events ->
  run (OnError session x accepted error_code :: events ++ [Iterate]) st = None.
Proof.
  intros Hsd Herr Hs Hnone Hev. cbn [run step]. rewrite run_app.
  destruct (producers_keep_errors events Hev (onError session x accepted error_code st))
    as (st' & H1 & H2 & H3 & H4 & H5).
  - unfold onError. rewrite Hsd. reflexivity.
  - rewrite H1. cbn [run].
    rewrite (absent_session_undefined st' (to_uint64 session) (to_uint64 x)
               (accepted, error_code) [] H2); [reflexivity | |].
    + rewrite H3. unfold onError. rewrite Hsd. cbn [negb errors]. now rewrite Herr.
    + rewrite (to_int64_to_uint64 session Hs), H4, H5.
      unfold onError. rewrite Hsd. exact Hnone.
Qed.

Lemma early_error_is_undefined_witness :
  run (OnError 5 100 true TIMEOUT
         :: [ProcessRequest (mkRequest 5 100 false); Commit (mkRequest 6 1 false)]
            ++ [Iterate])
      (processRequest (mkRequest 5 100 false) initial) = None.
Proof.
  apply (early_error_is_undefined (processRequest (mkRequest 5 100 false) initial)
           [ProcessRequest (mkRequest 5 100 false); Commit (mkRequest 6 1 false)]
           5 100 true TIMEOUT).
  - reflexivity.
  - reflexivity.
  - unfold in_int64. lia.
  - left. reflexivity.
  - repeat constructor.
Defined.

(** *** An error for an xid the session does not have pending *)

Lemma stuck_step (session x : Z) (st : State) (e : Event) :
  stuck session x st -> running e ->
  exists st',
    step st e = Some st'
    /\ stuck session x st'
    /\ responses_queue st' = responses_queue st
    /\ requests_queue st' = requests_queue st ++ requests_of e
    /\ committed_queue st' = committed_queue st ++ commits_of e
    /\ pending_requests st' = pending_requests st.
Proof.
  intros (Hsd & (v & rest & Herr) & requests & w_requests & Hfp & Hfw & Hnone) Hne.
  destruct e as [q|q|s y a c| |]; cbn [step requests_of commits_of].
  - eexists. split; [reflexivity|]. unfold processRequest. rewrite Hsd. cbn [negb].
    unfold stuck.
    cbn [shutdown_called errors pending_requests pending_write_requests
         responses_queue requests_queue committed_queue].
    rewrite app_nil_r. repeat split; trivial; [now exists v, rest|].
    now exists requests, w_requests.
  - eexists. split; [reflexivity|]. unfold commit. rewrite Hsd. cbn [negb].
    unfold stuck.
    cbn [shutdown_called errors pending_requests pending_write_requests
         responses_queue requests_queue committed_queue].
    rewrite app_nil_r. repeat split; trivial; [now exists v, rest|].
    now exists requests, w_requests.
  - contradiction.
  - unfold run3_iteration. rewrite Hsd.
    assert (Hnw : need_wait st = false) by (unfold need_wait; now rewrite Herr).
    rewrite Hnw. unfold drain_errors. rewrite Herr. destruct v as [accepted error_code].
    rewrite Hfp.
    pose proof (erase_xid_none x requests Hnone) as Hsame.
    destruct (erase_xid x requests) as [request requests'] eqn:He.
    cbn [fst snd] in Hnone, Hsame. subst request requests'. rewrite Hfw.
    destruct (erase_xid x w_requests) as [w_request w_requests']. cbn [bind].
    eexists. split; [reflexivity|]. unfold stuck.
    cbn [shutdown_called errors pending_requests pending_write_requests
         responses_queue requests_queue committed_queue].
    rewrite !app_nil_r, (update_same _ _ _ Hfp).
    repeat split; trivial; [now exists (accepted, error_code), rest|].
    exists requests, w_requests'. split; [assumption|]. split; [|now rewrite He].
    apply find_update_eq. now apply find_Some_keys in Hfw.
  - contradiction.
Qed.

(** X12: an error entry that matches no pending request blocks the worker.
    When the entry the iteration handles ([errors.begin()], the head of the
    list) names a session that is in both pending maps and an xid that is
    not in the session's pending list, every iteration throws the logic
    error before it reaches the queues and leaves the entry in place: over
    any sequence of requests, commits and iterations (no further error is
    reported and the processor is not shut down), no response is pushed any
    more, the input queue and the committed queue only grow, and
    [pending_requests] stays as it is. *)
Theorem unknown_xid_blocks (session x : Z) (events : list Event) :
  forall st : State,
  stuck session x st -> Forall running events ->
  exists st',
    run events st = Some st'
    /\ stuck session x st'
    /\ responses_queue st' = responses_queue st
    /\ requests_queue st' = requests_queue st ++ flat_map requests_of events
    /\ committed_queue st' = committed_queue st ++ flat_map commits_of events
    /\ pending_requests st' = pending_requests st.
Proof.
  induction events as [|e events IH]; intros st Hst Hr.
  - exists st. cbn [run flat_map]. rewrite !app_nil_r.
    split; [reflexivity|]. split; [assumption|]. repeat split.
  - inversion Hr as [|? ? He Hr']; subst.
    destruct (stuck_step session x st e Hst He) as (st1 & H1 & H2 & H3 & H4 & H5 & H6).
    destruct (IH st1 H2 Hr') as (st' & K1 & K2 & K3 & K4 & K5 & K6).
    exists st'. cbn [run flat_map]. rewrite H1.
    split; [assumption|]. split; [assumption|].
    split; [congruence|].
    split; [rewrite K4, H4; now rewrite <- app_assoc|].
    split; [rewrite K5, H5; now rewrite <- app_assoc|].
    congruence.
Qed.

Lemma unknown_xid_blocks_witness :
  exists st',
    run [Iterate; ProcessRequest (mkRequest 2 1 true); Commit (mkRequest 1 7 false); Iterate]
      unknown_xid_state = Some st'
    /\ stuck 1 99 st'
    /\ responses_queue st' = responses_queue unknown_xid_state
    /\ requests_queue st'
       = requests_queue unknown_xid_state
           ++ flat_map requests_of
                [Iterate; ProcessRequest (mkRequest 2 1 true);
                 Commit (mkRequest 1 7 false); Iterate]
    /\ committed_queue st'
       = committed_queue unknown_xid_state
           ++ flat_map commits_of
                [Iterate; ProcessRequest (mkRequest 2 1 true);
                 Commit (mkRequest 1 7 false); Iterate]
    /\ pending_requests st' = pending_requests unknown_xid_state.
Proof.
  apply (unknown_xid_blocks 1 99
           [Iterate; ProcessRequest (mkRequest 2 1 true); Commit (mkRequest 1 7 false);
            Iterate] unknown_xid_state).
  - split; [reflexivity|]. split; [now exists (true, TIMEOUT), []|].
    exists [mkRequest 1 7 false], [mkRequest 1 7 false]. repeat split.
  - repeat constructor.
Defined.

(** X13: no response is invented. In every state a run from the initial
    state reaches, each response in the sink answers a request of the run:
    a response pushed by the store is for a request that was passed to
    [processRequest] or to [commit], and is addressed to that request's
    session; a response made by the processor itself (for an error or at
    shutdown) has zxid 0 and the xid and session of a request that was
    passed to [processRequest]. *)
Theorem responses_answer_requests (events : list Event) (st : State) :
  run events initial = Some st ->
  Forall (answers_request events) (responses_queue st).
Proof.
  intros H.
  assert (Ht : traced [] initial).
  { split; [intros r []|]. split; [intros t r []|]. split; [intros r [] | constructor]. }
  pose proof (run_traced events [] initial st initial_filed Ht H) as (_ & _ & _ & Hr).
  exact Hr.
Qed.

Lemma responses_answer_requests_witness :
  exists st,
    run mixed_run initial = Some st
    /\ Forall (answers_request mixed_run) (responses_queue st).
Proof.
  eexists. split; [reflexivity|].
  apply (responses_answer_requests mixed_run). reflexivity.
Defined.

(** X14: reads first, then commits. An iteration that finds no error entry
    pushes for a session first the responses of reads it serves, which are a
    prefix of the session's pending list followed by its requests in the
    input queue, and then the responses of commits it applies, which are a
    prefix of the session's requests in the committed queue. When the
    pending list of the session starts with a write as the iteration
    begins, the iteration serves no read of the session: a read queued
    behind the write is answered by a later iteration, also when this one
    applies the commit of the write. *)
Theorem reads_then_commits (st st' : State) (s : Z) :
  filed st -> errors st = [] ->
  step st Iterate = Some st' ->
  exists served_reads applied,
    responses_for s (responses_queue st')
    = responses_for s (responses_queue st) ++ map stored served_reads ++ map stored applied
    /\ Forall (fun r => isReadRequest r = true) served_reads
    /\ (exists rest,
          lookup s (pending_requests st) ++ on s (requests_queue st) = served_reads ++ rest)
    /\ (exists rest, on s (committed_queue st) = applied ++ rest)
    /\ (forall w rest,
          lookup s (pending_requests st) = w :: rest -> isReadRequest w = false ->
          served_reads = []).
Proof.
  intros (Hp & Hw & Ho & How & _) Herr H.
  apply step_iterate_cases in H as [->|[(_ & _ & H)|H]].
  - exists [], []. cbn [map]. rewrite !app_nil_r.
    split; [reflexivity|]. split; [constructor|].
    split; [now eexists|]. split; [now exists (on s (committed_queue st))|]. reflexivity.
  - apply process_queues_spec in H
      as (_ & _ & _ & _ & _ & _ & _ & _ & added & applied & dropped
          & Hresp & Hcq & _ & Hser); try assumption.
    destruct (Hser s) as (sv & a & E & Hsv & Esv).
    exists sv, (on s applied).
    rewrite Hresp, !responses_for_app, Esv, responses_for_stored.
    split; [reflexivity|]. split; [assumption|].
    split; [now exists (a ++ lookup s (pending_requests st'))|].
    split; [exists (on s (dropped ++ committed_queue st')); now rewrite Hcq, on_app|].
    intros w rest Hl Hwr. rewrite Hl in E. destruct sv as [|r sv]; [reflexivity|].
    cbn [app] in E. injection E as <- _. inversion Hsv; subst. congruence.
  - destruct H as (session & x & accepted & error_code & rest & _ & _ & _ & Herr' & _).
    congruence.
Qed.

Lemma reads_then_commits_witness :
  exists served_reads applied,
    responses_for 1 (responses_queue
                       (mkState [] false
                          [stored (mkRequest 2 1 true); stored (mkRequest 1 2 false)] []
                          [(2, [])] [(1, [mkRequest 1 3 true])] []))
    = responses_for 1 (responses_queue commit_queued)
        ++ map stored served_reads ++ map stored applied
    /\ Forall (fun r => isReadRequest r = true) served_reads
    /\ (exists rest,
          lookup 1 (pending_requests commit_queued) ++ on 1 (requests_queue commit_queued)
          = served_reads ++ rest)
    /\ (exists rest, on 1 (committed_queue commit_queued) = applied ++ rest)
    /\ (forall w rest,
          lookup 1 (pending_requests commit_queued) = w :: rest ->
          isReadRequest w = false -> served_reads = []).
Proof.
  apply (reads_then_commits commit_queued).
  - unfold filed, commit_queued, owned.
    cbn [pending_requests pending_write_requests errors keys map fst snd].
    repeat split; repeat constructor; intros [].
  - reflexivity.
  - reflexivity.
Defined.

(** *** Shutdown *)

Lemma sorted_skip (a b c : list Z) :
  StronglySorted Z.lt (a ++ b ++ c) ->
  StronglySorted Z.lt (a ++ c) /\ forall x, In x b -> ~ In x (a ++ c).
Proof.
  induction a as [|a0 a IH]; cbn [app].
  - induction b as [|b0 b IHb]; cbn [app]; intros H.
    + split; [assumption | intros x []].
    + inversion H as [|? ? Hs Hall]; subst. destruct (IHb Hs) as [H1 H2].
      split; [assumption|]. intros x [<-|Hx]; [|now apply H2].
      intros Hin. apply Forall_app in Hall as [_ Hall].
      rewrite Forall_forall in Hall. specialize (Hall _ Hin). lia.
  - intros H. inversion H as [|? ? Hs Hall]; subst. destruct (IH Hs) as [H1 H2].
    apply Forall_app in Hall as [Ha Hall]. apply Forall_app in Hall as [Hb Hc].
    split.
    + constructor; [assumption|]. apply Forall_app. now split.
    + intros x Hx [<-|Hin]; [|now apply (H2 x)].
      rewrite Forall_forall in Hb. specialize (Hb _ Hx). lia.
Qed.

Lemma responses_for_expired (s : Z) (l : list Request) :
  responses_for s (map expired l) = map expired (on s l).
Proof.
  induction l as [|r l IH]; [reflexivity|].
  cbn [map]. unfold responses_for, on in *. cbn [filter expired fst].
  destruct (session_id r =? s); cbn [map]; now rewrite IH.
Qed.

Lemma response_xid_expired (l : list Request) :
  map response_xid (map expired l) = map xid l.
Proof. induction l as [|r l IH]; [reflexivity|]. cbn [map]. now rewrite IH. Qed.

(** X15: shutdown answers the input queue and nothing else. For a session
    whose xids increase and whose commits follow its writes, in a run
    without commit errors that is then shut down: the responses of the
    session gain a session-expired response for each of its requests still
    in the input queue, in order; the xids of all its responses still
    increase strictly; the requests the worker had taken from the queue but
    not answered (its pending list) get no response, neither a result nor
    session-expired; and no event after the shutdown changes anything. *)
Theorem shutdown_skips_pending (s : Z) (events after : list Event) :
  Forall running events ->
  increasing (enqueued s events) ->
  commits_follow s events ->
  exists st,
    run events initial = Some st
    /\ run (events ++ Shutdown :: after) initial = Some (shutdown st)
    /\ responses_for s (responses_queue (shutdown st))
       = responses_for s (responses_queue st) ++ map expired (on s (requests_queue st))
    /\ StronglySorted Z.lt
         (map response_xid (responses_for s (responses_queue (shutdown st))))
    /\ (forall r, In r (lookup s (pending_requests st)) ->
                  ~ In (xid r)
                      (map response_xid (responses_for s (responses_queue (shutdown st))))).
Proof.
  intros Hr HE Hcf.
  destruct (run_ok s events Hr HE Hcf) as (st & Hrun & Hsd & _ & _ & Hs).
  destruct Hs as (done & lost & H1 & H2 & _ & _ & _).
  exists st. split; [assumption|].
  assert (Hsh : shutdown_called (shutdown st) = true)
    by (unfold shutdown; now rewrite Hsd).
  split.
  { rewrite run_app, Hrun. cbn [run step]. now apply run_after_shutdown. }
  assert (Hresp : responses_for s (responses_queue (shutdown st))
                  = responses_for s (responses_queue st)
                      ++ map expired (on s (requests_queue st))).
  { unfold shutdown. rewrite Hsd. cbn [responses_queue].
    now rewrite responses_for_app, responses_for_expired. }
  split; [assumption|].
  rewrite Hresp, map_app, response_xid_expired, H2.
  unfold increasing in HE. rewrite H1, !map_app in HE.
  destruct (sorted_skip _ _ _ HE) as [Hsorted Hskip].
  split; [assumption|].
  intros r Hin. apply Hskip. now apply in_map.
Qed.

Lemma shutdown_skips_pending_witness :
  exists st,
    run before_shutdown initial = Some st
    /\ run (before_shutdown ++ Shutdown :: [Commit (mkRequest 1 2 false); Iterate]) initial
       = Some (shutdown st)
    /\ responses_for 1 (responses_queue (shutdown st))
       = responses_for 1 (responses_queue st) ++ map expired (on 1 (requests_queue st))
    /\ StronglySorted Z.lt
         (map response_xid (responses_for 1 (responses_queue (shutdown st))))
    /\ (forall r, In r (lookup 1 (pending_requests st)) ->
                  ~ In (xid r)
                      (map response_xid (responses_for 1 (responses_queue (shutdown st))))).
Proof.
  apply (shutdown_skips_pending 1 before_shutdown [Commit (mkRequest 1 2 false); Iterate]).
  - unfold before_shutdown. repeat constructor.
  - unfold increasing. cbn. repeat constructor.
  - intros before rest H. unfold before_shutdown in H.
    repeat (destruct before as [|? before];
            [eexists; reflexivity | injection H as <- H]).
    destruct before; [eexists; reflexivity | discriminate H].
Defined.

End ProcessorMore.

(** ** Two commits of one session in one iteration *)

Module LostCommit.
Import CommitProcessor ProcessorSpec ProcessorFacts MapFacts ReadFacts PhaseFacts SessionFacts RunFacts ProcessorMoreSpec.

(** One commit that matches the heads of the session's two lists. *)
Lemma apply_committed_match (c : Request) (cq : list Request)
  (pending pending_w : PendingMap) (responses : list ResponseForSession)
  (w p : Request) (wt pt : list Request) :
  NoDup (keys pending) -> NoDup (keys pending_w) ->
  lookup (session_id c) pending_w = w :: wt ->
  lookup (session_id c) pending = p :: pt ->
  xid w = xid c -> xid p = xid c ->
  exists pending' pending_w',
    apply_committed (c :: cq) pending pending_w responses
    = apply_committed cq pending' pending_w' (responses ++ [stored c])
    /\ NoDup (keys pending') /\ NoDup (keys pending_w')
    /\ lookup (session_id c) pending' = pt
    /\ lookup (session_id c) pending_w' = wt.
Proof.
  intros Hp Hw Ew Ep Hxw Hxp. cbn [apply_committed].
  destruct (subscript_spec (session_id c) pending_w) as (pw1 & -> & Hin1 & Hl1 & Hn1 & _).
  rewrite Ew. apply Z.eqb_eq in Hxw. rewrite Hxw. cbn [negb].
  destruct (subscript_spec (session_id c) pending) as (pend1 & -> & Hin2 & Hl2 & Hn2 & _).
  rewrite Ep. apply Z.eqb_eq in Hxp. rewrite Hxp. cbn [negb].
  destruct (pop_spec (session_id c) wt pw1 Hin1 (Hn1 Hw)) as (Hw1 & _ & Hw3 & _).
  destruct (pop_spec (session_id c) pt pend1 Hin2 (Hn2 Hp)) as (Hp1 & _ & Hp3 & _).
  eexists. eexists. split; [reflexivity|]. repeat split; assumption.
Qed.

(** One commit that matches the head of the pending writes but meets
    another request at the head of the pending list. *)
Lemma apply_committed_mismatch (c : Request) (cq : list Request)
  (pending pending_w : PendingMap) (responses : list ResponseForSession)
  (w p : Request) (wt pt : list Request) :
  lookup (session_id c) pending_w = w :: wt ->
  lookup (session_id c) pending = p :: pt ->
  xid w = xid c -> xid p <> xid c ->
  exists pending' pending_w',
    apply_committed (c :: cq) pending pending_w responses
    = Throw (LogicErrorPendingHead (session_id c) (xid p) (xid c))
        (cq, pending', pending_w', responses)
    /\ (forall t, lookup t pending' = lookup t pending)
    /\ (forall t, lookup t pending_w' = lookup t pending_w).
Proof.
  intros Ew Ep Hxw Hxp. cbn [apply_committed].
  destruct (subscript_spec (session_id c) pending_w) as (pw1 & -> & _ & Hl1 & _).
  rewrite Ew. apply Z.eqb_eq in Hxw. rewrite Hxw. cbn [negb].
  destruct (subscript_spec (session_id c) pending) as (pend1 & -> & _ & Hl2 & _).
  rewrite Ep. apply Z.eqb_neq in Hxp. rewrite Hxp. cbn [negb].
  eexists. eexists. split; [reflexivity|]. split; assumption.
Qed.

(** X16: the second of two commits is dropped. On a processor with no
    error entry and an empty input queue, whose pending maps are consistent
    (each session's pending writes are the writes of its pending list, with
    increasing xids), let a session have a write, then a read, then further
    requests pending, and let the committed queue start with the commit of
    that write followed by the commit of the session's next write. The
    iteration answers the first commit, pops the second, finds the read at
    the head of the pending list and throws: the second commit is removed
    from the committed queue without a response, and its write stays
    pending behind the read. *)
Theorem second_commit_is_dropped (st : State) (s : Z) (p1 r w2 c1 c2 : Request)
  (prest wrest cq : list Request) :
  shutdown_called st = false -> errors st = [] -> requests_queue st = [] ->
  NoDup (keys (pending_requests st)) -> NoDup (keys (pending_write_requests st)) ->
  owned (pending_requests st) ->
  (forall t l, In (t, l) (pending_requests st) ->
               lookup t (pending_write_requests st) = writes l /\ increasing l) ->
  lookup s (pending_requests st) = p1 :: r :: prest ->
  isReadRequest p1 = false -> isReadRequest r = true ->
  writes prest = w2 :: wrest ->
  committed_queue st = c1 :: c2 :: cq ->
  session_id c1 = s -> session_id c2 = s ->
  xid c1 = xid p1 -> xid c2 = xid w2 ->
  exists st',
    run3_iteration st = (Caught (LogicErrorPendingHead s (xid r) (xid c2)), st')
    /\ committed_queue st' = cq
    /\ lookup s (pending_requests st') = r :: prest
    /\ lookup s (pending_write_requests st') = w2 :: wrest
    /\ responses_for s (responses_queue st')
       = responses_for s (responses_queue st) ++ [stored c1].
Proof.
  intros Hsd Herr Hrq Hp Hw Ho Hcons Hl Hp1 Hr Hw2 Hcq Hs1 Hs2 Hx1 Hx2.
  assert (Hin : In (s, p1 :: r :: prest) (pending_requests st)).
  { apply find_Some_In. unfold lookup in Hl.
    destruct (find s (pending_requests st)); [now rewrite Hl | discriminate Hl]. }
  destruct (Hcons _ _ Hin) as [Hlw Hinc].
  assert (Hlw' : lookup s (pending_write_requests st) = p1 :: w2 :: wrest).
  { rewrite Hlw. unfold writes. cbn [filter]. unfold is_write at 1 2.
    rewrite Hp1, Hr. cbn [negb]. fold (writes prest). now rewrite Hw2. }
  assert (Hrw : xid r <> xid c2).
  { rewrite Hx2. apply increasing_tail in Hinc.
    assert (Hinw : In w2 prest) by (apply writes_In; rewrite Hw2; now left).
    pose proof (increasing_head r w2 prest Hinc Hinw). lia. }
  unfold run3_iteration. rewrite Hsd.
  assert (Hnw : need_wait st = false).
  { unfold need_wait. rewrite Herr, Hrq, Hcq. now destruct (pending_requests st). }
  rewrite Hnw. unfold drain_errors. rewrite Herr. cbn [bind].
  unfold process_queues. rewrite Hrq. cbn [drain_requests fold_left].
  destruct (serve_sessions_reads (pending_requests st) (pending_write_requests st)
              (responses_queue st) Hcons) as (pw1 & Eserve & _).
  destruct (serve_sessions_any (pending_requests st) (pending_write_requests st)
              (responses_queue st) Hp Hw Ho)
    as (pend2 & pw2 & added & Er & Hp2 & _ & Hw2' & _ & Hlw2 & Hser).
  rewrite Eserve in Er |- *. cbn [result] in Er. injection Er as Ep2 Epw2 Eadd.
  rewrite Ep2, Epw2, Eadd, Hcq. cbn [bind].
  destruct (Hser s) as (sv & Hsv1 & Hsv2 & Hsv3).
  assert (Hsv : sv = []).
  { rewrite Hl in Hsv1. destruct sv as [|q sv]; [reflexivity|].
    cbn [app] in Hsv1. injection Hsv1 as <- _. inversion Hsv2; subst. congruence. }
  subst sv. cbn [app map] in Hsv1, Hsv3.
  assert (Hl2 : lookup (session_id c1) pend2 = p1 :: r :: prest)
    by (now rewrite Hs1, <- Hsv1).
  assert (Hlw3 : lookup (session_id c1) pw2 = p1 :: w2 :: wrest)
    by (now rewrite Hs1, Hlw2).
  destruct (apply_committed_match c1 (c2 :: cq) pend2 pw2 (responses_queue st ++ added)
              p1 p1 (w2 :: wrest) (r :: prest) Hp2 Hw2' Hlw3 Hl2
              (eq_sym Hx1) (eq_sym Hx1))
    as (pend3 & pw3 & -> & Hp3 & Hw3 & Hl3 & Hlw4).
  rewrite Hs1, <- Hs2 in Hl3, Hlw4.
  destruct (apply_committed_mismatch c2 cq pend3 pw3
              ((responses_queue st ++ added) ++ [stored c1])
              w2 r wrest prest Hlw4 Hl3 (eq_sym Hx2) Hrw)
    as (pend4 & pw4 & -> & Hl4 & Hlw5).
  cbn [bind]. rewrite Hs2. eexists. split; [reflexivity|].
  cbn [committed_queue pending_requests pending_write_requests responses_queue].
  split; [reflexivity|].
  split; [now rewrite Hl4, <- Hs2|].
  split; [now rewrite Hlw5, <- Hs2|].
  rewrite !responses_for_app, Hsv3, app_nil_r.
  unfold responses_for at 2, stored. cbn [filter fst].
  now rewrite Hs1, Z.eqb_refl.
Qed.

Lemma second_commit_is_dropped_witness :
  exists st',
    run3_iteration both_committed
    = (Caught (LogicErrorPendingHead 1 (xid (mkRequest 1 3 true))
                 (xid (mkRequest 1 4 false))), st')
    /\ committed_queue st' = []
    /\ lookup 1 (pending_requests st') = [mkRequest 1 3 true; mkRequest 1 4 false]
    /\ lookup 1 (pending_write_requests st') = [mkRequest 1 4 false]
    /\ responses_for 1 (responses_queue st')
       = responses_for 1 (responses_queue both_committed) ++ [stored (mkRequest 1 2 false)].
Proof.
  apply (second_commit_is_dropped both_committed 1 (mkRequest 1 2 false)
           (mkRequest 1 3 true) (mkRequest 1 4 false)
           (mkRequest 1 2 false) (mkRequest 1 4 false) [mkRequest 1 4 false] [] []);
    try reflexivity.
  - repeat constructor; intros [].
  - repeat constructor; intros [].
  - repeat constructor.
  - intros t l [H|[]]. injection H as <- <-. split; [reflexivity|].
    unfold increasing. cbn. repeat constructor.
Defined.

End LostCommit.

(** ** Entries of [pending_write_requests] that are never erased *)

Module WriteEntries.
Import CommitProcessor ProcessorSpec ProcessorFacts MapFacts ReadFacts PhaseFacts SessionFacts RunFacts ProcessorMoreSpec.

Lemma find_snoc_other (s t : Z) (m : PendingMap) (v : list Request) :
  t <> s -> find s (m ++ [(t, v)]) = find s m.
Proof.
  intros Hne. rewrite find_app. destruct (find s m); [reflexivity|].
  cbn [find]. destruct (Z.eqb_spec t s); [contradiction | reflexivity].
Qed.

(** [operator[]] leaves an existing entry alone. *)
Lemma subscript_find (s t : Z) (m : PendingMap) (v : list Request) :
  find s m = Some v ->
  fst (subscript t [] m) = lookup t m
  /\ find s (snd (subscript t [] m)) = Some v.
Proof.
  intros H. unfold subscript, lookup.
  destruct (find t m) as [u|] eqn:Et; cbn [fst snd]; [now split|].
  split; [reflexivity|]. rewrite find_snoc_other; [assumption|].
  intros ->. congruence.
Qed.

Lemma push_back_find (s t : Z) (r : Request) (m : PendingMap) :
  t <> s -> find s (push_back t r m) = find s m.
Proof.
  intros Hne. unfold push_back, subscript.
  destruct (find t m) as [u|] eqn:Et.
  - now apply find_update_neq.
  - rewrite find_update_neq by congruence. now apply find_snoc_other.
Qed.

Lemma drain_requests_find (s : Z) (requests : list Request) :
  forall pending pending_w : PendingMap,
  Forall (fun r => isReadRequest r = true) (on s requests) ->
  find s (snd (drain_requests requests pending pending_w)) = find s pending_w.
Proof.
  unfold drain_requests.
  induction requests as [|r requests IH]; intros pending pending_w Hr; [reflexivity|].
  cbn [fold_left]. unfold enqueue_pending at 2.
  unfold on in Hr. cbn [filter] in Hr. fold (on s requests) in Hr.
  destruct (Z.eqb_spec (session_id r) s) as [Hs|Hs].
  - inversion Hr as [|? ? Hread Hr']; subst. rewrite Hread. cbn [negb].
    now apply IH.
  - rewrite IH by assumption.
    destruct (isReadRequest r); cbn [negb]; [reflexivity|].
    now apply push_back_find.
Qed.

Lemma serve_sessions_find (s : Z) :
  forall (pending pending_w : PendingMap) (responses : list ResponseForSession)
         (pending' pending_w' : PendingMap) (responses' : list ResponseForSession),
  find s pending_w = Some [] ->
  result (serve_sessions pending pending_w responses) = Some (pending', pending_w', responses') ->
  find s pending_w' = Some [].
Proof.
  induction pending as [|[k l] pending IH];
    intros pending_w responses pending' pending_w' responses' Hf H.
  - cbn [serve_sessions result] in H. now injection H as _ <- _.
  - cbn [serve_sessions] in H.
    assert (Hsub : exists w1 pw1,
               match l with [] => ([], pending_w) | _ => subscript k [] pending_w end
               = (w1, pw1) /\ find s pw1 = Some []).
    { destruct l as [|q l]; [now exists [], pending_w|].
      destruct (subscript k [] pending_w) as [w1 pw1] eqn:E. exists w1, pw1.
      split; [reflexivity|].
      pose proof (subscript_find s k pending_w [] Hf) as [_ H2].
      now rewrite E in H2. }
    destruct Hsub as (w1 & pw1 & E & Hf1). rewrite E in H.
    destruct (serve_requests w1 l responses) as [[l0 rs0]|e [l0 rs0]|];
      [| |discriminate H].
    + destruct (serve_sessions pending pw1 rs0) as [[[m0 w0] r0]|e0 [[m0 w0] r0]|] eqn:Es;
        cbn [bind result] in H; [| |discriminate H]; injection H as _ <- _;
        apply (IH pw1 rs0 m0 w0 r0 Hf1); now rewrite Es.
    + cbn [result] in H. now injection H as _ <- _.
Qed.

Lemma apply_committed_find (s : Z) :
  forall (queued : list Request) (pending pending_w : PendingMap)
         (responses : list ResponseForSession)
         (queued' : list Request) (pending' pending_w' : PendingMap)
         (responses' : list ResponseForSession),
  find s pending_w = Some [] ->
  result (apply_committed queued pending pending_w responses)
  = Some (queued', pending', pending_w', responses') ->
  find s pending_w' = Some [].
Proof.
  induction queued as [|c cq IH];
    intros pending pending_w responses queued' pending' pending_w' responses' Hf H.
  - cbn [apply_committed result] in H. now injection H as _ _ <- _.
  - cbn [apply_committed] in H.
    destruct (subscript_find s (session_id c) pending_w [] Hf) as [H1 H2].
    destruct (subscript (session_id c) [] pending_w) as [w1 pw1].
    cbn [fst snd] in H1, H2. subst w1.
    destruct (lookup (session_id c) pending_w) as [|wh wt] eqn:Ew.
    + now apply IH in H.
    + assert (Hne : session_id c <> s).
      { intros Heq. rewrite Heq in Ew. unfold lookup in Ew. rewrite Hf in Ew.
        discriminate Ew. }
      destruct (negb (xid wh =? xid c)).
      * cbn [result] in H. now injection H as _ _ <- _.
      * destruct (subscript (session_id c) [] pending) as [p1 pend1].
        destruct p1 as [|ph pt]; [discriminate H|].
        destruct (negb (xid ph =? xid c)).
        -- cbn [result] in H. now injection H as _ _ <- _.
        -- apply IH in H; [assumption|].
           assert (Hu : find s (update (session_id c) wt pw1) = Some [])
             by (rewrite find_update_neq by congruence; assumption).
           destruct wt; cbn [erase_if_empty]; [|assumption].
           rewrite find_erase_neq by congruence. assumption.
Qed.

Lemma process_queues_find (s : Z) (st st' : State) :
  find s (pending_write_requests st) = Some [] ->
  Forall (fun r => isReadRequest r = true) (on s (requests_queue st)) ->
  result (process_queues st) = Some st' ->
  find s (pending_write_requests st') = Some [] /\ requests_queue st' = [].
Proof.
  intros Hf Hr H. unfold process_queues in H.
  pose proof (drain_requests_find s (requests_queue st) (pending_requests st)
                (pending_write_requests st) Hr) as Hd.
  destruct (drain_requests (requests_queue st) (pending_requests st)
              (pending_write_requests st)) as [pend1 pw1].
  cbn [snd] in Hd. rewrite Hf in Hd.
  destruct (serve_sessions pend1 pw1 (responses_queue st))
    as [[[p w] rs]|e [[p w] rs]|] eqn:Es; cbn [bind result] in H; [| |discriminate H].
  - assert (Hw : find s w = Some []).
    { apply (serve_sessions_find s pend1 pw1 (responses_queue st) p w rs Hd).
      now rewrite Es. }
    destruct (apply_committed (committed_queue st) p w rs)
      as [[[[c p'] w'] rs']|e [[[c p'] w'] rs']|] eqn:Ea;
      cbn [bind result] in H; [| |discriminate H]; injection H as <-;
      cbn [pending_write_requests requests_queue]; (split; [|reflexivity]);
      apply (apply_committed_find s (committed_queue st) p w rs c p' w' rs' Hw);
      now rewrite Ea.
  - injection H as <-. cbn [pending_write_requests requests_queue].
    split; [|reflexivity].
    apply (serve_sessions_find s pend1 pw1 (responses_queue st) p w rs Hd).
    now rewrite Es.
Qed.

Lemma step_keeps_entry (s : Z) (st st' : State) (e : Event) :
  find s (pending_write_requests st) = Some [] ->
  Forall (fun r => isReadRequest r = true) (on s (requests_queue st)) ->
  Forall (fun r => isReadRequest r = true) (on s (requests_of e)) ->
  step st e = Some st' ->
  find s (pending_write_requests st') = Some []
  /\ Forall (fun r => isReadRequest r = true) (on s (requests_queue st')).
Proof.
  intros Hf Hr He H. destruct e as [q|q|t x a c| |].
  - cbn [step] in H. injection H as <-. unfold processRequest.
    destruct (shutdown_called st); cbn [negb pending_write_requests requests_queue];
      [now split|].
    split; [assumption|]. rewrite on_app. apply Forall_app. now split.
  - cbn [step] in H. injection H as <-. unfold commit.
    destruct (shutdown_called st); cbn [negb]; now split.
  - cbn [step] in H. injection H as <-. unfold onError.
    destruct (shutdown_called st); cbn [negb]; now split.
  - apply step_iterate_cases in H as [->|[(_ & _ & H)|H]]; [now split| |].
    + apply (process_queues_find s) in H as [H1 H2]; try assumption.
      split; [assumption|]. rewrite H2. constructor.
    + destruct H as (session & x & accepted & error_code & rest & requests & w_requests
                     & _ & _ & _ & Hfw & ->).
      cbn [pending_write_requests requests_queue]. split; [|assumption].
      destruct (Z.eq_dec (to_int64 session) s) as [Heq|Hne].
      * rewrite Heq in *. rewrite Hf in Hfw. injection Hfw as <-.
        cbn [erase_xid snd]. apply find_update_eq. now apply find_Some_keys in Hf.
      * rewrite find_update_neq by congruence. assumption.
  - cbn [step] in H. injection H as <-. unfold shutdown.
    destruct (shutdown_called st); cbn [pending_write_requests requests_queue];
      [now split|]. split; [assumption | constructor].
Qed.

Lemma run_keeps_entry (s : Z) (events : list Event) :
  forall st st',
  find s (pending_write_requests st) = Some [] ->
  Forall (fun r => isReadRequest r = true) (on s (requests_queue st)) ->
  Forall (fun r => isReadRequest r = true) (on s (flat_map requests_of events)) ->
  run events st = Some st' ->
  find s (pending_write_requests st') = Some [].
Proof.
  induction events as [|e events IH]; intros st st' Hf Hr He H.
  - cbn [run] in H. now injection H as <-.
  - cbn [run] in H. destruct (step st e) as [st1|] eqn:Es; [|discriminate H].
    cbn [flat_map] in He. rewrite on_app in He. apply Forall_app in He as [He1 He2].
    destruct (step_keeps_entry s st st1 e Hf Hr He1 Es) as [Hf1 Hr1].
    now apply (IH st1 st').
Qed.

(** X17: a session that only reads leaves an entry behind. Let the worker
    be idle (no error entry, empty input queue, nothing pending) and let a
    session with no pending writes submit a read. The iteration that serves
    the read evaluates [pending_write_requests[session]], which creates an
    entry with an empty list if there was none; from then on, whatever
    happens in the run - requests of other sessions, commits (also for this
    session), error reports, iterations, shutdown - the entry is still
    there, with an empty list, as long as the session submits reads only:
    nothing in the worker erases it. *)
Theorem read_only_session_leaves_entry (st st' : State) (s x : Z) (events : list Event) :
  shutdown_called st = false -> errors st = [] ->
  requests_queue st = [] -> pending_requests st = [] ->
  lookup s (pending_write_requests st) = [] ->
  Forall (fun r => isReadRequest r = true) (on s (flat_map requests_of events)) ->
  run (ProcessRequest (mkRequest s x true) :: Iterate :: events) st = Some st' ->
  find s (pending_write_requests st') = Some [].
Proof.
  intros Hsd Herr Hrq Hp Hl He H. cbn [run] in H.
  destruct (step st (ProcessRequest (mkRequest s x true))) as [st1|] eqn:E1;
    [|discriminate H].
  cbn [step] in E1. injection E1 as <-.
  destruct (step _ Iterate) as [st2|] eqn:E2; [|discriminate H].
  apply (run_keeps_entry s events st2 st'); try assumption.
  - (* the iteration that serves the read *)
    revert E2. cbn [step]. unfold run3_iteration, processRequest.
    rewrite Hsd, Hrq, Herr, Hp. cbn [negb shutdown_called need_wait errors
      pending_requests requests_queue app].
    unfold drain_errors. cbn [errors bind]. unfold process_queues.
    cbn [requests_queue pending_requests pending_write_requests responses_queue
         committed_queue shutdown_called errors drain_requests fold_left
         enqueue_pending session_id isReadRequest negb].
    unfold push_back at 1. cbn [subscript find update app]. rewrite Z.eqb_refl.
    cbn [serve_sessions].
    assert (Hsub : exists pw1,
               subscript s [] (pending_write_requests st) = ([], pw1)
               /\ find s pw1 = Some []).
    { unfold subscript. unfold lookup in Hl.
      destruct (find s (pending_write_requests st)) as [v|] eqn:Ef.
      - subst v. now exists (pending_write_requests st).
      - eexists. split; [reflexivity|]. rewrite find_app, Ef. cbn [find].
        now rewrite Z.eqb_refl. }
    destruct Hsub as (pw1 & -> & Hf1).
    cbn [serve_requests isReadRequest negb session_id serve_sessions bind keep_nonempty].
    destruct (apply_committed (committed_queue st) [] pw1 _)
      as [[[[c p'] w'] rs']|e [[[c p'] w'] rs']|] eqn:Ea;
      cbn [bind]; intros E2; [| |discriminate E2]; injection E2 as <-;
      cbn [pending_write_requests];
      eapply (apply_committed_find s); [exact Hf1 | rewrite Ea; reflexivity
                                       | exact Hf1 | rewrite Ea; reflexivity].
  - (* the input queue after it *)
    revert E2. cbn [step]. unfold run3_iteration, processRequest.
    rewrite Hsd, Hrq, Herr, Hp. cbn [negb shutdown_called need_wait errors
      pending_requests requests_queue app].
    unfold drain_errors. cbn [errors bind]. intros E2.
    assert (Hq : requests_queue st2 = []).
    { unfold process_queues in E2.
      destruct (drain_requests _ _ _) as [pend1 pw1].
      destruct (serve_sessions _ _ _) as [[[p w] rs]|e [[p w] rs]|];
        cbn [bind] in E2; [| |discriminate E2].
      - destruct (apply_committed _ _ _ _) as [[[[c p'] w'] rs']|e [[[c p'] w'] rs']|];
          cbn [bind] in E2; [| |discriminate E2]; now injection E2 as <-.
      - now injection E2 as <-. }
    rewrite Hq. constructor.
Qed.

Lemma read_only_session_leaves_entry_witness :
  exists st',
    run (ProcessRequest (mkRequest 5 1 true) :: Iterate :: reads_of_5) idle_state = Some st'
    /\ find 5 (pending_write_requests st') = Some [].
Proof.
  eexists. split; [reflexivity|].
  apply (read_only_session_leaves_entry idle_state _ 5 1 reads_of_5);
    try reflexivity.
  unfold reads_of_5. cbn. repeat constructor.
Defined.

End WriteEntries.
